(** * SPF checker: the DNS resolver and the lookup counter of [src/app.js]

    A shallow embedding of [SPFChecker.fetchSPFRecords],
    [SPFChecker.fetchIncludedDomain], [SPFChecker.countDNSLookups] and
    [SPFChecker.extractIncludes], with the fragment of the JavaScript
    regular-expression and string runtime those methods rely on; and,
    after them, of [validateDomain], [escapeHtml], [checkSPF] with the
    [blur] handler of [init], [getMechanismExplanation] and
    [highlightMechanisms].

    The methods are [async] and talk to a DNS-over-HTTPS service.  They are
    written in a monad of completions over a world that holds the [visited]
    set and the requests made; the service is a parameter [fetch].  The two
    loops that the source bounds by its own data (the recursion of
    [countDNSLookups] by [depth], the [exec] loops of [extractIncludes] by
    the length of the record) take a fuel, and are shown to return for every
    fuel above that bound. *)

From stdpp Require Import base list gmap sets strings.
From Stdlib Require Import ZArith NArith Lia Sorted.

Set Warnings "-clear-no-such-hyp,-level-tolerance".
Local Open Scope nat_scope.

(** ** JavaScript strings

    A JavaScript string is a sequence of UTF-16 code units; regular
    expressions without the [u] flag work on code units. *)

Abbreviation jsstring := (list N).

Definition js (s : string) : jsstring :=
  map Ascii.N_of_ascii (String.list_ascii_of_string s).

Arguments js : simpl never.

Module Str.

(** [s.startsWith(p)] *)
Fixpoint startsWith (p s : jsstring) : bool :=
  match p, s with
  | [], _ => true
  | _ :: _, [] => false
  | a :: p', b :: s' => N.eqb a b && startsWith p' s'
  end.

(** [s.replace(pat, rep)] with a string pattern: only the first
    occurrence of [pat] is replaced. *)
Fixpoint replace (pat rep s : jsstring) : jsstring :=
  if startsWith pat s then rep ++ drop (length pat) s
  else match s with
       | [] => []
       | c :: s' => c :: replace pat rep s'
       end.

End Str.

(** ** Regular expressions *)

Module RegExp.

(** [\s]: WhiteSpace and LineTerminator code units. *)
Definition isWhiteSpace (c : N) : bool :=
  ((9 <=? c) && (c <=? 13) || (c =? 32) || (c =? 160) || (c =? 5760)
   || (8192 <=? c) && (c <=? 8202) || (c =? 8232) || (c =? 8233)
   || (c =? 8239) || (c =? 8287) || (c =? 12288) || (c =? 65279))%N.

(** [\w]: [A-Za-z0-9_]. *)
Definition isWordChar (c : N) : bool :=
  ((48 <=? c) && (c <=? 57) || (65 <=? c) && (c <=? 90) || (c =? 95)
   || (97 <=? c) && (c <=? 122))%N.

Inductive ClassAtom :=
| esc_s          (* \s *)
| esc_S.         (* \S *)

(** A bracket expression: [[^...]] when [negated]. *)
Record CharClass := { negated : bool; atoms : list ClassAtom }.

Definition atomMatches (a : ClassAtom) (c : N) : bool :=
  match a with
  | esc_s => isWhiteSpace c
  | esc_S => negb (isWhiteSpace c)
  end.

Definition classMatches (cc : CharClass) (c : N) : bool :=
  xorb (negated cc) (existsb (fun a => atomMatches a c) (atoms cc)).

Inductive regex :=
| Eps
| Chr (c : N)
| Class (cc : CharClass)
| Seq (r1 r2 : regex)
| Alt (r1 r2 : regex)
| Plus (r : regex)              (* greedy [+] *)
| Group (n : nat) (r : regex)   (* the [n]-th capturing group *)
| Bol                           (* [^] *)
| Eol                           (* [$] *)
| WordB.                        (* [\b] *)

(** A run of literal characters. *)
Definition lit (s : jsstring) : regex := foldr (fun c r => Seq (Chr c) r) Eps s.

(** The matcher state: the code unit before the current position, the
    input that is left, the current index and the captures so far. *)
Record mstate := {
  before : option N;
  rest : jsstring;
  pos : nat;
  caps : list (nat * jsstring)
}.

Definition advance (st : mstate) (c : N) (t : jsstring) : mstate :=
  {| before := Some c; rest := t; pos := S (pos st); caps := caps st |}.

Definition setCapture (n : nat) (s : jsstring) (st : mstate) : mstate :=
  {| before := before st; rest := rest st; pos := pos st;
     caps := (n, s) :: caps st |}.

Definition isWordOpt (o : option N) : bool :=
  match o with Some c => isWordChar c | None => false end.

(** Backtracking matcher: all the ways [r] matches at [st], in the order
    in which a backtracking engine tries them.  [fuel] bounds the
    iterations of [Plus]; an iteration has to consume input. *)
Fixpoint run (fuel : nat) : regex -> mstate -> list mstate :=
  fix go (r : regex) (st : mstate) : list mstate :=
    match r with
    | Eps => [st]
    | Chr c =>
        match rest st with
        | c' :: t => if N.eqb c c' then [advance st c' t] else []
        | [] => []
        end
    | Class cc =>
        match rest st with
        | c' :: t => if classMatches cc c' then [advance st c' t] else []
        | [] => []
        end
    | Seq r1 r2 => flat_map (go r2) (go r1 st)
    | Alt r1 r2 => go r1 st ++ go r2 st
    | Plus r1 =>
        flat_map (fun st' =>
                    match fuel with
                    | 0 => []
                    | S fuel' =>
                        if pos st <? pos st' then run fuel' (Plus r1) st' else []
                    end ++ [st'])
                 (go r1 st)
    | Group n r1 =>
        map (fun st' => setCapture n (take (pos st' - pos st) (rest st)) st')
            (go r1 st)
    | Bol => match before st with None => [st] | Some _ => [] end
    | Eol => match rest st with [] => [st] | _ :: _ => [] end
    | WordB =>
        if xorb (isWordOpt (before st)) (isWordOpt (head (rest st)))
        then [st] else []
    end.

(** The result of a successful match: [index], [match[0]], the captures
    and the index just after the match. *)
Record MatchResult := {
  index : nat;
  matched : jsstring;
  groups : list (nat * jsstring);
  endIndex : nat
}.

Fixpoint assoc (n : nat) (l : list (nat * jsstring)) : option jsstring :=
  match l with
  | [] => None
  | (k, v) :: l' => if Nat.eqb k n then Some v else assoc n l'
  end.

(** [m[n]]: the text of the [n]-th capturing group; the expressions of this
    program have their group take part in every match, so that [undefined]
    does not arise and the empty string stands for it. *)
Definition group (m : MatchResult) (n : nat) : jsstring :=
  default [] (assoc n (groups m)).

(** The first way [r] matches with its left end at index [i], where [s]
    is the input from [i] on and [prev] the code unit before it. *)
Definition matchAt (r : regex) (prev : option N) (s : jsstring) (i : nat)
  : option MatchResult :=
  match run (S (length s)) r {| before := prev; rest := s; pos := i; caps := [] |} with
  | st' :: _ =>
      Some {| index := i; matched := take (pos st' - i) s;
              groups := caps st'; endIndex := pos st' |}
  | [] => None
  end.

(** The leftmost match at an index at or after [i]. *)
Fixpoint search (r : regex) (prev : option N) (s : jsstring) (i : nat)
  : option MatchResult :=
  match matchAt r prev s i with
  | Some m => Some m
  | None =>
      match s with
      | [] => None
      | c :: t => search r (Some c) t (S i)
      end
  end.

(** [re.exec(str)] for a global [re] whose [lastIndex] is [lastIndex]:
    the match, if any, and the new [lastIndex].  The search starts at
    [lastIndex]; it fails at once, and [lastIndex] is reset, when [lastIndex]
    is beyond the end of [str]. *)
Definition exec (r : regex) (str : jsstring) (lastIndex : nat)
  : option MatchResult * nat :=
  if length str <? lastIndex then (None, 0)
  else
    match search r (last (take lastIndex str)) (drop lastIndex str) lastIndex with
    | Some m => (Some m, endIndex m)
    | None => (None, 0)
    end.

(** The loop of [String.prototype.match] and [String.prototype.replace]
    for a global regular expression: every match from [lastIndex] on; after
    an empty match [lastIndex] moves on by one. *)
Fixpoint matchLoop (fuel : nat) (r : regex) (str : jsstring) (lastIndex : nat)
  : list MatchResult :=
  match fuel with
  | 0 => []
  | S fuel' =>
      match exec r str lastIndex with
      | (Some m, li) =>
          m :: matchLoop fuel' r str (match matched m with [] => S li | _ => li end)
      | (None, _) => []
      end
  end.

Definition matchAll (r : regex) (str : jsstring) : list MatchResult :=
  matchLoop (2 + length str) r str 0.

(** [str.match(re) || []] for a global [re]: the matched substrings. *)
Definition matchG (r : regex) (str : jsstring) : list jsstring :=
  map matched (matchAll r str).

(** [str.replace(re, rep)] for a global [re] and a replacement string
    without [$] patterns. *)
Fixpoint splice (ms : list MatchResult) (str : jsstring) (cur : nat)
         (rep : jsstring) : jsstring :=
  match ms with
  | [] => drop cur str
  | m :: ms' =>
      take (index m - cur) (drop cur str) ++ rep ++ splice ms' str (endIndex m) rep
  end.

Definition replaceG (r : regex) (rep str : jsstring) : jsstring :=
  splice (matchAll r str) str 0 rep.

End RegExp.

Import RegExp.

(** ** Completions, the world and the monad of the checker

    An [async] method either returns, throws or does not return.  The world
    holds what the methods mutate or emit: the [Set] object [visited] that
    [countDNSLookups] passes by reference along its recursive calls, and the
    outbound DNS-over-HTTPS requests in the order they were sent.  A thrown
    error does not undo a mutation. *)

Inductive JsError := Error (message : jsstring).

Definition message (e : JsError) : jsstring := match e with Error m => m end.

Inductive Completion (A : Type) :=
| Normal (a : A)
| Throw (e : JsError)
| Diverge.
Arguments Normal {A} a.
Arguments Throw {A} e.
Arguments Diverge {A}.

Record World := {
  visited : gset jsstring;
  requests : list jsstring
}.

Definition M (A : Type) : Type := World -> Completion A * World.

Definition ret {A} (a : A) : M A := fun w => (Normal a, w).

Definition throw {A} (e : JsError) : M A := fun w => (Throw e, w).

Definition diverge {A} : M A := fun w => (Diverge, w).

Definition bind {A B} (m : M A) (k : A -> M B) : M B :=
  fun w =>
    match m w with
    | (Normal a, w') => k a w'
    | (Throw e, w') => (Throw e, w')
    | (Diverge, w') => (Diverge, w')
    end.

(** [try { m } catch (err) { h err }] *)
Definition tryCatch {A} (m : M A) (h : JsError -> M A) : M A :=
  fun w =>
    match m w with
    | (Throw e, w') => h e w'
    | r => r
    end.

Declare Scope js_scope.
Delimit Scope js_scope with js.
Notation "'let*' x ':=' m 'in' k" := (bind m (fun x => k))
  (at level 10, x name, m at level 100, k at level 200) : js_scope.
Notation "m ';;' k" := (bind m (fun _ => k))
  (at level 100, k at level 200, right associativity) : js_scope.
Local Open Scope js_scope.

(** [for (const x of l) { acc = body x acc }] *)
Fixpoint forOf {A S} (l : list A) (acc : S) (body : A -> S -> M S) : M S :=
  match l with
  | [] => ret acc
  | x :: l' => let* acc' := body x acc in forOf l' acc' body
  end.

(** [visited.has(domain)] and [visited.add(domain)] *)
Definition visited_has (domain : jsstring) : M bool :=
  fun w => (Normal (bool_decide (domain ∈ visited w)), w).

Definition visited_add (domain : jsstring) : M unit :=
  fun w => (Normal tt, {| visited := {[domain]} ∪ visited w; requests := requests w |}).

(** ** The DNS-over-HTTPS answer, in the shape the resolver documents:
    [{ Status: integer, Answer?: [{ type: integer, data: string }, ...] }] *)

Record DnsRecord := { type : Z; data : jsstring }.

Record DnsJson := { Status : Z; Answer : option (list DnsRecord) }.

Record Response := { ok : bool; statusText : jsstring; json : DnsJson }.

(** What [await fetch(url)] and [await response.json()] give for the
    request of a domain: a response with its parsed body, or a rejection with
    an error, when the request could not be made or answered. *)
Inductive FetchOutcome :=
| Resolved (response : Response)
| Rejected (e : JsError).

(** [{ type, domain }], an element of the result of [extractIncludes]; its
    [type] is [edgeType] here, next to the [type] of a DNS answer. *)
Record IncludeEdge := { edgeType : jsstring; domain : jsstring }.

(** ** The patterns of the checker *)

Module Pattern.

(** [/include:([^\s]+)/g], of [countDNSLookups] *)
Definition includeMatch : regex :=
  Seq (lit (js "include:"))
      (Group 1 (Plus (Class {| negated := true; atoms := [esc_s] |}))).

(** [/redirect=/g] *)
Definition redirect : regex := lit (js "redirect=").

(** [/\ba\b/g], [/\bmx\b/g], [/\bptr\b/g] *)
Definition word (w : jsstring) : regex := Seq WordB (Seq (lit w) WordB).

(** [/exists:/g] *)
Definition exists_ : regex := lit (js "exists:").

(** [/^"|"$/g], of [fetchSPFRecords] *)
Definition quotes : regex := Alt (Seq Bol (Chr 34)) (Seq (Chr 34) Eol).

(** [/include:([\S]+)/g] and [/redirect=([\S]+)/g], of [extractIncludes] *)
Definition includeRegex : regex :=
  Seq (lit (js "include:"))
      (Group 1 (Plus (Class {| negated := false; atoms := [esc_S] |}))).

Definition redirectRegex : regex :=
  Seq (lit (js "redirect="))
      (Group 1 (Plus (Class {| negated := false; atoms := [esc_S] |}))).

End Pattern.

(** ** The methods of [SPFChecker] *)

Section SPFChecker.

(** The resolver service: what the request for the TXT records of a
    domain is answered with. *)
Variable fetch : jsstring -> FetchOutcome.

(** [await fetch(`https://dns.google/resolve?name=...&type=TXT`, ...)]:
    one outbound request, recorded under the domain it asks for. *)
Definition awaitFetch (domain : jsstring) : M Response :=
  fun w =>
    let w' := {| visited := visited w; requests := requests w ++ [domain] |} in
    match fetch domain with
    | Resolved response => (Normal response, w')
    | Rejected e => (Throw e, w')
    end.

Definition fetchSPFRecords (domain : jsstring) : M (list jsstring) :=
  let* response := awaitFetch domain in
  if negb (ok response)
  then throw (Error (js "DNS lookup failed: " ++ statusText response))
  else
    let data_ := json response in      (* [const data = await response.json()] *)
    if negb (Status data_ =? 0)%Z
    then throw (Error (js "DNS query failed - domain may not exist"))
    else
      match Answer data_ with
      | None => ret []
      | Some answer =>
          ret (List.filter (fun record => Str.startsWith (js "v=spf1") record)
                 (map (fun record => replaceG Pattern.quotes [] (data record))
                    (List.filter (fun record => (type record =? 16)%Z) answer)))
      end.

Definition fetchIncludedDomain (domain : jsstring) : M jsstring :=
  tryCatch
    (let* records := fetchSPFRecords domain in
     match records with
     | record0 :: _ => ret record0
     | [] => ret (js "No SPF record found")
     end)
    (fun error => ret (js "Error: " ++ message error)).

(** The body of the [for (const domain of includeDomains)] loop of
    [countDNSLookups]; [recur] is the recursive call
    [this.countDNSLookups(_, visited, depth + 1)]. *)
Definition visitInclude (recur : jsstring -> M nat) (domain : jsstring)
           (count : nat) : M nat :=
  let* seen := visited_has domain in
  if seen then ret count
  else
    visited_add domain ;;
    tryCatch
      (let* records := fetchSPFRecords domain in
       match records with
       | record0 :: _ =>
           let* nestedCount := recur record0 in
           ret (count + nestedCount)
       | [] => ret count
       end)
      (fun err => ret count).

Definition includeMatches (spfRecord : jsstring) : list jsstring :=
  matchG Pattern.includeMatch spfRecord.

Definition includeDomains (spfRecord : jsstring) : list jsstring :=
  map (fun m => Str.replace (js "include:") [] m) (includeMatches spfRecord).

(** [countDNSLookups(spfRecord, visited, depth)]; [visited] is the set of
    the world.  [fuel] bounds the nesting of the recursive calls. *)
Fixpoint countDNSLookups (fuel : nat) (spfRecord : jsstring) (depth : nat)
  : M nat :=
  match fuel with
  | 0 => diverge
  | S fuel' =>
      if 10 <? depth then ret 0
      else
        let count := 0 in
        let count := count + length (includeMatches spfRecord) in
        let count := count + length (matchG Pattern.redirect spfRecord) in
        let count := count + length (matchG (Pattern.word (js "a")) spfRecord) in
        let count := count + length (matchG (Pattern.word (js "mx")) spfRecord) in
        let count := count + length (matchG (Pattern.word (js "ptr")) spfRecord) in
        let count := count + length (matchG Pattern.exists_ spfRecord) in
        let* count :=
          forOf (includeDomains spfRecord) count
                (visitInclude (fun record0 => countDNSLookups fuel' record0 (depth + 1))) in
        ret count
  end.

(** [while ((match = re.exec(spfRecord)) !== null)
       includes.push({ type: ty, domain: match[1] })] *)
Fixpoint execWhile (fuel : nat) (re : regex) (spfRecord : jsstring)
         (lastIndex : nat) (ty : jsstring) (includes : list IncludeEdge)
  : option (list IncludeEdge) :=
  match fuel with
  | 0 => None
  | S fuel' =>
      match exec re spfRecord lastIndex with
      | (Some m, lastIndex') =>
          execWhile fuel' re spfRecord lastIndex' ty
                    (includes ++ [{| edgeType := ty; domain := group m 1 |}])
      | (None, _) => Some includes
      end
  end.

Definition extractIncludes (fuel : nat) (spfRecord : jsstring)
  : option (list IncludeEdge) :=
  match execWhile fuel Pattern.includeRegex spfRecord 0 (js "include") [] with
  | Some includes =>
      execWhile fuel Pattern.redirectRegex spfRecord 0 (js "redirect") includes
  | None => None
  end.

End SPFChecker.

(** ** Reading a token pattern

    The patterns [/include:([^\s]+)/g], [/include:([\S]+)/g] and
    [/redirect=([\S]+)/g] all are a literal prefix followed by the group of a
    greedy run over a character class.  [tokenAt] says what such a pattern
    matches at an index: the prefix and after it the longest run of the class,
    which has to be non-empty. *)

Definition nonSpace (c : N) : bool := negb (isWhiteSpace c).

Definition tokenRe (p : jsstring) (cc : CharClass) : regex :=
  Seq (lit p) (Group 1 (Plus (Class cc))).

Fixpoint takeWhile (f : N -> bool) (s : jsstring) : jsstring :=
  match s with
  | [] => []
  | c :: s' => if f c then c :: takeWhile f s' else []
  end.

Definition tokenAt (p : jsstring) (f : N -> bool) (s : jsstring) (i : nat)
  : option MatchResult :=
  if Str.startsWith p s
  then match takeWhile f (drop (length p) s) with
       | [] => None
       | u => Some {| index := i; matched := p ++ u; groups := [(1, u)];
                      endIndex := i + length p + length u |}
       end
  else None.

(** A text without the double quote it starts with and without the double
    quote it then ends with. *)
Definition stripQuotes (s : jsstring) : jsstring :=
  let s1 := match s with
            | c :: t => if (34 =? c)%N then t else s
            | [] => []
            end in
  match last s1 with
  | Some c => if (34 =? c)%N then removelast s1 else s1
  | None => s1
  end.

(** What [/^"|"$/] matches at an index: a double quote that is the first or
    the last code unit of the text. *)
Definition quoteAt (prev : option N) (s : jsstring) (i : nat)
  : option MatchResult :=
  match s with
  | c :: t =>
      if (34 =? c)%N
         && match prev, t with
            | None, _ => true
            | Some _, [] => true
            | Some _, _ :: _ => false
            end
      then Some {| index := i; matched := [34%N]; groups := []; endIndex := S i |}
      else None
  | [] => None
  end.

(** At index [k] the text reads the prefix [p] and then a code unit that is
    not white space: a token of prefix [p] starts there. *)
Definition occursAt (p : jsstring) (str : jsstring) (k : nat) : Prop :=
  exists c tl, drop k str = p ++ c :: tl /\ isWhiteSpace c = false.

(** The matcher state after the code units [u] were consumed. *)
Fixpoint advanceOver (u : jsstring) (st : mstate) : mstate :=
  match u with
  | [] => st
  | c :: u' => advanceOver u' (advance st c (tail (rest st)))
  end.

(** Consecutive matches do not overlap and come in the order of the text. *)
Definition inOrder (ms : list MatchResult) : Prop :=
  StronglySorted (fun m1 m2 => endIndex m1 <= index m2) ms.

(** [m] is a token match of [str]: at [index m] the text reads the prefix
    [p], then the captured run, which is not empty, has no white space, and
    ends at white space or at the end of [str]. *)
Definition tokenIn (p : jsstring) (str : jsstring) (m : MatchResult) : Prop :=
  matched m = p ++ group m 1
  /\ group m 1 <> []
  /\ Forall (fun c => isWhiteSpace c = false) (group m 1)
  /\ endIndex m = index m + length (matched m)
  /\ drop (index m) str = matched m ++ drop (endIndex m) str
  /\ (forall c, head (drop (endIndex m) str) = Some c -> isWhiteSpace c = true).

(** [{ type: 'include', domain }] and [{ type: 'redirect', domain }] for a
    match. *)
Definition includeEdge (m : MatchResult) : IncludeEdge :=
  {| edgeType := js "include"; domain := group m 1 |}.

Definition redirectEdge (m : MatchResult) : IncludeEdge :=
  {| edgeType := js "redirect"; domain := group m 1 |}.

Definition isIncludeEdge (e : IncludeEdge) : bool :=
  bool_decide (edgeType e = js "include").

(** The first SPF record that a resolution gives, if any. *)
Definition firstRecord (c : Completion (list jsstring)) : option jsstring :=
  match c with
  | Normal (record0 :: _) => Some record0
  | _ => None
  end.

(** ** Reading the world *)

(** The world in which a top-level [countDNSLookups(spfRecord)] starts:
    [visited = new Set()], nothing requested yet. *)
Definition freshWorld : World := {| visited := ∅; requests := [] |}.

(** The world after [visited.add(domain)] and the request for [domain]. *)
Definition mark (domain : jsstring) (w : World) : World :=
  {| visited := {[domain]} ∪ visited w; requests := requests w ++ [domain] |}.

(** The world after the domains [ds] were visited one after the other. *)
Definition markAll (ds : list jsstring) (w : World) : World :=
  foldl (fun w' d => mark d w') w ds.

(** What [fetchSPFRecords(domain)] completes with. *)
Definition resolve (fetch : jsstring -> FetchOutcome) (domain : jsstring)
  : Completion (list jsstring) :=
  fst (fetchSPFRecords fetch domain freshWorld).

(** The quote-stripped texts of the TXT-type answers of a response, in the
    order of the response. *)
Definition txtTexts (response : Response) : list jsstring :=
  map (fun record => replaceG Pattern.quotes [] (data record))
      (List.filter (fun record => (type record =? 16)%Z)
                   (default [] (Answer (json response)))).

(** The cost that [countDNSLookups] counts for the record itself, before its
    loop over the include domains. *)
Definition directCost (spfRecord : jsstring) : nat :=
  0 + length (includeMatches spfRecord)
  + length (matchG Pattern.redirect spfRecord)
  + length (matchG (Pattern.word (js "a")) spfRecord)
  + length (matchG (Pattern.word (js "mx")) spfRecord)
  + length (matchG (Pattern.word (js "ptr")) spfRecord)
  + length (matchG Pattern.exists_ spfRecord).

(** *** Bare mechanism words

    A term of a record starts at index 0 or after white space, and may start
    with a qualifier.  A whole-word match of [a], [mx] or [ptr] is the bare
    mechanism when it begins such a term. *)

Definition isQualifier (c : N) : bool :=
  ((c =? 43) || (c =? 45) || (c =? 126) || (c =? 63))%N.   (* + - ~ ? *)

Definition atTermStart (r : jsstring) (i : nat) : bool :=
  match i with
  | 0 => true
  | S j =>
      match r !! j with
      | Some c =>
          isWhiteSpace c
          || (isQualifier c
              && match j with
                 | 0 => true
                 | S k => match r !! k with
                          | Some c' => isWhiteSpace c'
                          | None => false
                          end
                 end)
      | None => false
      end
  end.

(** The bare [w] mechanisms of a record. *)
Definition bareMatches (w r : jsstring) : list MatchResult :=
  List.filter (fun m => atTermStart r (index m)) (matchAll (Pattern.word w) r).

(** The words [a], [mx] and [ptr] occur in the record as bare mechanisms
    only, not inside the argument of another term. *)
Definition wordsAreBare (r : jsstring) : bool :=
  forallb (fun w => forallb (fun m => atTermStart r (index m))
                            (matchAll (Pattern.word w) r))
          [js "a"; js "mx"; js "ptr"].

(** The lookups of the terms of a record: its [include:] and [redirect=]
    tokens, its bare [a], [mx] and [ptr] mechanisms and its [exists:]
    tokens. *)
Definition termCost (r : jsstring) : nat :=
  length (includeMatches r)
  + length (matchG Pattern.redirect r)
  + length (bareMatches (js "a") r)
  + length (bareMatches (js "mx") r)
  + length (bareMatches (js "ptr") r)
  + length (matchG Pattern.exists_ r).

(** The include domains that the loop resolves when nothing nested is
    visited in between: those not in [v], each at its first occurrence. *)
Fixpoint firstVisits (v : gset jsstring) (ds : list jsstring) : list jsstring :=
  match ds with
  | [] => []
  | d :: ds' =>
      if bool_decide (d ∈ v) then firstVisits v ds'
      else d :: firstVisits ({[d]} ∪ v) ds'
  end.

(** The direct cost of the first SPF record of a domain, 0 when the domain
    has none or does not resolve. *)
Definition nestedDirect (fetch : jsstring -> FetchOutcome) (d : jsstring) : nat :=
  match resolve fetch d with
  | Normal (record0 :: _) => directCost record0
  | _ => 0
  end.

(** The lookups of the terms of the first SPF record of a domain, 0 when the
    domain has none or does not resolve. *)
Definition nestedTermCost (fetch : jsstring -> FetchOutcome) (d : jsstring) : nat :=
  match resolve fetch d with
  | Normal (record0 :: _) => termCost record0
  | _ => 0
  end.

(** [d] is named by an [include:] token of [root], or of the first SPF
    record of a domain that is itself reached from [root] in this way. *)
Inductive includeReach (fetch : jsstring -> FetchOutcome) (root : jsstring)
  : jsstring -> Prop :=
| reach_root d :
    d ∈ includeDomains root -> includeReach fetch root d
| reach_step d record0 records d' :
    includeReach fetch root d ->
    resolve fetch d = Normal (record0 :: records) ->
    d' ∈ includeDomains record0 ->
    includeReach fetch root d'.

(** [w'] is [w] after the domains [new] were added to [visited] and
    requested, in this order, each of them once. *)
Definition extends (w : World) (new : list jsstring) (w' : World) : Prop :=
  requests w' = requests w ++ new
  /\ visited w' = visited w ∪ list_to_set new
  /\ NoDup new
  /\ (forall d, d ∈ new -> d ∉ visited w).

(** [chain] lists, from [record] on, the domain that each record includes as
    its only include and the first SPF record that domain resolves to. *)
Fixpoint isChain (fetch : jsstring -> FetchOutcome) (record : jsstring)
         (chain : list (jsstring * jsstring)) : Prop :=
  match chain with
  | [] => True
  | (d, record') :: chain' =>
      includeDomains record = [d]
      /\ (exists records, resolve fetch d = Normal (record' :: records))
      /\ isChain fetch record' chain'
  end.

(** ** Resolver services used as concrete inputs *)

Module Examples.

Definition quoted (s : jsstring) : jsstring := [34%N] ++ s ++ [34%N].

(** A NOERROR answer carrying [texts] as TXT records. *)
Definition txt (texts : list jsstring) : FetchOutcome :=
  Resolved {| ok := true; statusText := js "OK";
              json := {| Status := 0;
                         Answer := Some (map (fun t => {| type := 16; data := quoted t |})
                                             texts) |} |}.

(** NXDOMAIN. *)
Definition nxdomain : FetchOutcome :=
  Resolved {| ok := true; statusText := js "OK";
              json := {| Status := 3; Answer := None |} |}.

(** The service that knows the domains of [table]. *)
Fixpoint zone (table : list (jsstring * list jsstring)) (domain : jsstring)
  : FetchOutcome :=
  match table with
  | [] => nxdomain
  | (d, texts) :: table' =>
      if bool_decide (d = domain) then txt texts else zone table' domain
  end.

(** [x.org] publishes a record with one [mx] and no include. *)
Definition leafMx : jsstring -> FetchOutcome :=
  zone [(js "x.org", [js "v=spf1 mx -all"])].

(** [one.org] and [two.org] include each other. *)
Definition recOne : jsstring := js "v=spf1 include:two.org -all".
Definition recTwo : jsstring := js "v=spf1 include:one.org -all".
Definition cycle : jsstring -> FetchOutcome :=
  zone [(js "one.org", [recOne]); (js "two.org", [recTwo])].

(** A chain of fifteen records, each including the next domain. *)
Definition chainName (k : nat) : jsstring :=
  js "h" ++ replicate k 120%N ++ js ".org".
Definition chainRecord (k : nat) : jsstring :=
  js "v=spf1 include:" ++ chainName (S k) ++ js " -all".
Definition chainLinks : list (jsstring * jsstring) :=
  map (fun k => (chainName k, chainRecord k)) (seq 1 14).
Definition chainZone : jsstring -> FetchOutcome :=
  zone (map (fun k => (chainName k, [chainRecord k])) (seq 1 14)).

(** [_spf.google.com] publishes addresses only. *)
Definition addressesOnly : jsstring -> FetchOutcome :=
  zone [(js "_spf.google.com", [js "v=spf1 ip4:2.2.2.2 -all"])].

(** No domain can be reached. *)
Definition offline (domain : jsstring) : FetchOutcome :=
  Rejected (Error (js "Failed to fetch")).

End Examples.

(** ** More of the runtime and of the checker: domain validation

    Bracket expressions of literal characters and ranges, [?] and counted
    repetition, written with the constructors of [regex]: a bracket
    expression is the alternation of its characters, [r?] is [r|] and the
    greedy [r{0,n}] and [r{m,}] unfold into nested options and a greedy
    [r+]. *)

Module Quantifier.

(** The code units from [lo] to [hi], as in [[lo-hi]]. *)
Definition range (lo hi : N) : list N :=
  map (fun k => (lo + N.of_nat k)%N) (seq 0 (N.to_nat (hi + 1 - lo))).

(** A pattern that matches nothing: the empty bracket expression [[]]. *)
Definition none : regex := Class {| negated := false; atoms := [] |}.

(** [[c1c2...]] *)
Definition oneOf (cs : list N) : regex := foldr (fun c r => Alt (Chr c) r) none cs.

(** [r?] *)
Definition opt (r : regex) : regex := Alt r Eps.

(** [r*] *)
Definition star (r : regex) : regex := Alt (Plus r) Eps.

(** [r{0,n}], for an [r] that consumes input *)
Fixpoint upTo (n : nat) (r : regex) : regex :=
  match n with
  | 0 => Eps
  | S k => Alt (Seq r (upTo k r)) Eps
  end.

(** [r{m,}] *)
Fixpoint atLeast (m : nat) (r : regex) : regex :=
  match m with
  | 0 => star r
  | S k => Seq r (atLeast k r)
  end.

(** [re.test(str)] for a [re] without the [g] flag: the search starts at
    index 0. *)
Definition test (r : regex) (str : jsstring) : bool :=
  match search r None str 0 with
  | Some _ => true
  | None => false
  end.

(** [str.replace(re, f)] for a global [re] and a replacer function [f],
    which gets the match and its groups. *)
Fixpoint spliceWith (ms : list MatchResult) (str : jsstring) (cur : nat)
         (f : MatchResult -> jsstring) : jsstring :=
  match ms with
  | [] => drop cur str
  | m :: ms' =>
      take (index m - cur) (drop cur str) ++ f m ++ spliceWith ms' str (endIndex m) f
  end.

Definition replaceWith (r : regex) (f : MatchResult -> jsstring)
           (str : jsstring) : jsstring :=
  spliceWith (matchAll r str) str 0 f.

(** [table[key]] for an object literal [table] with text values and a [key]
    that is one of its own keys: [None] is [undefined]. *)
Fixpoint ownProperty (table : list (jsstring * jsstring)) (key : jsstring)
  : option jsstring :=
  match table with
  | [] => None
  | (k, v) :: table' =>
      if bool_decide (k = key) then Some v else ownProperty table' key
  end.

End Quantifier.

Import Quantifier.

Module DomainPattern.

Definition alnum : list N := range 97 122 ++ range 65 90 ++ range 48 57.
Definition alpha : list N := range 97 122 ++ range 65 90.

(** [([a-zA-Z0-9]([a-zA-Z0-9\-]{0,61}[a-zA-Z0-9])?\.)] *)
Definition label : regex :=
  Group 1
    (Seq (oneOf alnum)
         (Seq (opt (Group 2 (Seq (upTo 61 (oneOf (alnum ++ [45%N])))
                                 (oneOf alnum))))
              (Chr 46))).

(** [/^([a-zA-Z0-9]([a-zA-Z0-9\-]{0,61}[a-zA-Z0-9])?\.)+[a-zA-Z]{2,}$/] *)
Definition domainRegex : regex :=
  Seq Bol (Seq (Plus label) (Seq (atLeast 2 (oneOf alpha)) Eol)).

End DomainPattern.

(** [validateDomain(domain)] of [src/app.js]: the empty string is refused
    before the pattern is tried. *)
Definition validateDomain (domain : jsstring) : bool :=
  match domain with
  | [] => false
  | _ :: _ => test DomainPattern.domainRegex domain
  end.

(** The other copy of the checker has no such guard. *)
Module Sibling.

Definition validateDomain (domain : jsstring) : bool :=
  test DomainPattern.domainRegex domain.

End Sibling.

(** [escapeHtml(text)]: a global replace of the bracket expression of the
    ampersand, the two angle brackets and the two quotes (code units 38,
    60, 62, 34 and 39) by [m => map[m]].  A key that [map] does not have
    would give [undefined], which [replace] writes as the text
    [undefined]. *)
Definition escapeHtmlMap : list (jsstring * jsstring) :=
  [ (js "&", js "&amp;");
    (js "<", js "&lt;");
    (js ">", js "&gt;");
    ([34%N], js "&quot;");
    (js "'", js "&#039;") ].

Definition escapeHtml (text : jsstring) : jsstring :=
  replaceWith (oneOf [38; 60; 62; 34; 39]%N)
              (fun m => default (js "undefined") (ownProperty escapeHtmlMap (matched m)))
              text.

(** Whether a bracket expression of the code units [cs] takes [c]. *)
Definition inb (c : N) (cs : list N) : bool := existsb (fun x => N.eqb x c) cs.

Definition isHtmlSpecial (c : N) : bool := inb c [38; 60; 62; 34; 39]%N.

(** What [escapeHtml] writes for one code unit. *)
Definition escapeChar (c : N) : jsstring :=
  if (c =? 38)%N then js "&amp;"
  else if (c =? 60)%N then js "&lt;"
  else if (c =? 62)%N then js "&gt;"
  else if (c =? 34)%N then js "&quot;"
  else if (c =? 39)%N then js "&#039;"
  else [c].

(** ** The page and [checkSPF] *)

(** What [resultsDiv] shows: the template literal last assigned to its
    [innerHTML], kept as the method that wrote it and the values of its
    holes. *)
Inductive Shown :=
| Html (html : jsstring)
| LoadingBox
| ErrorBox (message : jsstring) (details : option jsstring).

(** The part of the document that [checkSPF] reads and writes, next to the
    world of the requests: the value of [domainInput], whether
    [checkButton] is disabled, and the content of [resultsDiv]. *)
Record Page := {
  world : World;
  inputValue : jsstring;
  buttonDisabled : bool;
  shown : Shown
}.

Definition setWorld (w : World) (p : Page) : Page :=
  {| world := w; inputValue := inputValue p;
     buttonDisabled := buttonDisabled p; shown := shown p |}.

Definition setInputValue (v : jsstring) (p : Page) : Page :=
  {| world := world p; inputValue := v;
     buttonDisabled := buttonDisabled p; shown := shown p |}.

Definition setDisabled (b : bool) (p : Page) : Page :=
  {| world := world p; inputValue := inputValue p;
     buttonDisabled := b; shown := shown p |}.

Definition setShown (x : Shown) (p : Page) : Page :=
  {| world := world p; inputValue := inputValue p;
     buttonDisabled := buttonDisabled p; shown := x |}.

Definition showLoading (p : Page) : Page := setShown LoadingBox p.

(** [showError(message, details = null)]; the details are written when
    they are truthy, that is when they are a text that is not empty. *)
Definition showError (message : jsstring) (details : option jsstring)
           (p : Page) : Page :=
  setShown (ErrorBox message
              (match details with Some (_ :: _) => details | _ => None end)) p.

(** [String.prototype.trim]: the white space and the line terminators at
    both ends go. *)
Fixpoint trimStart (s : jsstring) : jsstring :=
  match s with
  | c :: t => if isWhiteSpace c then trimStart t else s
  | [] => []
  end.

Definition trim (s : jsstring) : jsstring :=
  reverse (trimStart (reverse (trimStart s))).

Section CheckSPF.

Variable fetch : jsstring -> FetchOutcome.

(** [String.prototype.toLowerCase], whose table of the Unicode case
    mappings is left open. *)
Variable toLowerCase : jsstring -> jsstring.

(** [displayResults(domain, spfRecords)], left open: anything that works
    on the page. *)
Variable displayResults : jsstring -> list jsstring -> Page -> Completion unit * Page.

(** One run of [checkSPF], with no other handler of the page running
    while it awaits. *)
Definition checkSPF (p : Page) : Completion unit * Page :=
  let domain := toLowerCase (trim (inputValue p)) in
  let p := setInputValue domain p in
  match domain with
  | [] => (Normal tt, showError (js "Please enter a domain name") None p)
  | _ :: _ =>
      if negb (validateDomain domain)
      then (Normal tt,
            showError (js "Please enter a valid domain name")
                      (Some (js "Domain must be in the format: example.com")) p)
      else
        let p := showLoading p in
        let p := setDisabled true p in
        (* try *)
        let tried :=
          match fetchSPFRecords fetch domain (world p) with
          | (Normal spfRecords, w) =>
              match spfRecords with
              | [] =>
                  (Normal tt,
                   showError (js "No SPF record found for " ++ domain)
                     (Some (js "This domain does not have an SPF record configured."))
                     (setWorld w p))
              | _ :: _ => displayResults domain spfRecords (setWorld w p)
              end
          | (Throw e, w) => (Throw e, setWorld w p)
          | (Diverge, w) => (Diverge, setWorld w p)
          end in
        (* catch (error) *)
        let caught :=
          match tried with
          | (Throw error, p') =>
              (Normal tt,
               showError (js "Error checking SPF: " ++ message error)
                 (Some (js "Please verify the domain name is correct and try again."))
                 p')
          | other => other
          end in
        (* finally *)
        match caught with
        | (Diverge, p') => (Diverge, p')
        | (c, p') => (c, setDisabled false p')
        end
  end.

End CheckSPF.

(** The input that [checkSPF] works on. *)
Definition normalised (toLowerCase : jsstring -> jsstring) (p : Page) : jsstring :=
  toLowerCase (trim (inputValue p)).

(** The [blur] handler of [domainInput]:
    [this.domainInput.value = this.domainInput.value.trim()]. *)
Definition onBlur (p : Page) : Page := setInputValue (trim (inputValue p)) p.

(** The [click] handler of an example button, before it calls [checkSPF]:
    [this.domainInput.value = e.target.getAttribute('data-domain')]. *)
Definition onExample (dataDomain : jsstring) (p : Page) : Page :=
  setInputValue dataDomain p.

(** Whether the first code unit of a text, if it has one, is no white
    space. *)
Definition startsTight (s : jsstring) : Prop :=
  forall c, head s = Some c -> isWhiteSpace c = false.

Module PageExamples.

(** [toLowerCase] on the ASCII letters. *)
Definition asciiLower (s : jsstring) : jsstring :=
  map (fun c => if (65 <=? c)%N && (c <=? 90)%N then (c + 32)%N else c) s.

(** The page when [input] was typed and nothing was checked yet. *)
Definition typed (input : jsstring) : Page :=
  {| world := freshWorld; inputValue := input; buttonDisabled := false;
     shown := Html [] |}.

(** A [displayResults] that writes the first record. *)
Definition plain (domain : jsstring) (spfRecords : list jsstring) (p : Page)
  : Completion unit * Page :=
  (Normal tt, setShown (Html (default [] (head spfRecords))) p).

(** A [displayResults] that throws. *)
Definition failing (domain : jsstring) (spfRecords : list jsstring) (p : Page)
  : Completion unit * Page :=
  (Throw (Error (js "boom")), setShown (Html (js "partial")) p).

End PageExamples.

(** ** Highlighting *)

Module HighlightPattern.

(** [/ip([46]):([\S]+)/g] *)
Definition ip : regex :=
  Seq (lit (js "ip"))
      (Seq (Group 1 (oneOf [52; 54]%N))
           (Seq (Chr 58)
                (Group 2 (Plus (Class {| negated := false; atoms := [esc_S] |}))))).

(** [/([~\-?+]?all)/g] *)
Definition all : regex :=
  Group 1 (Seq (opt (oneOf [126; 45; 63; 43]%N)) (lit (js "all"))).

(** [/\b(a|mx|ptr|exists)(:|\s|$)/g] *)
Definition mechanism : regex :=
  Seq WordB
      (Seq (Group 1 (Alt (lit (js "a"))
                      (Alt (lit (js "mx"))
                        (Alt (lit (js "ptr")) (lit (js "exists"))))))
           (Group 2 (Alt (Chr 58)
                      (Alt (Class {| negated := false; atoms := [esc_s] |}) Eol)))).

End HighlightPattern.

Definition explanations : list (jsstring * jsstring) :=
  [ (js "include:", js "Authorizes another domain's SPF record");
    (js "redirect=", js "Replaces this SPF record with another domain's");
    (js "ip4:", js "Authorizes an IPv4 address or range");
    (js "ip6:", js "Authorizes an IPv6 address or range");
    (js "a", js "Authorizes IP addresses from domain's A/AAAA records");
    (js "mx", js "Authorizes IP addresses from domain's MX records");
    (js "ptr", js "Authorizes if reverse DNS lookup matches (deprecated)");
    (js "exists", js "Performs a DNS A record lookup");
    (js "-all", js "Hard fail - rejects all other sources");
    (js "~all", js "Soft fail - marks as suspicious but accepts");
    (js "?all", js "Neutral - no policy statement");
    (js "+all", js "Pass - allows all (strongly discouraged!)") ].

(** [explanations[mechanism] || 'SPF mechanism'], for a [mechanism] that
    is no name of a member of [Object.prototype]. *)
Definition getMechanismExplanation (mechanism : jsstring) : jsstring :=
  match ownProperty explanations mechanism with
  | Some (c :: v) => c :: v
  | _ => js "SPF mechanism"
  end.

Definition quote : jsstring := [34%N].

(** The template literals of [highlightMechanisms] have one shape: a
    [span] of the class [cls] with the attributes [attrs] and a [title],
    around the [body] and a [span] of the class [mechanism-tooltip] with the
    [tip]. *)
Definition mechanismSpan (cls attrs title body tip : jsstring) : jsstring :=
  js "<span class=" ++ quote ++ cls ++ quote ++ attrs
  ++ js " title=" ++ quote ++ title ++ quote ++ js ">"
  ++ body
  ++ js "<span class=" ++ quote ++ js "mechanism-tooltip" ++ quote ++ js ">"
  ++ tip ++ js "</span></span>".

Definition dataDomain (domain : jsstring) : jsstring :=
  js " data-domain=" ++ quote ++ domain ++ quote.

Section Highlight.

(** [this.getMechanismExplanation] *)
Variable explain : jsstring -> jsstring.

(** [(match, domain) => ...] of the [include:] step *)
Definition highlightInclude (m : MatchResult) : jsstring :=
  let domain := group m 1 in
  mechanismSpan (js "mechanism include") (dataDomain domain)
    (explain (js "include:"))
    (js "include:" ++ domain)
    (explain (js "include:")).

(** [(match, domain) => ...] of the [redirect=] step *)
Definition highlightRedirect (m : MatchResult) : jsstring :=
  let domain := group m 1 in
  mechanismSpan (js "mechanism redirect") (dataDomain domain)
    (explain (js "redirect="))
    (js "redirect=" ++ domain)
    (explain (js "redirect=")).

(** [(match, version, addr) => ...] *)
Definition highlightIp (m : MatchResult) : jsstring :=
  let version := group m 1 in
  let addr := group m 2 in
  mechanismSpan (js "mechanism ip") []
    (explain (js "ip" ++ version ++ js ":"))
    (js "ip" ++ version ++ js ":" ++ addr)
    (explain (js "ip" ++ version ++ js ":")).

(** [(match) => ...] *)
Definition highlightAll (m : MatchResult) : jsstring :=
  let match_ := matched m in
  mechanismSpan (js "mechanism all") []
    (explain match_) match_ (explain match_).

(** [(match, mech, suffix) => ...] *)
Definition highlightMechanism (m : MatchResult) : jsstring :=
  let mech := group m 1 in
  let suffix := group m 2 in
  mechanismSpan (js "mechanism ip") []
    (explain mech) (mech ++ suffix) (explain mech).

Definition highlightWith (spfRecord : jsstring) : jsstring :=
  let highlighted := spfRecord in
  let highlighted := replaceWith Pattern.includeRegex highlightInclude highlighted in
  let highlighted := replaceWith Pattern.redirectRegex highlightRedirect highlighted in
  let highlighted := replaceWith HighlightPattern.ip highlightIp highlighted in
  let highlighted := replaceWith HighlightPattern.all highlightAll highlighted in
  let highlighted := replaceWith HighlightPattern.mechanism highlightMechanism highlighted in
  highlighted.

End Highlight.

Definition highlightMechanisms (spfRecord : jsstring) : jsstring :=
  highlightWith getMechanismExplanation spfRecord.

(** The mechanisms whose explanation [highlightMechanisms] can ask for. *)
Definition highlightedMechanisms : list jsstring :=
  [ js "include:"; js "redirect="; js "ip4:"; js "ip6:";
    js "all"; js "~all"; js "-all"; js "?all"; js "+all";
    js "a"; js "mx"; js "ptr"; js "exists" ].

(** *** What a valid domain is *)

Definition isAlpha (c : N) : bool :=
  ((97 <=? c) && (c <=? 122) || (65 <=? c) && (c <=? 90))%N.

Definition isAlnum (c : N) : bool :=
  isAlpha c || ((48 <=? c) && (c <=? 57))%N.

Definition isAlnumHyphen (c : N) : bool := isAlnum c || (c =? 45)%N.

(** A label: 1 to 63 letters, digits and hyphens, with no hyphen at either
    end. *)
Definition validLabel (l : jsstring) : Prop :=
  1 <= length l <= 63
  /\ Forall (fun c => isAlnumHyphen c = true) l
  /\ (forall c, head l = Some c -> isAlnum c = true)
  /\ (forall c, last l = Some c -> isAlnum c = true).

(** One label or more, each followed by a dot, and then two letters or
    more. *)
Definition validDomain (d : jsstring) : Prop :=
  exists labels tld,
    d = concat (map (fun l => l ++ [46%N]) labels) ++ tld
    /\ labels <> []
    /\ Forall validLabel labels
    /\ 2 <= length tld
    /\ Forall (fun c => isAlpha c = true) tld.

(** *** What a pattern matches

    [matches r p u t]: the pattern [r] matches the text [u] when the code
    unit before it is [p] (none at the start of the input) and [t] is the
    input that follows. *)

Definition lastOr (p : option N) (u : jsstring) : option N :=
  match last u with
  | Some c => Some c
  | None => p
  end.

Inductive matches : regex -> option N -> jsstring -> jsstring -> Prop :=
| m_eps p t : matches Eps p [] t
| m_chr c p t : matches (Chr c) p [c] t
| m_class cc c p t :
    classMatches cc c = true -> matches (Class cc) p [c] t
| m_seq r1 r2 p u1 u2 t :
    matches r1 p u1 (u2 ++ t) -> matches r2 (lastOr p u1) u2 t ->
    matches (Seq r1 r2) p (u1 ++ u2) t
| m_alt_l r1 r2 p u t : matches r1 p u t -> matches (Alt r1 r2) p u t
| m_alt_r r1 r2 p u t : matches r2 p u t -> matches (Alt r1 r2) p u t
| m_plus_one r p u t : matches r p u t -> matches (Plus r) p u t
| m_plus_more r p u1 u2 t :
    matches r p u1 (u2 ++ t) -> u1 <> [] ->
    matches (Plus r) (lastOr p u1) u2 t ->
    matches (Plus r) p (u1 ++ u2) t
| m_group n r p u t : matches r p u t -> matches (Group n r) p u t
| m_bol t : matches Bol None [] t
| m_eol p : matches Eol p [] []
| m_wordb p t :
    xorb (isWordOpt p) (isWordOpt (head t)) = true -> matches WordB p [] t.

(** An explanation method that knows the thirteen mechanisms only. *)
Definition thirteenOnly (mechanism : jsstring) : jsstring :=
  if existsb (fun k => bool_decide (k = mechanism)) highlightedMechanisms
  then getMechanismExplanation mechanism
  else js "?".

(** A match with the captures that it makes, the last one first. *)
Inductive matchesC
  : regex -> option N -> jsstring -> jsstring -> list (nat * jsstring) -> Prop :=
| c_eps p t : matchesC Eps p [] t []
| c_chr c p t : matchesC (Chr c) p [c] t []
| c_class cc c p t :
    classMatches cc c = true -> matchesC (Class cc) p [c] t []
| c_seq r1 r2 p u1 u2 t cs1 cs2 :
    matchesC r1 p u1 (u2 ++ t) cs1 -> matchesC r2 (lastOr p u1) u2 t cs2 ->
    matchesC (Seq r1 r2) p (u1 ++ u2) t (cs2 ++ cs1)
| c_alt_l r1 r2 p u t cs : matchesC r1 p u t cs -> matchesC (Alt r1 r2) p u t cs
| c_alt_r r1 r2 p u t cs : matchesC r2 p u t cs -> matchesC (Alt r1 r2) p u t cs
| c_plus_one r p u t cs : matchesC r p u t cs -> matchesC (Plus r) p u t cs
| c_plus_more r p u1 u2 t cs1 cs2 :
    matchesC r p u1 (u2 ++ t) cs1 -> u1 <> [] ->
    matchesC (Plus r) (lastOr p u1) u2 t cs2 ->
    matchesC (Plus r) p (u1 ++ u2) t (cs2 ++ cs1)
| c_group n r p u t cs :
    matchesC r p u t cs -> matchesC (Group n r) p u t ((n, u) :: cs)
| c_bol t : matchesC Bol None [] t []
| c_eol p : matchesC Eol p [] [] []
| c_wordb p t :
    xorb (isWordOpt p) (isWordOpt (head t)) = true -> matchesC WordB p [] t [].

(** A match of [r] somewhere, with its text and its captures. *)
Definition captured (r : regex) (m : MatchResult) : Prop :=
  exists p t, matchesC r p (matched m) t (groups m).

(** ** The matcher on the patterns of the checker *)

Section RegExpFacts.

Lemma run_eq fuel r st :
  run fuel r st
  = match r with
    | Eps => [st]
    | Chr c =>
        match rest st with
        | c' :: t => if N.eqb c c' then [advance st c' t] else []
        | [] => []
        end
    | Class cc =>
        match rest st with
        | c' :: t => if classMatches cc c' then [advance st c' t] else []
        | [] => []
        end
    | Seq r1 r2 => flat_map (run fuel r2) (run fuel r1 st)
    | Alt r1 r2 => run fuel r1 st ++ run fuel r2 st
    | Plus r1 =>
        flat_map (fun st' =>
                    match fuel with
                    | 0 => []
                    | S fuel' =>
                        if pos st <? pos st' then run fuel' (Plus r1) st' else []
                    end ++ [st'])
                 (run fuel r1 st)
    | Group n r1 =>
        map (fun st' => setCapture n (take (pos st' - pos st) (rest st)) st')
            (run fuel r1 st)
    | Bol => match before st with None => [st] | Some _ => [] end
    | Eol => match rest st with [] => [st] | _ :: _ => [] end
    | WordB =>
        if xorb (isWordOpt (before st)) (isWordOpt (head (rest st)))
        then [st] else []
    end.
Proof. destruct fuel, r; reflexivity. Qed.

Local Arguments run : simpl never.

Lemma startsWith_app p tl : Str.startsWith p (p ++ tl) = true.
Proof.
  induction p as [|c p IH]; simpl; [reflexivity|].
  rewrite N.eqb_refl. exact IH.
Qed.

Lemma startsWith_inv p : forall s,
  Str.startsWith p s = true -> s = p ++ drop (length p) s.
Proof.
  induction p as [|c p IH]; intros s H; simpl in *; [reflexivity|].
  destruct s as [|c' s]; [discriminate|].
  apply andb_prop in H as [Hc Hp]. apply N.eqb_eq in Hc. subst c'.
  simpl. f_equal. apply IH, Hp.
Qed.

Lemma advanceOver_rest u : forall st tl,
  rest st = u ++ tl -> rest (advanceOver u st) = tl.
Proof.
  induction u as [|c u IH]; intros st tl H; simpl in *; [exact H|].
  apply IH. simpl. rewrite H. reflexivity.
Qed.

Lemma advanceOver_pos u : forall st, pos (advanceOver u st) = pos st + length u.
Proof.
  induction u as [|c u IH]; intros st; simpl; [lia|].
  rewrite IH. simpl. lia.
Qed.

Lemma advanceOver_caps u : forall st, caps (advanceOver u st) = caps st.
Proof.
  induction u as [|c u IH]; intros st; simpl; [reflexivity|].
  rewrite IH. reflexivity.
Qed.

Lemma run_lit fuel p : forall st,
  run fuel (lit p) st
  = if Str.startsWith p (rest st) then [advanceOver p st] else [].
Proof.
  induction p as [|c p IH]; intros st.
  - rewrite run_eq. reflexivity.
  - change (lit (c :: p)) with (Seq (Chr c) (lit p)).
    rewrite run_eq, (run_eq fuel (Chr c)). simpl.
    destruct (rest st) as [|c' t] eqn:Hrest; [reflexivity|].
    destruct (N.eqb c c') eqn:Hc; [|reflexivity].
    apply N.eqb_eq in Hc. subst c'. simpl.
    rewrite app_nil_r, IH. reflexivity.
Qed.

(** The greedy run over a class: the first way to match takes the longest
    run. *)
Lemma run_plus_class cc fuel : forall st,
  length (rest st) <= fuel ->
  match takeWhile (classMatches cc) (rest st) with
  | [] => run fuel (Plus (Class cc)) st = []
  | u => exists others,
      run fuel (Plus (Class cc)) st = advanceOver u st :: others
  end.
Proof.
  induction fuel as [|fuel IH]; intros st Hlen.
  - destruct (rest st) as [|c t] eqn:Hrest; [|simpl in Hlen; lia].
    simpl. rewrite run_eq, (run_eq 0 (Class cc)), Hrest. reflexivity.
  - rewrite run_eq, (run_eq (S fuel) (Class cc)).
    destruct (rest st) as [|c t] eqn:Hrest; [reflexivity|].
    simpl takeWhile. destruct (classMatches cc c) eqn:Hc; [|reflexivity].
    simpl flat_map. rewrite app_nil_r.
    assert (Hlt : (pos st <? S (pos st)) = true) by (apply Nat.ltb_lt; lia).
    rewrite Hlt.
    specialize (IH (advance st c t)). simpl rest in IH.
    assert (Hlen' : length t <= fuel) by (simpl in Hlen; lia).
    specialize (IH Hlen').
    destruct (takeWhile (classMatches cc) t) as [|c1 u1] eqn:Hu.
    + rewrite IH. simpl. eexists. rewrite Hrest. reflexivity.
    + destruct IH as (others & ->). simpl. eexists. rewrite Hrest. reflexivity.
Qed.

Lemma takeWhile_prefix f s : s = takeWhile f s ++ drop (length (takeWhile f s)) s.
Proof.
  induction s as [|c s IH]; simpl; [reflexivity|].
  destruct (f c); simpl; [f_equal; exact IH|reflexivity].
Qed.

Lemma takeWhile_all f s : Forall (fun c => f c = true) (takeWhile f s).
Proof.
  induction s as [|c s IH]; simpl; [constructor|].
  destruct (f c) eqn:Hc; [constructor; assumption|constructor].
Qed.

Lemma takeWhile_stop f s c :
  head (drop (length (takeWhile f s)) s) = Some c -> f c = false.
Proof.
  induction s as [|c' s IH]; simpl; [discriminate|].
  destruct (f c') eqn:Hc; simpl; [exact IH|].
  intros H. inversion H. subst. exact Hc.
Qed.

(** What a token pattern matches at an index. *)
Lemma matchAt_token p cc prev s i :
  matchAt (tokenRe p cc) prev s i = tokenAt p (classMatches cc) s i.
Proof.
  unfold matchAt, tokenAt, tokenRe.
  rewrite run_eq, run_lit. simpl rest.
  destruct (Str.startsWith p s) eqn:Hp; [|reflexivity].
  cbn [flat_map]. rewrite app_nil_r, run_eq. cbn [rest pos].
  set (st0 := {| before := prev; rest := s; pos := i; caps := [] |}).
  set (st1 := advanceOver p st0).
  pose proof (startsWith_inv p s Hp) as Hs.
  assert (Hrest1 : rest st1 = drop (length p) s)
    by (apply advanceOver_rest; exact Hs).
  assert (Hpos1 : pos st1 = i + length p) by (apply advanceOver_pos).
  pose proof (run_plus_class cc (S (length s)) st1) as Hrun.
  rewrite Hrest1 in Hrun.
  assert (Hlen : length (drop (length p) s) <= S (length s))
    by (rewrite length_drop; lia).
  specialize (Hrun Hlen).
  pose proof (takeWhile_prefix (classMatches cc) (drop (length p) s)) as Hsplit.
  destruct (takeWhile (classMatches cc) (drop (length p) s)) as [|c u] eqn:Hu.
  - rewrite Hrun. reflexivity.
  - remember (c :: u) as v eqn:Hcons.
    destruct Hrun as (others & ->). cbn [map].
    assert (Hpos2 : pos (advanceOver v st1) = i + length p + length v)
      by (rewrite advanceOver_pos, Hpos1; reflexivity).
    unfold setCapture. cbn [pos caps rest]. rewrite Hpos2, Hpos1, Hrest1.
    rewrite advanceOver_caps. unfold st1. rewrite advanceOver_caps. cbn [caps].
    rewrite Hcons at 1. rewrite <- Hcons. f_equal.
    replace (i + length p + length v - (i + length p)) with (length v) by lia.
    replace (i + length p + length v - i) with (length (p ++ v))
      by (rewrite length_app; lia).
    assert (Hv : take (length v) (drop (length p) s) = v).
    { rewrite Hsplit. apply take_app_length. }
    rewrite Hv.
    assert (Hpv : take (length (p ++ v)) s = p ++ v).
    { rewrite Hs, Hsplit, app_assoc. apply take_app_length. }
    rewrite Hpv. reflexivity.
Qed.

Lemma takeWhile_ext f g s :
  (forall c, f c = g c) -> takeWhile f s = takeWhile g s.
Proof.
  intros Hfg. induction s as [|c s IH]; simpl; [reflexivity|].
  rewrite Hfg, IH. reflexivity.
Qed.

Lemma matchAt_nonSpace p cc prev s i :
  (forall c, classMatches cc c = nonSpace c) ->
  matchAt (tokenRe p cc) prev s i = tokenAt p nonSpace s i.
Proof.
  intros Hcc. rewrite matchAt_token. unfold tokenAt.
  rewrite (takeWhile_ext _ _ _ Hcc). reflexivity.
Qed.

Lemma matchAt_includeMatch prev s i :
  matchAt Pattern.includeMatch prev s i = tokenAt (js "include:") nonSpace s i.
Proof.
  apply matchAt_nonSpace. intros c. unfold classMatches, nonSpace. simpl.
  destruct (isWhiteSpace c); reflexivity.
Qed.

Lemma matchAt_includeRegex prev s i :
  matchAt Pattern.includeRegex prev s i = tokenAt (js "include:") nonSpace s i.
Proof.
  apply matchAt_nonSpace. intros c. unfold classMatches, nonSpace. simpl.
  destruct (isWhiteSpace c); reflexivity.
Qed.

Lemma matchAt_redirectRegex prev s i :
  matchAt Pattern.redirectRegex prev s i = tokenAt (js "redirect=") nonSpace s i.
Proof.
  apply matchAt_nonSpace. intros c. unfold classMatches, nonSpace. simpl.
  destruct (isWhiteSpace c); reflexivity.
Qed.

(** *** Patterns that match the same at every index *)

Section SameMatches.

Variables r1 r2 : regex.
Hypothesis same : forall prev s i, matchAt r1 prev s i = matchAt r2 prev s i.

Lemma search_same s : forall prev i, search r1 prev s i = search r2 prev s i.
Proof.
  induction s as [|c s IH]; intros prev i; simpl; rewrite same;
    [reflexivity|].
  destruct (matchAt r2 prev (c :: s) i); [reflexivity|apply IH].
Qed.

Lemma exec_same str lastIndex : exec r1 str lastIndex = exec r2 str lastIndex.
Proof. unfold exec. rewrite search_same. reflexivity. Qed.

Lemma matchLoop_same str fuel : forall lastIndex,
  matchLoop fuel r1 str lastIndex = matchLoop fuel r2 str lastIndex.
Proof.
  induction fuel as [|fuel IH]; intros lastIndex; simpl; [reflexivity|].
  rewrite exec_same. destruct (exec r2 str lastIndex) as [[m|] li];
    [|reflexivity].
  rewrite IH. reflexivity.
Qed.

End SameMatches.

(** *** The loops over a token pattern *)

Section TokenLoops.

Variable r : regex.
Variable p : jsstring.
Hypothesis r_token :
  forall prev s i, matchAt r prev s i = tokenAt p nonSpace s i.
Hypothesis p_nonempty : p <> [].

Lemma tokenAt_inv s i m :
  tokenAt p nonSpace s i = Some m ->
  index m = i
  /\ matched m = p ++ group m 1
  /\ group m 1 <> []
  /\ Forall (fun c => isWhiteSpace c = false) (group m 1)
  /\ endIndex m = i + length (matched m)
  /\ s = matched m ++ drop (length (matched m)) s
  /\ (forall c, head (drop (length (matched m)) s) = Some c ->
                isWhiteSpace c = true).
Proof.
  unfold tokenAt. destruct (Str.startsWith p s) eqn:Hp; [|discriminate].
  pose proof (startsWith_inv p s Hp) as Hs.
  pose proof (takeWhile_prefix nonSpace (drop (length p) s)) as Hsplit.
  pose proof (takeWhile_all nonSpace (drop (length p) s)) as Hall.
  pose proof (takeWhile_stop nonSpace (drop (length p) s)) as Hstop.
  destruct (takeWhile nonSpace (drop (length p) s)) as [|c u] eqn:Hu;
    [discriminate|].
  remember (c :: u) as v eqn:Hv.
  intros H. rewrite Hv in H at 1. inversion H as [Hm]. clear H.
  unfold group. simpl. rewrite <- Hv.
  assert (Hdrop : drop (length (p ++ v)) s = drop (length v) (drop (length p) s))
    by (rewrite drop_drop, length_app; reflexivity).
  repeat split.
  - subst v. discriminate.
  - eapply Forall_impl; [exact Hall|]. intros c0 Hc0. unfold nonSpace in Hc0.
    destruct (isWhiteSpace c0); [discriminate|reflexivity].
  - rewrite length_app. lia.
  - rewrite Hdrop, <- app_assoc, <- Hsplit. exact Hs.
  - intros c0 Hc0. rewrite Hdrop in Hc0. apply Hstop in Hc0.
    unfold nonSpace in Hc0. destruct (isWhiteSpace c0); [reflexivity|discriminate].
Qed.

Lemma search_token s : forall prev i m,
  search r prev s i = Some m ->
  exists k, k <= length s /\ tokenAt p nonSpace (drop k s) (i + k) = Some m.
Proof.
  induction s as [|c s IH]; intros prev i m; simpl; rewrite r_token.
  - destruct (tokenAt p nonSpace [] i) eqn:Ht; [|discriminate].
    intros H. inversion H. subst. exists 0. rewrite Nat.add_0_r. split; [lia|exact Ht].
  - destruct (tokenAt p nonSpace (c :: s) i) eqn:Ht.
    + intros H. inversion H. subst. exists 0. rewrite Nat.add_0_r.
      split; [lia|exact Ht].
    + intros H. apply IH in H as (k & Hk & Hm). exists (S k).
      replace (i + S k) with (S i + k) by lia. split; [lia|exact Hm].
Qed.

Lemma exec_token str lastIndex m lastIndex' :
  exec r str lastIndex = (Some m, lastIndex') ->
  lastIndex' = endIndex m
  /\ lastIndex <= index m
  /\ index m < endIndex m
  /\ endIndex m <= length str
  /\ matched m <> []
  /\ tokenIn p str m.
Proof.
  unfold exec. destruct (length str <? lastIndex) eqn:Hli; [discriminate|].
  apply Nat.ltb_ge in Hli.
  destruct (search r _ _ _) as [m'|] eqn:Hsearch; [|discriminate].
  intros H. inversion H. subst m' lastIndex'. clear H.
  apply search_token in Hsearch as (k & Hk & Ht).
  apply tokenAt_inv in Ht
    as (Hidx & Hmatched & Hne & Hall & Hend & Hsplit & Hstop).
  rewrite length_drop in Hk.
  assert (E1 : drop k (drop lastIndex str) = drop (index m) str)
    by (rewrite drop_drop, Hidx; reflexivity).
  assert (E2 : drop (length (matched m)) (drop (index m) str)
               = drop (endIndex m) str).
  { rewrite drop_drop. f_equal. lia. }
  rewrite E1 in Hsplit, Hstop. rewrite E2 in Hsplit, Hstop.
  assert (Hmne : matched m <> []).
  { rewrite Hmatched. destruct p; [congruence|discriminate]. }
  assert (Hlen : 0 < length (matched m))
    by (destruct (matched m); [congruence|simpl; lia]).
  assert (Hfit : index m + length (matched m) <= length str).
  { apply (f_equal length) in Hsplit.
    rewrite length_app, !length_drop in Hsplit. lia. }
  split; [reflexivity|]. split; [lia|]. split; [lia|]. split; [lia|].
  split; [exact Hmne|].
  unfold tokenIn.
  split; [exact Hmatched|]. split; [exact Hne|]. split; [exact Hall|].
  split; [lia|]. split; [exact Hsplit|exact Hstop].
Qed.

Lemma tokenAt_occurs s i :
  (exists c tl, s = p ++ c :: tl /\ isWhiteSpace c = false) ->
  tokenAt p nonSpace s i <> None.
Proof.
  intros (c & tl & -> & Hc). unfold tokenAt.
  rewrite startsWith_app, drop_app_length. simpl. unfold nonSpace at 1.
  rewrite Hc. simpl. discriminate.
Qed.

Lemma tokenAt_index s i j :
  tokenAt p nonSpace s i = None -> tokenAt p nonSpace s j = None.
Proof.
  unfold tokenAt. destruct (Str.startsWith p s); [|reflexivity].
  destruct (takeWhile nonSpace (drop (length p) s)); [reflexivity|discriminate].
Qed.

Lemma search_none s : forall prev i k,
  search r prev s i = None -> k <= length s ->
  tokenAt p nonSpace (drop k s) (i + k) = None.
Proof.
  induction s as [|c s IH]; intros prev i k; simpl search; rewrite r_token.
  - destruct (tokenAt p nonSpace [] i) eqn:Ht; [discriminate|].
    intros _ Hk. rewrite drop_nil. eapply tokenAt_index, Ht.
  - destruct (tokenAt p nonSpace (c :: s) i) eqn:Ht; [discriminate|].
    intros H Hk. destruct k as [|k].
    + simpl. eapply tokenAt_index, Ht.
    + simpl. replace (i + S k) with (S i + k) by lia.
      eapply IH; [exact H|simpl in Hk; lia].
Qed.

Lemma search_before s : forall prev i m k,
  search r prev s i = Some m -> i + k < index m ->
  tokenAt p nonSpace (drop k s) (i + k) = None.
Proof.
  induction s as [|c s IH]; intros prev i m k; simpl search; rewrite r_token.
  - destruct (tokenAt p nonSpace [] i) eqn:Ht; [|discriminate].
    intros H Hk. inversion H. subst. apply tokenAt_inv in Ht as (Hidx & _). lia.
  - destruct (tokenAt p nonSpace (c :: s) i) eqn:Ht.
    + intros H Hk. inversion H. subst. apply tokenAt_inv in Ht as (Hidx & _). lia.
    + intros H Hk. destruct k as [|k].
      * simpl. eapply tokenAt_index, Ht.
      * simpl. replace (i + S k) with (S i + k) by lia.
        eapply IH; [exact H|lia].
Qed.

(** Every place where a token starts lies inside one of the matches. *)
Lemma matchLoop_covers str fuel : forall lastIndex k,
  length str - lastIndex < fuel ->
  lastIndex <= k ->
  occursAt p str k ->
  Exists (fun m => index m <= k /\ k < endIndex m) (matchLoop fuel r str lastIndex).
Proof.
  induction fuel as [|fuel IH]; intros lastIndex k Hfuel Hk Hocc; [lia|].
  assert (Hklen : k < length str).
  { destruct Hocc as (c & tl & Hdrop & _).
    apply (f_equal length) in Hdrop. rewrite length_drop, length_app in Hdrop.
    simpl in Hdrop. lia. }
  assert (Htok : forall i, tokenAt p nonSpace (drop k str) i <> None)
    by (intros i; apply tokenAt_occurs; exact Hocc).
  simpl. destruct (exec r str lastIndex) as [[m|] li] eqn:Hexec.
  - pose proof Hexec as Hexec'.
    apply exec_token in Hexec' as (-> & Hle & Hlt & Hfit & Hne & _).
    destruct (matched m) as [|c t] eqn:Hm; [congruence|].
    destruct (decide (k < endIndex m)) as [Hin|Hafter].
    + apply Exists_cons_hd. split; [|exact Hin].
      destruct (decide (index m <= k)) as [Hok|Hbad]; [exact Hok|].
      exfalso. unfold exec in Hexec.
      destruct (length str <? lastIndex); [discriminate|].
      destruct (search r _ _ _) as [m'|] eqn:Hsearch; [|discriminate].
      inversion Hexec. subst m'.
      apply (search_before _ _ _ _ (k - lastIndex)) in Hsearch; [|lia].
      rewrite drop_drop in Hsearch.
      replace (lastIndex + (k - lastIndex)) with k in Hsearch by lia.
      apply (Htok _ Hsearch).
    + apply Exists_cons_tl. apply IH; [lia|lia|exact Hocc].
  - exfalso. unfold exec in Hexec.
    destruct (length str <? lastIndex) eqn:Hli.
    + apply Nat.ltb_lt in Hli. lia.
    + destruct (search r _ _ _) as [m'|] eqn:Hsearch; [discriminate|].
      apply (search_none _ _ _ (k - lastIndex)) in Hsearch;
        [|rewrite length_drop; lia].
      rewrite drop_drop in Hsearch.
      replace (lastIndex + (k - lastIndex)) with k in Hsearch by lia.
      apply (Htok _ Hsearch).
Qed.

Lemma matchLoop_fuel str f1 : forall f2 lastIndex,
  length str - lastIndex < f1 -> length str - lastIndex < f2 ->
  matchLoop f1 r str lastIndex = matchLoop f2 r str lastIndex.
Proof.
  induction f1 as [|f1 IH]; intros f2 lastIndex H1 H2; [lia|].
  destruct f2 as [|f2]; [lia|]. simpl.
  destruct (exec r str lastIndex) as [[m|] li] eqn:Hexec; [|reflexivity].
  apply exec_token in Hexec as (-> & Hle & Hlt & Hfit & Hne & _).
  f_equal. destruct (matched m) as [|c t]; [congruence|].
  apply IH; lia.
Qed.

Lemma matchLoop_inOrder str fuel : forall lastIndex,
  inOrder (matchLoop fuel r str lastIndex)
  /\ Forall (fun m => lastIndex <= index m /\ tokenIn p str m)
            (matchLoop fuel r str lastIndex).
Proof.
  unfold inOrder.
  induction fuel as [|fuel IH]; intros lastIndex; simpl.
  - split; constructor.
  - destruct (exec r str lastIndex) as [[m|] li] eqn:Hexec;
      [|split; constructor].
    apply exec_token in Hexec as (-> & Hle & Hlt & Hfit & Hne & Htok).
    destruct (matched m) as [|c t] eqn:Hm; [congruence|].
    destruct (IH (endIndex m)) as (Hsorted & Hall).
    split.
    + constructor; [exact Hsorted|].
      eapply Forall_impl; [exact Hall|]. intros m' [Hm' _]. exact Hm'.
    + constructor; [split; [exact Hle|exact Htok]|].
      eapply Forall_impl; [exact Hall|]. intros m' [Hm' Htok'].
      split; [lia|exact Htok'].
Qed.

Lemma execWhile_matchLoop str ty fuel : forall lastIndex includes,
  length str - lastIndex < fuel ->
  execWhile fuel r str lastIndex ty includes
  = Some (includes
          ++ map (fun m => {| edgeType := ty; domain := group m 1 |})
                 (matchLoop fuel r str lastIndex)).
Proof.
  induction fuel as [|fuel IH]; intros lastIndex includes Hfuel; [lia|].
  simpl.
  destruct (exec r str lastIndex) as [[m|] li] eqn:Hexec;
    [|rewrite app_nil_r; reflexivity].
  apply exec_token in Hexec as (-> & Hle & Hlt & Hfit & Hne & _).
  destruct (matched m) as [|c t] eqn:Hm; [congruence|].
  rewrite IH by lia. simpl. rewrite <- app_assoc. reflexivity.
Qed.

Lemma execWhile_matchAll str ty fuel includes :
  length str < fuel ->
  execWhile fuel r str 0 ty includes
  = Some (includes
          ++ map (fun m => {| edgeType := ty; domain := group m 1 |})
                 (matchAll r str)).
Proof.
  intros Hfuel. rewrite execWhile_matchLoop by lia.
  unfold matchAll. rewrite (matchLoop_fuel str fuel (2 + length str) 0) by lia.
  reflexivity.
Qed.

End TokenLoops.

Lemma replace_eq pat rep s :
  Str.replace pat rep s
  = if Str.startsWith pat s then rep ++ drop (length pat) s
    else match s with
         | [] => []
         | c :: s' => c :: Str.replace pat rep s'
         end.
Proof. destruct s; reflexivity. Qed.

Lemma replace_prefix pat g : Str.replace pat [] (pat ++ g) = g.
Proof.
  rewrite replace_eq, startsWith_app. simpl. apply drop_app_length.
Qed.

(** *** The pattern that strips the quotes *)

Lemma matchAt_quotes prev s i :
  matchAt Pattern.quotes prev s i = quoteAt prev s i.
Proof.
  unfold matchAt, Pattern.quotes, quoteAt.
  destruct s as [|c t].
  - destruct prev;
      repeat (cbn [flat_map app rest before]; rewrite ?run_eq); reflexivity.
  - destruct (34 =? c)%N eqn:Hc.
    + apply N.eqb_eq in Hc. subst c.
      destruct prev as [c0|], t as [|c' t'];
        repeat (cbn [flat_map app rest before advance N.eqb Pos.eqb];
                rewrite ?run_eq);
        cbn [andb pos caps advance]; replace (S i - i) with 1 by lia;
        reflexivity.
    + destruct prev as [c0|];
        repeat (cbn [flat_map app rest before]; rewrite ?run_eq; rewrite ?Hc);
        reflexivity.
Qed.

Lemma search_quotes_inner s : forall c0 i,
  search Pattern.quotes (Some c0) s i
  = match last s with
    | Some c =>
        if (34 =? c)%N
        then Some {| index := i + length s - 1; matched := [34%N]; groups := [];
                     endIndex := i + length s |}
        else None
    | None => None
    end.
Proof.
  induction s as [|c t IH]; intros c0 i; cbn [search]; rewrite matchAt_quotes.
  - reflexivity.
  - rewrite IH. unfold quoteAt. destruct t as [|c' t'].
    + cbn [last length]. destruct (34 =? c)%N; cbn [andb]; [|reflexivity].
      f_equal. f_equal; lia.
    + rewrite andb_false_r.
      change (last (c :: c' :: t')) with (last (c' :: t')).
      destruct (last (c' :: t')) as [cl|]; [|reflexivity].
      destruct (34 =? cl)%N; [|reflexivity].
      f_equal. f_equal; cbn [length]; lia.
Qed.

Lemma exec_quotes_end str : exec Pattern.quotes str (length str) = (None, 0).
Proof.
  unfold exec. rewrite Nat.ltb_irrefl, drop_all. cbn [search].
  rewrite matchAt_quotes. reflexivity.
Qed.

Lemma removelast_take (t : jsstring) : removelast t = take (length t - 1) t.
Proof.
  rewrite removelast_firstn_len. f_equal. lia.
Qed.

Lemma exec_start r str :
  exec r str 0
  = match search r None str 0 with
    | Some m => (Some m, endIndex m)
    | None => (None, 0)
    end.
Proof. reflexivity. Qed.

Lemma exec_second r c t :
  exec r (c :: t) 1
  = match search r (Some c) t 1 with
    | Some m => (Some m, endIndex m)
    | None => (None, 0)
    end.
Proof. reflexivity. Qed.

Lemma replaceG_quotes s : replaceG Pattern.quotes [] s = stripQuotes s.
Proof.
  unfold replaceG, matchAll, stripQuotes.
  destruct s as [|c t]; [reflexivity|].
  cbn [length Nat.add matchLoop]. rewrite exec_start.
  cbn [search]. rewrite matchAt_quotes. cbn [quoteAt].
  destruct (34 =? c)%N eqn:Hc; cbn [andb].
  - cbn [matched endIndex]. rewrite exec_second, search_quotes_inner.
    destruct (last t) as [cl|] eqn:Hlast; [|reflexivity].
    destruct (34 =? cl)%N eqn:Hcl; [|reflexivity].
    cbn [matched endIndex].
    change (1 + length t) with (length (c :: t)).
    rewrite exec_quotes_end.
    cbn [splice index endIndex app Nat.sub take drop].
    rewrite drop_all, app_nil_r, removelast_take.
    f_equal; cbn [length]; lia.
  - rewrite search_quotes_inner.
    destruct t as [|c' t'].
    + cbn [last]. rewrite Hc. reflexivity.
    + change (last (c :: c' :: t')) with (last (c' :: t')).
      destruct (last (c' :: t')) as [cl|] eqn:Hlast; [|reflexivity].
      destruct (34 =? cl)%N eqn:Hcl; [|reflexivity].
      cbn [matched endIndex].
      change (1 + length (c' :: t')) with (length (c :: c' :: t')).
      rewrite exec_quotes_end.
      cbn [splice index endIndex app].
      rewrite drop_all, app_nil_r, removelast_take.
      cbn [drop]. f_equal; cbn [length]; lia.
Qed.

End RegExpFacts.

(** ** The resolver and the lookup counter *)

Section Theory.

Variable fetch : jsstring -> FetchOutcome.

Lemma fetchSPFRecords_run domain w :
  fetchSPFRecords fetch domain w
  = (resolve fetch domain,
     {| visited := visited w; requests := requests w ++ [domain] |}).
Proof.
  unfold resolve, fetchSPFRecords, bind, awaitFetch.
  destruct (fetch domain) as [response|e]; simpl; [|reflexivity].
  destruct (ok response); simpl; [|reflexivity].
  destruct (Status (json response) =? 0)%Z; simpl; [|reflexivity].
  destruct (Answer (json response)); reflexivity.
Qed.

Lemma resolve_not_diverge domain : resolve fetch domain <> Diverge.
Proof.
  unfold resolve, fetchSPFRecords, bind, awaitFetch.
  destruct (fetch domain) as [response|e]; simpl; [|discriminate].
  destruct (ok response); simpl; [|discriminate].
  destruct (Status (json response) =? 0)%Z; simpl; [|discriminate].
  destruct (Answer (json response)); discriminate.
Qed.

(** One turn of the loop, case by case. *)
Lemma visitInclude_seen recur d c w :
  d ∈ visited w -> visitInclude fetch recur d c w = (Normal c, w).
Proof.
  intros Hd. unfold visitInclude, bind, visited_has.
  rewrite bool_decide_eq_true_2 by exact Hd. reflexivity.
Qed.

Lemma visitInclude_new recur d c w :
  d ∉ visited w ->
  visitInclude fetch recur d c w
  = match resolve fetch d with
    | Normal (record0 :: _) =>
        match recur record0 (mark d w) with
        | (Normal n, w') => (Normal (c + n), w')
        | (Throw _, w') => (Normal c, w')
        | (Diverge, w') => (Diverge, w')
        end
    | Normal [] => (Normal c, mark d w)
    | Throw _ => (Normal c, mark d w)
    | Diverge => (Diverge, mark d w)
    end.
Proof.
  intros Hd. unfold visitInclude, bind, visited_has.
  rewrite bool_decide_eq_false_2 by exact Hd.
  unfold visited_add, tryCatch, bind. rewrite fetchSPFRecords_run. simpl.
  fold (mark d w).
  destruct (resolve fetch d) as [[|record0 records]|e|]; try reflexivity.
  destruct (recur record0 (mark d w)) as [[n|e|] w']; reflexivity.
Qed.

Lemma countDNSLookups_deep fuel spfRecord depth w :
  10 < depth ->
  countDNSLookups fetch (S fuel) spfRecord depth w = (Normal 0, w).
Proof.
  intros Hd. simpl. apply Nat.ltb_lt in Hd. rewrite Hd. reflexivity.
Qed.

Lemma countDNSLookups_unfold fuel spfRecord depth w :
  depth <= 10 ->
  countDNSLookups fetch (S fuel) spfRecord depth w
  = forOf (includeDomains spfRecord) (directCost spfRecord)
      (visitInclude fetch
         (fun record0 => countDNSLookups fetch fuel record0 (depth + 1))) w.
Proof.
  intros Hd. simpl.
  assert (H : (10 <? depth) = false) by (apply Nat.ltb_ge; lia).
  rewrite H. unfold bind, directCost.
  destruct (forOf _ _ _ w) as [[n|e|] w']; reflexivity.
Qed.

Local Arguments countDNSLookups : simpl never.

(** *** Termination: the depth guard bounds the nesting *)

Lemma forOf_returns recur ds : forall c w,
  (forall record0 w0, exists n w', recur record0 w0 = (Normal n, w')) ->
  exists n w',
    forOf ds c (visitInclude fetch recur) w = (Normal n, w') /\ c <= n.
Proof.
  induction ds as [|d ds IH]; intros c w Hrec; simpl.
  - eexists _, _. split; [reflexivity|lia].
  - unfold bind.
    destruct (decide (d ∈ visited w)) as [Hin|Hout].
    + rewrite visitInclude_seen by exact Hin. apply IH, Hrec.
    + rewrite visitInclude_new by exact Hout.
      pose proof (resolve_not_diverge d) as Hnd.
      destruct (resolve fetch d) as [[|record0 records]|e|]; try (apply IH, Hrec).
      * destruct (Hrec record0 (mark d w)) as (n & w' & ->).
        destruct (IH (c + n) w' Hrec) as (n' & w'' & Heq & Hle).
        exists n', w''. split; [exact Heq|lia].
      * congruence.
Qed.

Lemma countDNSLookups_returns fuel : forall spfRecord depth w,
  11 - depth < fuel ->
  exists n w', countDNSLookups fetch fuel spfRecord depth w = (Normal n, w').
Proof.
  induction fuel as [|fuel IH]; intros spfRecord depth w Hfuel; [lia|].
  destruct (decide (10 < depth)) as [Hdeep|Hshallow].
  - rewrite countDNSLookups_deep by exact Hdeep. eexists _, _. reflexivity.
  - rewrite countDNSLookups_unfold by lia.
    destruct (forOf_returns
                (fun record0 => countDNSLookups fetch fuel record0 (depth + 1))
                (includeDomains spfRecord) (directCost spfRecord) w)
      as (n & w' & Heq & _).
    + intros record0 w0. apply IH. lia.
    + exists n, w'. exact Heq.
Qed.

(** *** What a traversal does to the world *)

Lemma extends_refl w : extends w [] w.
Proof.
  unfold extends. rewrite app_nil_r. repeat split.
  - set_solver.
  - constructor.
  - intros d Hd. inversion Hd.
Qed.

Lemma extends_trans w1 new1 w2 new2 w3 :
  extends w1 new1 w2 -> extends w2 new2 w3 -> extends w1 (new1 ++ new2) w3.
Proof.
  intros (Hr1 & Hv1 & Hn1 & Hf1) (Hr2 & Hv2 & Hn2 & Hf2). repeat split.
  - rewrite Hr2, Hr1, app_assoc. reflexivity.
  - rewrite Hv2, Hv1, list_to_set_app_L. set_solver.
  - apply NoDup_app. split; [exact Hn1|]. split; [|exact Hn2].
    intros d Hd1 Hd2. apply (Hf2 d Hd2). rewrite Hv1. set_solver.
  - intros d Hd. apply elem_of_app in Hd as [Hd|Hd]; [apply Hf1, Hd|].
    intros Hin. apply (Hf2 d Hd). rewrite Hv1. set_solver.
Qed.

Lemma extends_mark d w : d ∉ visited w -> extends w [d] (mark d w).
Proof.
  intros Hd. unfold extends, mark. simpl. repeat split.
  - set_solver.
  - apply NoDup_singleton.
  - intros d' Hd'. apply list_elem_of_singleton in Hd'. subst. exact Hd.
Qed.

Lemma forOf_extends (Q : jsstring -> Prop) recur ds : forall c w,
  (forall d record0 records w0,
      d ∈ ds -> resolve fetch d = Normal (record0 :: records) ->
      exists new, extends w0 new (snd (recur record0 w0)) /\ Forall Q new) ->
  (forall d, d ∈ ds -> Q d) ->
  exists new,
    extends w new (snd (forOf ds c (visitInclude fetch recur) w)) /\ Forall Q new.
Proof.
  induction ds as [|d ds IH]; intros c w Hrec HQ; simpl.
  - exists []. split; [apply extends_refl|constructor].
  - assert (Hrec' : forall d0 record0 records w0,
               d0 ∈ ds -> resolve fetch d0 = Normal (record0 :: records) ->
               exists new, extends w0 new (snd (recur record0 w0)) /\ Forall Q new)
      by (intros; eapply Hrec; [apply list_elem_of_further; eassumption|eassumption]).
    assert (HQ' : forall d0, d0 ∈ ds -> Q d0)
      by (intros; apply HQ, list_elem_of_further; assumption).
    unfold bind.
    destruct (decide (d ∈ visited w)) as [Hin|Hout].
    + rewrite visitInclude_seen by exact Hin. apply IH; assumption.
    + rewrite visitInclude_new by exact Hout.
      assert (Hd : extends w [d] (mark d w)) by (apply extends_mark, Hout).
      assert (HQd : Forall Q [d]) by (constructor; [apply HQ, list_elem_of_here|constructor]).
      assert (Hafter : forall c' w1 new1,
                 extends w new1 w1 -> Forall Q new1 ->
                 exists new,
                   extends w new (snd (forOf ds c' (visitInclude fetch recur) w1))
                   /\ Forall Q new).
      { intros c' w1 new1 He1 HQ1.
        destruct (IH c' w1 Hrec' HQ') as (new2 & He2 & HQ2).
        exists (new1 ++ new2). split.
        - eapply extends_trans; eassumption.
        - apply Forall_app; split; assumption. }
      destruct (resolve fetch d) as [[|record0 records]|e|] eqn:Hres.
      * eapply Hafter; eassumption.
      * destruct (Hrec d record0 records (mark d w)) as (newr & Her & HQr);
          [apply list_elem_of_here|exact Hres|].
        assert (Hboth : extends w ([d] ++ newr) (snd (recur record0 (mark d w))))
          by (eapply extends_trans; eassumption).
        assert (HQboth : Forall Q ([d] ++ newr))
          by (apply Forall_app; split; assumption).
        destruct (recur record0 (mark d w)) as [[n|e|] w']; simpl in *.
        -- eapply Hafter; eassumption.
        -- eapply Hafter; eassumption.
        -- exists ([d] ++ newr). split; assumption.
      * eapply Hafter; eassumption.
      * simpl. exists [d]. split; assumption.
Qed.

Lemma includeReach_nested root d record0 records d' :
  d ∈ includeDomains root ->
  resolve fetch d = Normal (record0 :: records) ->
  includeReach fetch record0 d' -> includeReach fetch root d'.
Proof.
  intros Hd Hres Hreach. induction Hreach as [d1 Hd1|d1 r1 rs1 d2 _ IH Hr1 Hd2].
  - eapply reach_step; [apply reach_root, Hd|exact Hres|exact Hd1].
  - eapply reach_step; [exact IH|exact Hr1|exact Hd2].
Qed.

Lemma countDNSLookups_extends fuel : forall spfRecord depth w,
  exists new,
    extends w new (snd (countDNSLookups fetch fuel spfRecord depth w))
    /\ Forall (includeReach fetch spfRecord) new.
Proof.
  induction fuel as [|fuel IH]; intros spfRecord depth w.
  - exists []. split; [apply extends_refl|constructor].
  - destruct (decide (10 < depth)) as [Hdeep|Hshallow].
    + rewrite countDNSLookups_deep by exact Hdeep.
      exists []. split; [apply extends_refl|constructor].
    + rewrite countDNSLookups_unfold by lia.
      apply forOf_extends.
      * intros d record0 records w0 Hd Hres.
        destruct (IH record0 (depth + 1) w0) as (new & He & HQ).
        exists new. split; [exact He|].
        eapply Forall_impl; [exact HQ|].
        intros d' Hd'. eapply includeReach_nested; eassumption.
      * intros d Hd. apply reach_root, Hd.
Qed.

(** *** Records whose includes lead to records without includes *)

Lemma countDNSLookups_leaf fuel spfRecord depth w :
  includeDomains spfRecord = [] -> depth <= 10 ->
  countDNSLookups fetch (S fuel) spfRecord depth w
  = (Normal (directCost spfRecord), w).
Proof.
  intros Hno Hd. rewrite countDNSLookups_unfold by exact Hd.
  rewrite Hno. reflexivity.
Qed.

Lemma forOf_leaves fuel depth ds : forall c w,
  (forall d record0 records,
      d ∈ ds -> resolve fetch d = Normal (record0 :: records) ->
      includeDomains record0 = []) ->
  depth < 10 ->
  forOf ds c
    (visitInclude fetch
       (fun record0 => countDNSLookups fetch (S fuel) record0 (depth + 1))) w
  = (Normal (c + sum_list (map (nestedDirect fetch) (firstVisits (visited w) ds))),
     markAll (firstVisits (visited w) ds) w).
Proof.
  induction ds as [|d ds IH]; intros c w Hleaf Hd; simpl.
  - rewrite Nat.add_0_r. reflexivity.
  - assert (Hleaf' : forall d0 record0 records,
               d0 ∈ ds -> resolve fetch d0 = Normal (record0 :: records) ->
               includeDomains record0 = [])
      by (intros; eapply Hleaf; [apply list_elem_of_further; eassumption|eassumption]).
    unfold bind. destruct (decide (d ∈ visited w)) as [Hin|Hout].
    + rewrite visitInclude_seen by exact Hin.
      rewrite bool_decide_eq_true_2 by exact Hin. apply IH; assumption.
    + rewrite visitInclude_new by exact Hout.
      rewrite bool_decide_eq_false_2 by exact Hout. simpl.
      pose proof (resolve_not_diverge d) as Hnd.
      unfold nestedDirect at 1.
      destruct (resolve fetch d) as [[|record0 records]|e|] eqn:Hres;
        try congruence.
      * rewrite IH by assumption. simpl. f_equal; f_equal; lia.
      * cbv beta. rewrite countDNSLookups_leaf;
          [|eapply Hleaf; [apply list_elem_of_here|exact Hres]|lia].
        rewrite IH by assumption. simpl. f_equal; f_equal; lia.
      * rewrite IH by assumption. simpl. f_equal; f_equal; lia.
Qed.

Lemma countDNSLookups_flat_includes_direct root fuel :
  (forall d record0 records,
      d ∈ includeDomains root ->
      resolve fetch d = Normal (record0 :: records) ->
      includeDomains record0 = []) ->
  11 < fuel ->
  countDNSLookups fetch fuel root 0 freshWorld
  = (Normal (directCost root
             + sum_list (map (nestedDirect fetch)
                             (firstVisits ∅ (includeDomains root)))),
     markAll (firstVisits ∅ (includeDomains root)) freshWorld).
Proof.
  intros Hleaf Hfuel.
  destruct fuel as [|[|fuel]]; [lia|lia|].
  rewrite countDNSLookups_unfold by lia.
  rewrite forOf_leaves; [|exact Hleaf|lia].
  reflexivity.
Qed.

Lemma filter_all {A} (f : A -> bool) (l : list A) :
  forallb f l = true -> List.filter f l = l.
Proof.
  induction l as [|x l IH]; simpl; [reflexivity|].
  intros H. apply andb_prop in H as [Hx Hl]. rewrite Hx, IH by exact Hl.
  reflexivity.
Qed.

Lemma wordsAreBare_cost r : wordsAreBare r = true -> directCost r = termCost r.
Proof.
  unfold wordsAreBare. cbn [forallb]. intros H.
  apply andb_prop in H as [Ha H]. apply andb_prop in H as [Hmx H].
  apply andb_prop in H as [Hptr _].
  unfold directCost, termCost, bareMatches, matchG.
  rewrite !filter_all by assumption. rewrite !length_map. reflexivity.
Qed.

Lemma firstVisits_subset ds : forall v d, d ∈ firstVisits v ds -> d ∈ ds.
Proof.
  induction ds as [|d0 ds IH]; intros v d Hd; simpl in Hd; [exact Hd|].
  destruct (bool_decide (d0 ∈ v)).
  - apply list_elem_of_further. eapply IH, Hd.
  - apply elem_of_cons in Hd as [->|Hd]; [apply list_elem_of_here|].
    apply list_elem_of_further. eapply IH, Hd.
Qed.

(** C1, as amended: take a record whose [include:] tokens name domains
    whose first SPF record has no [include:] token, and let [a], [mx] and
    [ptr] occur in these records as bare mechanisms only.  Then
    [countDNSLookups] with a fresh [visited] and depth 0 returns the number N
    of [include:] tokens plus the number of [redirect=], [a], [mx], [ptr] and
    [exists:] tokens of the record, plus the number of such tokens in the
    first SPF record of each include domain that resolves, every domain taken
    once; each such domain is requested once, in the order of first
    occurrence. *)
Theorem countDNSLookups_flat_includes root fuel :
  wordsAreBare root = true ->
  (forall d record0 records,
      d ∈ includeDomains root ->
      resolve fetch d = Normal (record0 :: records) ->
      includeDomains record0 = [] /\ wordsAreBare record0 = true) ->
  11 < fuel ->
  countDNSLookups fetch fuel root 0 freshWorld
  = (Normal (length (includeMatches root)
             + (length (matchG Pattern.redirect root)
                + length (bareMatches (js "a") root)
                + length (bareMatches (js "mx") root)
                + length (bareMatches (js "ptr") root)
                + length (matchG Pattern.exists_ root))
             + sum_list (map (nestedTermCost fetch)
                             (firstVisits ∅ (includeDomains root)))),
     markAll (firstVisits ∅ (includeDomains root)) freshWorld).
Proof.
  intros Hbare Hleaf Hfuel.
  rewrite countDNSLookups_flat_includes_direct;
    [|intros d record0 records Hd Hres; apply (Hleaf d record0 records Hd Hres)
     |exact Hfuel].
  rewrite (wordsAreBare_cost root Hbare).
  assert (Hnested : map (nestedDirect fetch) (firstVisits ∅ (includeDomains root))
                    = map (nestedTermCost fetch)
                          (firstVisits ∅ (includeDomains root))).
  { apply map_ext_in. intros d Hd.
    apply list_elem_of_In, firstVisits_subset in Hd.
    unfold nestedDirect, nestedTermCost.
    destruct (resolve fetch d) as [[|record0 records]|e|] eqn:Hres;
      try reflexivity.
    apply wordsAreBare_cost. eapply Hleaf; [exact Hd|exact Hres]. }
  rewrite Hnested. unfold termCost. f_equal; f_equal; lia.
Qed.

(** C2: the record ["v=spf1 ip6:2001:db8::a -all"] has no mechanism that
    costs a DNS lookup, and yet [countDNSLookups] returns 1 for it: the
    pattern for the bare [a] mechanism matches the last group of the
    address.  Without the [ip6:] token the result is 0. *)
Theorem countDNSLookups_ip6_hextet_counted :
  countDNSLookups fetch 12 (js "v=spf1 ip6:2001:db8::a -all") 0 freshWorld
  = (Normal 1, freshWorld)
  /\ countDNSLookups fetch 12 (js "v=spf1 -all") 0 freshWorld
    = (Normal 0, freshWorld).
Proof.
  split.
  - rewrite countDNSLookups_leaf; [|vm_compute; reflexivity|lia].
    vm_compute. reflexivity.
  - rewrite countDNSLookups_leaf; [|vm_compute; reflexivity|lia].
    vm_compute. reflexivity.
Qed.

Lemma forOf_visits recur ds : forall c w,
  (forall record0 w0,
      exists n w', recur record0 w0 = (Normal n, w') /\ visited w0 ⊆ visited w') ->
  visited w ⊆ visited (snd (forOf ds c (visitInclude fetch recur) w))
  /\ (forall d, d ∈ ds ->
                d ∈ visited (snd (forOf ds c (visitInclude fetch recur) w))).
Proof.
  induction ds as [|d ds IH]; intros c w Hrec; simpl.
  - split; [reflexivity|]. intros d Hd. inversion Hd.
  - unfold bind. destruct (decide (d ∈ visited w)) as [Hin|Hout].
    + rewrite visitInclude_seen by exact Hin.
      destruct (IH c w Hrec) as (Hmono & Hall). split; [exact Hmono|].
      intros d' Hd'. apply elem_of_cons in Hd' as [->|Hd'];
        [apply Hmono, Hin|apply Hall, Hd'].
    + rewrite visitInclude_new by exact Hout.
      assert (Hmark : visited w ⊆ visited (mark d w)) by (simpl; set_solver).
      assert (Hd : d ∈ visited (mark d w)) by (simpl; set_solver).
      assert (Hgo : forall c1 w1,
                 visited (mark d w) ⊆ visited w1 ->
                 visited w ⊆ visited (snd (forOf ds c1 (visitInclude fetch recur) w1))
                 /\ (forall d', d' ∈ d :: ds ->
                       d' ∈ visited (snd (forOf ds c1 (visitInclude fetch recur) w1)))).
      { intros c1 w1 Hw1. destruct (IH c1 w1 Hrec) as (Hmono & Hall).
        split; [set_solver|].
        intros d' Hd'. apply elem_of_cons in Hd' as [->|Hd'];
          [apply Hmono, Hw1, Hd|apply Hall, Hd']. }
      pose proof (resolve_not_diverge d) as Hnd.
      destruct (resolve fetch d) as [[|record0 records]|e|];
        [apply Hgo; reflexivity| |apply Hgo; reflexivity|congruence].
      destruct (Hrec record0 (mark d w)) as (n & w' & -> & Hsub).
      apply Hgo, Hsub.
Qed.

Lemma countDNSLookups_two_cycle A B recA recB moreA moreB fuel :
  A <> B ->
  resolve fetch A = Normal (recA :: moreA) ->
  resolve fetch B = Normal (recB :: moreB) ->
  includeDomains recA = [B] ->
  includeDomains recB = [A] ->
  11 < fuel ->
  countDNSLookups fetch fuel recA 0 freshWorld
  = (Normal (directCost recA + (directCost recB + directCost recA)),
     mark A (mark B freshWorld)).
Proof.
  intros HAB HA HB HinclA HinclB Hfuel.
  destruct fuel as [|[|[|fuel]]]; try lia.
  rewrite countDNSLookups_unfold by lia. rewrite HinclA. simpl. unfold bind.
  rewrite visitInclude_new by (simpl; set_solver). rewrite HB.
  rewrite countDNSLookups_unfold by lia. rewrite HinclB. simpl. unfold bind.
  rewrite visitInclude_new by (simpl; set_solver). rewrite HA.
  rewrite countDNSLookups_unfold by lia. rewrite HinclA. simpl. unfold bind.
  rewrite visitInclude_seen by (simpl; set_solver).
  reflexivity.
Qed.

(** C3: when the record of A includes B and the record of B includes A,
    [countDNSLookups] on the record of A returns, and in the whole traversal
    no domain is requested twice and B is added to [visited] and requested:
    exactly once.  When the two records include nothing else, the requests
    are B, then A, and the call returns the direct cost of the record of A,
    of the record of B, and of the record of A once more. *)
Theorem countDNSLookups_cycle_once A B recA recB moreA moreB fuel :
  resolve fetch A = Normal (recA :: moreA) ->
  resolve fetch B = Normal (recB :: moreB) ->
  B ∈ includeDomains recA ->
  A ∈ includeDomains recB ->
  11 < fuel ->
  exists n w',
    countDNSLookups fetch fuel recA 0 freshWorld = (Normal n, w')
    /\ NoDup (requests w')
    /\ B ∈ requests w'
    /\ B ∈ visited w'
    /\ (A <> B -> includeDomains recA = [B] -> includeDomains recB = [A] ->
        requests w' = [B; A]
        /\ visited w' = {[A; B]}
        /\ n = directCost recA + (directCost recB + directCost recA)).
Proof.
  intros HA HB HinclA HinclB Hfuel.
  destruct (countDNSLookups_returns fuel recA 0 freshWorld) as (n & w' & Heq);
    [lia|].
  exists n, w'. split; [exact Heq|].
  destruct (countDNSLookups_extends fuel recA 0 freshWorld)
    as (new & (Hreq & Hvis & Hnodup & _) & _).
  rewrite Heq in Hreq, Hvis. simpl in Hreq, Hvis.
  assert (HBvis : B ∈ visited w').
  { destruct fuel as [|fuel]; [lia|].
    rewrite countDNSLookups_unfold in Heq by lia.
    destruct (forOf_visits
                (fun record0 => countDNSLookups fetch fuel record0 (0 + 1))
                (includeDomains recA) (directCost recA) freshWorld) as (_ & Hall).
    - intros record0 w0.
      destruct (countDNSLookups_returns fuel record0 (0 + 1) w0) as (k & w1 & Hk);
        [lia|].
      exists k, w1. split; [exact Hk|].
      destruct (countDNSLookups_extends fuel record0 (0 + 1) w0)
        as (new0 & (_ & Hv0 & _) & _).
      rewrite Hk in Hv0. simpl in Hv0. rewrite Hv0. set_solver.
    - specialize (Hall B HinclA). rewrite Heq in Hall. exact Hall. }
  split; [rewrite Hreq; exact Hnodup|].
  split; [rewrite Hreq; rewrite Hvis in HBvis; set_solver|].
  split; [exact HBvis|].
  intros HAB HonlyB HonlyA.
  rewrite (countDNSLookups_two_cycle A B recA recB moreA moreB fuel) in Heq
    by assumption.
  inversion Heq. subst. simpl.
  split; [reflexivity|]. split; [set_solver|reflexivity].
Qed.

(** *** The depth guard *)

Lemma countDNSLookups_chain chain : forall root depth w fuel,
  isChain fetch root chain ->
  depth <= 10 ->
  11 - depth <= length chain ->
  11 - depth < fuel ->
  NoDup (take (11 - depth) chain.*1) ->
  (forall d, d ∈ take (11 - depth) chain.*1 -> d ∉ visited w) ->
  countDNSLookups fetch fuel root depth w
  = (Normal (directCost root
             + sum_list (map directCost (take (10 - depth) chain.*2))),
     markAll (take (11 - depth) chain.*1) w).
Proof.
  induction chain as [|[d record'] chain IH];
    intros root depth w fuel Hchain Hdepth Hlen Hfuel Hnodup Hfresh.
  { simpl in Hlen. lia. }
  destruct Hchain as (Hincl & (records & Hres) & Hchain).
  destruct fuel as [|fuel]; [lia|].
  rewrite countDNSLookups_unfold by exact Hdepth.
  rewrite Hincl. simpl forOf. unfold bind.
  replace (11 - depth) with (S (10 - depth)) in * by lia.
  simpl in Hnodup, Hfresh, Hlen. simpl.
  apply NoDup_cons in Hnodup as [Hd Hnodup].
  rewrite visitInclude_new by (apply Hfresh, list_elem_of_here).
  rewrite Hres. cbv beta.
  destruct (decide (depth = 10)) as [->|Hlt].
  - destruct fuel as [|fuel]; [lia|].
    rewrite countDNSLookups_deep by lia. simpl. reflexivity.
  - replace (10 - depth) with (S (9 - depth)) in * by lia.
    rewrite (IH record' (depth + 1) (mark d w) fuel); try assumption; try lia.
    + replace (10 - (depth + 1)) with (9 - depth) by lia.
      replace (11 - (depth + 1)) with (S (9 - depth)) by lia.
      simpl. f_equal; f_equal; lia.
    + replace (11 - (depth + 1)) with (S (9 - depth)) by lia. exact Hnodup.
    + replace (11 - (depth + 1)) with (S (9 - depth)) by lia.
      intros d' Hd'. simpl.
      assert (d' <> d) by (intros ->; apply Hd, Hd').
      assert (d' ∉ visited w) by (apply Hfresh, list_elem_of_further, Hd').
      set_solver.
Qed.

(** C4: for every record, every [visited] set and every resolver, a call
    of [countDNSLookups] with a depth above 10 returns 0 at once and leaves
    the world as it is: nothing is added to [visited], nothing is
    requested.  Hence on a chain of records that each include the next
    domain (11 links or more, such as the 14 links between 15 records), it
    returns; the first eleven domains are requested and the records from
    depth 11 on add nothing: the result is the direct cost of the records
    at depths 0 to 10. *)
Theorem countDNSLookups_depth_bound :
  (forall spfRecord depth w fuel0,
      10 < depth -> 0 < fuel0 ->
      countDNSLookups fetch fuel0 spfRecord depth w = (Normal 0, w))
  /\ (forall root chain fuel,
        isChain fetch root chain ->
        11 <= length chain ->
        NoDup (take 11 chain.*1) ->
        11 < fuel ->
        countDNSLookups fetch fuel root 0 freshWorld
        = (Normal (directCost root + sum_list (map directCost (take 10 chain.*2))),
           markAll (take 11 chain.*1) freshWorld)).
Proof.
  split.
  - intros spfRecord depth w fuel0 Hdeep Hfuel0.
    destruct fuel0 as [|fuel0]; [lia|]. apply countDNSLookups_deep, Hdeep.
  - intros root chain fuel Hchain Hlen Hnodup Hfuel.
    apply (countDNSLookups_chain chain root 0 freshWorld fuel);
      try assumption; try lia.
    intros d _. simpl. set_solver.
Qed.

(** C5: the count of [countDNSLookups] has one unit for every [redirect=]
    match of the record, next to those for the [include:], [a], [mx], [ptr]
    and [exists:] matches and what the nested calls return; and every
    domain that is resolved is named by an [include:] token of the record
    or of a record reached through such tokens.  A record without
    [include:] tokens makes no request at all, whatever it redirects to. *)
Theorem countDNSLookups_redirect_not_followed spfRecord depth w fuel :
  depth <= 10 -> 11 - depth < fuel ->
  exists nested new w',
    countDNSLookups fetch fuel spfRecord depth w
    = (Normal (length (matchG Pattern.redirect spfRecord)
               + (length (includeMatches spfRecord)
                  + length (matchG (Pattern.word (js "a")) spfRecord)
                  + length (matchG (Pattern.word (js "mx")) spfRecord)
                  + length (matchG (Pattern.word (js "ptr")) spfRecord)
                  + length (matchG Pattern.exists_ spfRecord))
               + nested), w')
    /\ extends w new w'
    /\ Forall (includeReach fetch spfRecord) new
    /\ (includeDomains spfRecord = [] -> nested = 0 /\ new = [] /\ w' = w).
Proof.
  intros Hdepth Hfuel.
  destruct (countDNSLookups_extends fuel spfRecord depth w) as (new & Hext & Hreach).
  destruct fuel as [|fuel]; [lia|].
  rewrite countDNSLookups_unfold in * by exact Hdepth.
  destruct (forOf_returns
              (fun record0 => countDNSLookups fetch fuel record0 (depth + 1))
              (includeDomains spfRecord) (directCost spfRecord) w)
    as (n & w' & Heq & Hle).
  { intros record0 w0. apply countDNSLookups_returns. lia. }
  rewrite Heq in *. simpl in Hext.
  exists (n - directCost spfRecord), new, w'.
  split; [|split; [exact Hext|split; [exact Hreach|]]].
  - f_equal. f_equal. unfold directCost in *. lia.
  - intros Hno. rewrite Hno in Heq. simpl in Heq. inversion Heq. subst n w'.
    destruct Hext as (Hreq & _).
    apply (f_equal length) in Hreq. rewrite length_app in Hreq.
    split; [lia|]. split; [|reflexivity].
    destruct new; [reflexivity|simpl in Hreq; lia].
Qed.

(** *** The resolver *)

Lemma filter_sublist {A} (f : A -> bool) (l : list A) :
  sublist (List.filter f l) l.
Proof.
  induction l as [|x l IH]; simpl; [constructor|].
  destruct (f x); [apply sublist_skip|apply sublist_cons]; exact IH.
Qed.

Lemma filter_none {A} (f : A -> bool) (l : list A) :
  Forall (fun x => f x = false) l -> List.filter f l = [].
Proof.
  induction 1 as [|x l Hx _ IH]; simpl; [reflexivity|].
  rewrite Hx. exact IH.
Qed.

Lemma resolve_cases domain :
  resolve fetch domain
  = match fetch domain with
    | Rejected e => Throw e
    | Resolved response =>
        if negb (ok response)
        then Throw (Error (js "DNS lookup failed: " ++ statusText response))
        else if negb (Status (json response) =? 0)%Z
             then Throw (Error (js "DNS query failed - domain may not exist"))
             else Normal (List.filter (Str.startsWith (js "v=spf1"))
                                      (txtTexts response))
    end.
Proof.
  unfold resolve, fetchSPFRecords, bind, awaitFetch, txtTexts.
  destruct (fetch domain) as [response|e]; simpl; [|reflexivity].
  destruct (ok response); simpl; [|reflexivity].
  destruct (Status (json response) =? 0)%Z; simpl; [|reflexivity].
  destruct (Answer (json response)); reflexivity.
Qed.

(** C8: [fetchSPFRecords] throws exactly when the request is rejected, the
    response is not [ok], or its [Status] is not 0.  Otherwise it returns,
    in the order of the response, the texts of the TXT-type answers, without
    the double quote at their start and at their end, that begin with
    [v=spf1], all of them and nothing else; so it returns the empty sequence
    when there is no TXT answer or none of them begins with [v=spf1]. *)
Theorem fetchSPFRecords_outcome domain w :
  let result := fst (fetchSPFRecords fetch domain w) in
  ((exists e, result = Throw e)
   <-> ((exists e, fetch domain = Rejected e)
        \/ (exists response,
               fetch domain = Resolved response
               /\ (ok response = false \/ Status (json response) <> 0%Z))))
  /\ result <> Diverge
  /\ (forall records,
        result = Normal records ->
        exists response,
          fetch domain = Resolved response
          /\ txtTexts response
             = map (fun record => stripQuotes (data record))
                   (List.filter (fun record => (type record =? 16)%Z)
                                (default [] (Answer (json response))))
          /\ Forall (fun s => Str.startsWith (js "v=spf1") s = true) records
          /\ sublist records (txtTexts response)
          /\ (forall t, t ∈ txtTexts response ->
                        Str.startsWith (js "v=spf1") t = true -> t ∈ records)
          /\ (Forall (fun t => Str.startsWith (js "v=spf1") t = false)
                     (txtTexts response) -> records = [])).
Proof.
  simpl. rewrite fetchSPFRecords_run. simpl. rewrite resolve_cases.
  destruct (fetch domain) as [response|e] eqn:Hfetch.
  - destruct (ok response) eqn:Hok; simpl.
    + destruct (Status (json response) =? 0)%Z eqn:Hst; simpl.
      * apply Z.eqb_eq in Hst. split; [|split; [discriminate|]].
        -- split.
           ++ intros [e He]. discriminate.
           ++ intros [[e He]|(r & Hr & [Hbad|Hbad])]; try discriminate;
                inversion Hr; subst; congruence.
        -- intros records Hrec. inversion Hrec as [Hrecords]. clear Hrec.
           exists response. split; [reflexivity|]. repeat split.
           ++ unfold txtTexts. apply map_ext. intros record.
              apply replaceG_quotes.
           ++ apply Forall_forall. intros s Hs.
              apply list_elem_of_In, filter_In in Hs. tauto.
           ++ apply filter_sublist.
           ++ intros t Ht Hsw. apply list_elem_of_In, filter_In.
              split; [apply list_elem_of_In, Ht|exact Hsw].
           ++ apply filter_none.
      * apply Z.eqb_neq in Hst. split; [|split; [discriminate|discriminate]].
        split; [|eexists; reflexivity].
        intros _. right. exists response. tauto.
    + split; [|split; [discriminate|discriminate]].
      split; [|eexists; reflexivity].
      intros _. right. exists response. tauto.
  - split; [|split; [discriminate|discriminate]].
    split; [|eexists; reflexivity].
    intros _. left. exists e. reflexivity.
Qed.

(** C9: [fetchIncludedDomain] always returns a string and never throws: the
    first SPF record when the resolution gives at least one, the text
    [No SPF record found] when it gives none, and [Error: ] followed by the
    message of the error when the resolution fails. *)
Theorem fetchIncludedDomain_total domain w :
  exists s,
    fetchIncludedDomain fetch domain w
    = (Normal s, {| visited := visited w; requests := requests w ++ [domain] |})
    /\ (forall record0 records,
          fst (fetchSPFRecords fetch domain w) = Normal (record0 :: records) ->
          s = record0)
    /\ (fst (fetchSPFRecords fetch domain w) = Normal [] ->
        s = js "No SPF record found")
    /\ (forall e,
          fst (fetchSPFRecords fetch domain w) = Throw e ->
          s = js "Error: " ++ message e).
Proof.
  unfold fetchIncludedDomain, tryCatch, bind.
  rewrite fetchSPFRecords_run. simpl.
  pose proof (resolve_not_diverge domain) as Hnd.
  destruct (resolve fetch domain) as [[|record0 records]|e|]; [| | |congruence];
    eexists; (split; [reflexivity|]); repeat split; intros; congruence.
Qed.

End Theory.


(** ** The include domains of a call *)

Lemma countDNSLookups_marks_includes fetch fuel spfRecord depth w :
  depth <= 10 -> 11 - depth < fuel ->
  forall d, d ∈ includeDomains spfRecord ->
            d ∈ visited (snd (countDNSLookups fetch fuel spfRecord depth w)).
Proof.
  intros Hdepth Hfuel. destruct fuel as [|fuel]; [lia|].
  rewrite countDNSLookups_unfold by exact Hdepth.
  apply forOf_visits. intros record0 w0.
  destruct (countDNSLookups_returns fetch fuel record0 (depth + 1) w0)
    as (k & w1 & Hk); [lia|].
  exists k, w1. split; [exact Hk|].
  destruct (countDNSLookups_extends fetch fuel record0 (depth + 1) w0)
    as (new0 & (_ & Hv0 & _) & _).
  rewrite Hk in Hv0. simpl in Hv0. rewrite Hv0. set_solver.
Qed.

(** ** The edges of a record *)

Section Edges.

Lemma extractIncludes_matchAll spfRecord fuel :
  length spfRecord < fuel ->
  extractIncludes fuel spfRecord
  = Some (map includeEdge (matchAll Pattern.includeRegex spfRecord)
          ++ map redirectEdge (matchAll Pattern.redirectRegex spfRecord)).
Proof.
  intros Hfuel. unfold extractIncludes.
  rewrite (execWhile_matchAll Pattern.includeRegex (js "include:"));
    [|apply matchAt_includeRegex|discriminate|exact Hfuel].
  rewrite (execWhile_matchAll Pattern.redirectRegex (js "redirect="));
    [|apply matchAt_redirectRegex|discriminate|exact Hfuel].
  reflexivity.
Qed.

Lemma matchAll_inOrder r p str :
  (forall prev s i, matchAt r prev s i = tokenAt p nonSpace s i) ->
  p <> [] ->
  inOrder (matchAll r str)
  /\ Forall (tokenIn p str) (matchAll r str)
  /\ (forall k, occursAt p str k ->
                Exists (fun m => index m <= k /\ k < endIndex m) (matchAll r str)).
Proof.
  intros Hr Hp.
  destruct (matchLoop_inOrder r p Hr Hp str (2 + length str) 0) as (Hs & Hall).
  split; [exact Hs|]. split.
  - eapply Forall_impl; [exact Hall|]. intros m [_ Hm]. exact Hm.
  - intros k Hk. apply (matchLoop_covers r p Hr Hp); [lia|lia|exact Hk].
Qed.

(** C6: [extractIncludes] returns the edges of all the [include:] matches
    of the record, in the order of the text, and after them the edges of
    all its [redirect=] matches, in the order of the text.  Every edge
    carries the run without white space that follows the prefix, and every
    place of the record where a prefix is followed by a code unit other than
    white space lies in one of the matches.  For
    ["v=spf1 include:a.com redirect=b.com -all"] the edges are the include
    edge of [a.com] and the redirect edge of [b.com]. *)
Theorem extractIncludes_includes_then_redirects spfRecord fuel :
  length spfRecord < fuel ->
  exists includes redirects,
    extractIncludes fuel spfRecord
    = Some (map includeEdge includes ++ map redirectEdge redirects)
    /\ includes = matchAll Pattern.includeRegex spfRecord
    /\ redirects = matchAll Pattern.redirectRegex spfRecord
    /\ inOrder includes
    /\ Forall (tokenIn (js "include:") spfRecord) includes
    /\ (forall k, occursAt (js "include:") spfRecord k ->
                  Exists (fun m => index m <= k /\ k < endIndex m) includes)
    /\ inOrder redirects
    /\ Forall (tokenIn (js "redirect=") spfRecord) redirects
    /\ (forall k, occursAt (js "redirect=") spfRecord k ->
                  Exists (fun m => index m <= k /\ k < endIndex m) redirects)
    /\ (spfRecord = js "v=spf1 include:a.com redirect=b.com -all" ->
        extractIncludes fuel spfRecord
        = Some [ {| edgeType := js "include"; domain := js "a.com" |};
                 {| edgeType := js "redirect"; domain := js "b.com" |} ]).
Proof.
  intros Hfuel.
  exists (matchAll Pattern.includeRegex spfRecord),
         (matchAll Pattern.redirectRegex spfRecord).
  destruct (matchAll_inOrder Pattern.includeRegex (js "include:") spfRecord)
    as (Hio & Hit & Hic); [apply matchAt_includeRegex|discriminate|].
  destruct (matchAll_inOrder Pattern.redirectRegex (js "redirect=") spfRecord)
    as (Hro & Hrt & Hrc); [apply matchAt_redirectRegex|discriminate|].
  split; [apply extractIncludes_matchAll, Hfuel|].
  repeat (split; [first [reflexivity|assumption]|]).
  intros ->. rewrite extractIncludes_matchAll by exact Hfuel.
  vm_compute. reflexivity.
Qed.

Lemma filter_include_edges ms1 ms2 :
  List.filter isIncludeEdge (map includeEdge ms1 ++ map redirectEdge ms2)
  = map includeEdge ms1.
Proof.
  rewrite List.filter_app.
  assert (H1 : List.filter isIncludeEdge (map includeEdge ms1) = map includeEdge ms1).
  { induction ms1 as [|m ms IH]; [reflexivity|].
    cbn [map List.filter]. unfold isIncludeEdge at 1. cbn [includeEdge edgeType].
    rewrite bool_decide_eq_true_2 by reflexivity. f_equal. exact IH. }
  assert (H2 : List.filter isIncludeEdge (map redirectEdge ms2) = []).
  { induction ms2 as [|m ms IH]; [reflexivity|].
    cbn [map List.filter]. unfold isIncludeEdge at 1. cbn [redirectEdge edgeType].
    rewrite bool_decide_eq_false_2 by (vm_compute; discriminate). exact IH. }
  rewrite H1, H2, app_nil_r. reflexivity.
Qed.

(** C10: the include-type edges of [extractIncludes] are as many as the
    [include:] matches that [countDNSLookups] counts for the same record,
    and their domains are, in the same order, the domains over which
    [countDNSLookups] runs its loop: the call is this loop over the domains
    of the include edges, started with their number plus the counts of the
    other tokens.  Each of these domains is in [visited] when the call has
    returned, and those that were not in it before were requested, once:
    a domain that the record names twice is in the list twice and is
    resolved at its first turn only. *)
Theorem extractIncludes_matches_includeDomains
        (fetch : jsstring -> FetchOutcome) spfRecord fuelE fuel depth w :
  length spfRecord < fuelE -> depth <= 10 ->
  exists edges,
    extractIncludes fuelE spfRecord = Some edges
    /\ length (List.filter isIncludeEdge edges) = length (includeMatches spfRecord)
    /\ map domain (List.filter isIncludeEdge edges) = includeDomains spfRecord
    /\ countDNSLookups fetch (S fuel) spfRecord depth w
       = forOf (map domain (List.filter isIncludeEdge edges))
           (length (List.filter isIncludeEdge edges)
            + length (matchG Pattern.redirect spfRecord)
            + length (matchG (Pattern.word (js "a")) spfRecord)
            + length (matchG (Pattern.word (js "mx")) spfRecord)
            + length (matchG (Pattern.word (js "ptr")) spfRecord)
            + length (matchG Pattern.exists_ spfRecord))
           (visitInclude fetch
              (fun record0 => countDNSLookups fetch fuel record0 (depth + 1))) w
    /\ (11 - depth < S fuel ->
        exists n new w',
          countDNSLookups fetch (S fuel) spfRecord depth w = (Normal n, w')
          /\ extends w new w'
          /\ (forall d, d ∈ map domain (List.filter isIncludeEdge edges) ->
                        d ∈ visited w'
                        /\ (d ∉ visited w -> d ∈ new))).
Proof.
  intros Hfuel Hdepth. eexists. split; [apply extractIncludes_matchAll, Hfuel|].
  rewrite filter_include_edges.
  assert (Hsame : matchAll Pattern.includeMatch spfRecord
                  = matchAll Pattern.includeRegex spfRecord).
  { unfold matchAll. apply matchLoop_same. intros prev s i.
    rewrite matchAt_includeMatch, matchAt_includeRegex. reflexivity. }
  destruct (matchAll_inOrder Pattern.includeRegex (js "include:") spfRecord)
    as (_ & Htok & _); [apply matchAt_includeRegex|discriminate|].
  assert (Hlen : length (map includeEdge (matchAll Pattern.includeRegex spfRecord))
                 = length (includeMatches spfRecord)).
  { unfold includeMatches, matchG. rewrite Hsame, !length_map. reflexivity. }
  assert (Hdom : map domain (map includeEdge (matchAll Pattern.includeRegex spfRecord))
                 = includeDomains spfRecord).
  { unfold includeDomains, includeMatches, matchG. rewrite Hsame.
    rewrite !map_map. apply map_ext_in. intros m Hm.
    rewrite Forall_forall in Htok. apply list_elem_of_In, Htok in Hm.
    destruct Hm as (Hmatched & _). cbn [includeEdge domain].
    rewrite Hmatched, replace_prefix. reflexivity. }
  split; [exact Hlen|]. split; [exact Hdom|]. split.
  - rewrite countDNSLookups_unfold by exact Hdepth.
    rewrite Hdom, Hlen. unfold directCost. reflexivity.
  - intros Hrec. rewrite Hdom.
    destruct (countDNSLookups_returns fetch (S fuel) spfRecord depth w Hrec)
      as (n & w' & Heq).
    destruct (countDNSLookups_extends fetch (S fuel) spfRecord depth w)
      as (new & Hext & _).
    pose proof (countDNSLookups_marks_includes fetch (S fuel) spfRecord depth w
                  Hdepth Hrec) as Hmarks.
    rewrite Heq in Hext, Hmarks. cbn [snd] in Hext, Hmarks.
    exists n, new, w'. split; [exact Heq|]. split; [exact Hext|].
    intros d Hd. specialize (Hmarks d Hd). split; [exact Hmarks|].
    intros Hfresh. destruct Hext as (_ & Hvis & _).
    rewrite Hvis in Hmarks. apply elem_of_union in Hmarks as [Hold|Hnew];
      [contradiction|]. apply elem_of_list_to_set in Hnew. exact Hnew.
Qed.

End Edges.

(** ** Failing resolutions *)

Section Failures.

Variables fetch1 fetch2 : jsstring -> FetchOutcome.

Hypothesis same_first :
  forall d, firstRecord (resolve fetch1 d) = firstRecord (resolve fetch2 d).

Local Arguments countDNSLookups : simpl never.

Lemma visitInclude_firstRecord fetch recur d c w :
  d ∉ visited w ->
  visitInclude fetch recur d c w
  = match firstRecord (resolve fetch d) with
    | Some record0 =>
        match recur record0 (mark d w) with
        | (Normal n, w') => (Normal (c + n), w')
        | (Throw _, w') => (Normal c, w')
        | (Diverge, w') => (Diverge, w')
        end
    | None => (Normal c, mark d w)
    end.
Proof.
  intros Hd. rewrite visitInclude_new by exact Hd.
  pose proof (resolve_not_diverge fetch d) as Hnd.
  destruct (resolve fetch d) as [[|record0 records]|e|];
    [reflexivity|reflexivity|reflexivity|congruence].
Qed.

Lemma forOf_same_first recur1 recur2 ds : forall c w,
  (forall record0 w0, recur1 record0 w0 = recur2 record0 w0) ->
  forOf ds c (visitInclude fetch1 recur1) w
  = forOf ds c (visitInclude fetch2 recur2) w.
Proof.
  induction ds as [|d ds IH]; intros c w Hrec; simpl; [reflexivity|].
  unfold bind. destruct (decide (d ∈ visited w)) as [Hin|Hout].
  - rewrite !visitInclude_seen by exact Hin. apply IH, Hrec.
  - rewrite !visitInclude_firstRecord by exact Hout. rewrite same_first.
    destruct (firstRecord (resolve fetch2 d)) as [record0|].
    + rewrite Hrec. destruct (recur2 record0 (mark d w)) as [[n|e|] w'];
        [apply IH, Hrec|apply IH, Hrec|reflexivity].
    + apply IH, Hrec.
Qed.


End Failures.

(** Any fuel above the depth that is left gives the same result. *)
Lemma countDNSLookups_fuel fetch f1 : forall f2 spfRecord depth w,
  11 - depth < f1 -> 11 - depth < f2 ->
  countDNSLookups fetch f1 spfRecord depth w
  = countDNSLookups fetch f2 spfRecord depth w.
Proof.
  induction f1 as [|f1 IH]; intros f2 spfRecord depth w H1 H2; [lia|].
  destruct f2 as [|f2]; [lia|].
  destruct (decide (10 < depth)) as [Hdeep|Hshallow].
  - rewrite !countDNSLookups_deep by exact Hdeep. reflexivity.
  - rewrite !countDNSLookups_unfold by lia.
    apply forOf_same_first; [reflexivity|].
    intros record0 w0. apply IH; lia.
Qed.


(** ** The theorems at concrete inputs *)

Ltac by_evaluation := vm_compute; first [reflexivity | lia | exact I].

(** One include whose record has addresses only: 1 + 0 lookups. *)
Example countDNSLookups_addresses_only :
  countDNSLookups Examples.addressesOnly 12
    (js "v=spf1 include:_spf.google.com ip4:1.2.3.0/24 ~all") 0 freshWorld
  = (Normal 1, mark (js "_spf.google.com") freshWorld).
Proof. by_evaluation. Qed.

(** The quotes of a TXT answer are stripped before the prefix is tested. *)
Example fetchSPFRecords_quoted :
  resolve Examples.leafMx (js "x.org") = Normal [js "v=spf1 mx -all"]
  /\ resolve Examples.leafMx (js "y.org")
     = Throw (Error (js "DNS query failed - domain may not exist"))
  /\ resolve (fun _ => Examples.txt [js "google-site-verification=abc"]) (js "x.org")
     = Normal [].
Proof. repeat split; by_evaluation. Qed.

Lemma countDNSLookups_flat_includes_witness :
  countDNSLookups Examples.leafMx 12 (js "v=spf1 include:x.org a -all") 0 freshWorld
  = (Normal 3, markAll [js "x.org"] freshWorld).
Proof.
  rewrite (countDNSLookups_flat_includes Examples.leafMx
             (js "v=spf1 include:x.org a -all") 12).
  - by_evaluation.
  - by_evaluation.
  - intros d record0 records Hd Hres.
    assert (Hdoms : includeDomains (js "v=spf1 include:x.org a -all") = [js "x.org"])
      by by_evaluation.
    rewrite Hdoms in Hd. apply list_elem_of_singleton in Hd. subst d.
    assert (Hr : resolve Examples.leafMx (js "x.org") = Normal [js "v=spf1 mx -all"])
      by by_evaluation.
    rewrite Hr in Hres. inversion Hres. split; by_evaluation.
  - lia.
Defined.

(** C1 as the specification states it fails: the root has one [include:]
    token and no other token that costs a lookup, the included record has no
    include, and the result is 2, not 1, because the [mx] of the included
    record is counted as well. *)
Lemma countDNSLookups_flat_includes_counterexample :
  includeDomains (js "v=spf1 include:x.org -all") = [js "x.org"]
  /\ resolve Examples.leafMx (js "x.org") = Normal [js "v=spf1 mx -all"]
  /\ includeDomains (js "v=spf1 mx -all") = []
  /\ length (includeMatches (js "v=spf1 include:x.org -all")) = 1
  /\ length (matchG Pattern.redirect (js "v=spf1 include:x.org -all"))
     + length (matchG (Pattern.word (js "a")) (js "v=spf1 include:x.org -all"))
     + length (matchG (Pattern.word (js "mx")) (js "v=spf1 include:x.org -all"))
     + length (matchG (Pattern.word (js "ptr")) (js "v=spf1 include:x.org -all"))
     + length (matchG Pattern.exists_ (js "v=spf1 include:x.org -all")) = 0
  /\ fst (countDNSLookups Examples.leafMx 12 (js "v=spf1 include:x.org -all") 0
                          freshWorld) = Normal 2
  /\ fst (countDNSLookups Examples.leafMx 12 (js "v=spf1 include:x.org -all") 0
                          freshWorld) <> Normal (1 + 0).
Proof.
  repeat split; try by_evaluation.
  vm_compute. discriminate.
Qed.

Lemma countDNSLookups_cycle_once_witness :
  exists n w',
    countDNSLookups Examples.cycle 12 Examples.recOne 0 freshWorld = (Normal n, w')
    /\ NoDup (requests w')
    /\ js "two.org" ∈ requests w'
    /\ js "two.org" ∈ visited w'
    /\ (js "one.org" <> js "two.org" ->
        includeDomains Examples.recOne = [js "two.org"] ->
        includeDomains Examples.recTwo = [js "one.org"] ->
        requests w' = [js "two.org"; js "one.org"]
        /\ visited w' = {[js "one.org"; js "two.org"]}
        /\ n = directCost Examples.recOne
               + (directCost Examples.recTwo + directCost Examples.recOne)).
Proof.
  apply (countDNSLookups_cycle_once Examples.cycle (js "one.org") (js "two.org")
           Examples.recOne Examples.recTwo [] [] 12).
  - by_evaluation.
  - by_evaluation.
  - assert (H : includeDomains Examples.recOne = [js "two.org"]) by by_evaluation.
    rewrite H. apply list_elem_of_here.
  - assert (H : includeDomains Examples.recTwo = [js "one.org"]) by by_evaluation.
    rewrite H. apply list_elem_of_here.
  - lia.
Defined.

Lemma chainLinks_isChain :
  isChain Examples.chainZone (Examples.chainRecord 0) Examples.chainLinks.
Proof.
  unfold Examples.chainLinks. cbn [seq map isChain].
  repeat (split; [by_evaluation|split; [exists []; by_evaluation|]]).
  exact I.
Defined.

(** On the chain of fifteen records the count is 11 and the domains 1 to 11
    are requested. *)
Example countDNSLookups_chain_eleven :
  fst (countDNSLookups Examples.chainZone 12 (Examples.chainRecord 0) 0 freshWorld)
  = Normal 11
  /\ requests (snd (countDNSLookups Examples.chainZone 12 (Examples.chainRecord 0) 0
                                   freshWorld))
     = map Examples.chainName (seq 1 11).
Proof. split; by_evaluation. Qed.

Lemma countDNSLookups_depth_bound_witness :
  countDNSLookups Examples.chainZone 1 (Examples.chainRecord 0) 11 freshWorld
  = (Normal 0, freshWorld)
  /\ countDNSLookups Examples.chainZone 12 (Examples.chainRecord 0) 0 freshWorld
     = (Normal (directCost (Examples.chainRecord 0)
                + sum_list (map directCost (take 10 Examples.chainLinks.*2))),
        markAll (take 11 Examples.chainLinks.*1) freshWorld).
Proof.
  split.
  - apply (proj1 (countDNSLookups_depth_bound Examples.chainZone)
             (Examples.chainRecord 0) 11 freshWorld 1); lia.
  - apply (proj2 (countDNSLookups_depth_bound Examples.chainZone)
             (Examples.chainRecord 0) Examples.chainLinks 12).
    + exact chainLinks_isChain.
    + by_evaluation.
    + apply (bool_decide_unpack _). by_evaluation.
    + lia.
Defined.

Lemma countDNSLookups_redirect_not_followed_witness :
  countDNSLookups Examples.cycle 12 (js "v=spf1 redirect=one.org -all") 0 freshWorld
  = (Normal 1, freshWorld).
Proof.
  destruct (countDNSLookups_redirect_not_followed Examples.cycle
              (js "v=spf1 redirect=one.org -all") 0 freshWorld 12)
    as (nested & new & w' & Heq & _ & _ & Hno); [lia|lia|].
  destruct Hno as (-> & _ & ->); [by_evaluation|].
  rewrite Heq. by_evaluation.
Defined.

Lemma extractIncludes_includes_then_redirects_witness :
  extractIncludes 41 (js "v=spf1 include:a.com redirect=b.com -all")
  = Some [ {| edgeType := js "include"; domain := js "a.com" |};
           {| edgeType := js "redirect"; domain := js "b.com" |} ].
Proof.
  destruct (extractIncludes_includes_then_redirects
              (js "v=spf1 include:a.com redirect=b.com -all") 41)
    as (includes & redirects & _ & _ & _ & _ & _ & _ & _ & _ & _ & Hex);
    [by_evaluation|].
  apply Hex. reflexivity.
Defined.

Lemma extractIncludes_matches_includeDomains_witness :
  exists edges,
    extractIncludes 60 (js "v=spf1 include:x.org redirect=c.net include:x.org -all")
    = Some edges
    /\ length (List.filter isIncludeEdge edges)
       = length (includeMatches
                   (js "v=spf1 include:x.org redirect=c.net include:x.org -all"))
    /\ map domain (List.filter isIncludeEdge edges)
       = includeDomains (js "v=spf1 include:x.org redirect=c.net include:x.org -all")
    /\ countDNSLookups Examples.leafMx 12
         (js "v=spf1 include:x.org redirect=c.net include:x.org -all") 0 freshWorld
       = forOf (map domain (List.filter isIncludeEdge edges))
           (length (List.filter isIncludeEdge edges)
            + length (matchG Pattern.redirect
                        (js "v=spf1 include:x.org redirect=c.net include:x.org -all"))
            + length (matchG (Pattern.word (js "a"))
                        (js "v=spf1 include:x.org redirect=c.net include:x.org -all"))
            + length (matchG (Pattern.word (js "mx"))
                        (js "v=spf1 include:x.org redirect=c.net include:x.org -all"))
            + length (matchG (Pattern.word (js "ptr"))
                        (js "v=spf1 include:x.org redirect=c.net include:x.org -all"))
            + length (matchG Pattern.exists_
                        (js "v=spf1 include:x.org redirect=c.net include:x.org -all")))
           (visitInclude Examples.leafMx
              (fun record0 => countDNSLookups Examples.leafMx 11 record0 (0 + 1)))
           freshWorld
    /\ (11 - 0 < 12 ->
        exists n new w',
          countDNSLookups Examples.leafMx 12
            (js "v=spf1 include:x.org redirect=c.net include:x.org -all") 0 freshWorld
          = (Normal n, w')
          /\ extends freshWorld new w'
          /\ (forall d, d ∈ map domain (List.filter isIncludeEdge edges) ->
                        d ∈ visited w'
                        /\ (d ∉ visited freshWorld -> d ∈ new))).
Proof.
  apply (extractIncludes_matches_includeDomains Examples.leafMx
           (js "v=spf1 include:x.org redirect=c.net include:x.org -all")
           60 11 0 freshWorld).
  - by_evaluation.
  - lia.
Defined.

(** The record that names [x.org] twice: two include edges, one request. *)
Example extractIncludes_repeated_include :
  option_map (fun edges => map domain (List.filter isIncludeEdge edges))
    (extractIncludes 60 (js "v=spf1 include:x.org redirect=c.net include:x.org -all"))
  = Some [js "x.org"; js "x.org"]
  /\ requests (snd (countDNSLookups Examples.leafMx 12
                      (js "v=spf1 include:x.org redirect=c.net include:x.org -all")
                      0 freshWorld))
     = [js "x.org"].
Proof. split; by_evaluation. Qed.



(** ** The matcher finds what the patterns match *)

Section Matcher.

Local Arguments run : simpl never.

Lemma lastOr_nil p : lastOr p [] = p.
Proof. reflexivity. Qed.

Lemma lastOr_app p u1 u2 : lastOr (lastOr p u1) u2 = lastOr p (u1 ++ u2).
Proof.
  unfold lastOr. destruct u2 as [|c u2] using rev_ind.
  - rewrite app_nil_r. reflexivity.
  - rewrite app_assoc, !last_snoc. reflexivity.
Qed.

Lemma lastOr_cons p c : lastOr p [c] = Some c.
Proof. reflexivity. Qed.

(** Every state that [run] returns is reached by a match. *)
Lemma run_sound fuel : forall r st st',
  In st' (run fuel r st) ->
  exists u,
    rest st = u ++ rest st'
    /\ pos st' = pos st + length u
    /\ before st' = lastOr (before st) u
    /\ matches r (before st) u (rest st').
Proof.
  induction fuel as [fuel IHf] using lt_wf_ind.
  induction r as [|c|cc|r1 IH1 r2 IH2|r1 IH1 r2 IH2|r1 IH1|n r1 IH1| | |];
    intros st st' Hin; rewrite run_eq in Hin.
  - destruct Hin as [<-|[]]. exists [].
    repeat apply conj; [reflexivity|simpl; lia|reflexivity|constructor].
  - destruct (rest st) as [|c' t] eqn:Hrest; [destruct Hin|].
    destruct (N.eqb c c') eqn:Hc; [|destruct Hin].
    apply N.eqb_eq in Hc. subst c'. destruct Hin as [<-|[]].
    exists [c].
    repeat apply conj; [reflexivity|simpl; lia|reflexivity|constructor].
  - destruct (rest st) as [|c' t] eqn:Hrest; [destruct Hin|].
    destruct (classMatches cc c') eqn:Hc; [|destruct Hin].
    destruct Hin as [<-|[]].
    exists [c'].
    repeat apply conj;
      [reflexivity|simpl; lia|reflexivity|constructor; exact Hc].
  - apply in_flat_map in Hin as (st1 & H1 & H2).
    apply IH1 in H1 as (u1 & Hr1 & Hp1 & Hb1 & Hm1).
    apply IH2 in H2 as (u2 & Hr2 & Hp2 & Hb2 & Hm2).
    exists (u1 ++ u2). repeat apply conj.
    + rewrite Hr1, Hr2. apply app_assoc.
    + rewrite Hp2, Hp1, length_app. lia.
    + rewrite Hb2, Hb1. apply lastOr_app.
    + constructor; [rewrite <- Hr2; exact Hm1|rewrite <- Hb1; exact Hm2].
  - apply in_app_or in Hin as [Hin|Hin].
    + apply IH1 in Hin as (u & Hr & Hp & Hb & Hm).
      exists u. repeat apply conj; try assumption. apply m_alt_l, Hm.
    + apply IH2 in Hin as (u & Hr & Hp & Hb & Hm).
      exists u. repeat apply conj; try assumption. apply m_alt_r, Hm.
  - apply in_flat_map in Hin as (st1 & H1 & H2).
    apply IH1 in H1 as (u1 & Hr1 & Hp1 & Hb1 & Hm1).
    apply in_app_or in H2 as [H2|[<-|[]]].
    + destruct fuel as [|fuel']; [destruct H2|].
      destruct (pos st <? pos st1) eqn:Hlt; [|destruct H2].
      apply Nat.ltb_lt in Hlt.
      apply (IHf fuel') in H2 as (u2 & Hr2 & Hp2 & Hb2 & Hm2); [|lia].
      exists (u1 ++ u2). repeat apply conj.
      * rewrite Hr1, Hr2. apply app_assoc.
      * rewrite Hp2, Hp1, length_app. lia.
      * rewrite Hb2, Hb1. apply lastOr_app.
      * apply m_plus_more.
        -- rewrite <- Hr2. exact Hm1.
        -- intros ->. simpl in Hp1. lia.
        -- rewrite <- Hb1. exact Hm2.
    + exists u1. repeat apply conj; try assumption. apply m_plus_one, Hm1.
  - apply in_map_iff in Hin as (st1 & <- & H1).
    apply IH1 in H1 as (u & Hr & Hp & Hb & Hm).
    exists u. simpl. repeat apply conj; try assumption. constructor. exact Hm.
  - destruct (before st) eqn:Hb; [destruct Hin|]. destruct Hin as [<-|[]].
    exists []. rewrite Hb.
    repeat apply conj; [reflexivity|simpl; lia|reflexivity|constructor].
  - destruct (rest st) eqn:Hr; [|destruct Hin]. destruct Hin as [<-|[]].
    exists []. rewrite Hr.
    repeat apply conj; [reflexivity|simpl; lia|reflexivity|constructor].
  - destruct (xorb _ _) eqn:Hx; [|destruct Hin]. destruct Hin as [<-|[]].
    exists [].
    repeat apply conj; [reflexivity|simpl; lia|reflexivity|constructor; exact Hx].
Qed.

(** Every match is among the states that [run] returns, when the fuel
    covers the input that is left. *)
Lemma run_complete r p u t :
  matches r p u t ->
  forall fuel st,
    before st = p -> rest st = u ++ t -> length (rest st) <= fuel ->
    exists st',
      In st' (run fuel r st)
      /\ rest st' = t
      /\ pos st' = pos st + length u
      /\ before st' = lastOr p u.
Proof.
  induction 1 as [p t|c p t|cc c p t Hc|r1 r2 p u1 u2 t _ IH1 _ IH2
                  |r1 r2 p u t _ IH|r1 r2 p u t _ IH|r p u t _ IH
                  |r p u1 u2 t _ IH1 Hne _ IH2|n r p u t _ IH|t|p|p t Hx];
    intros fuel st Hb Hr Hlen; rewrite run_eq.
  - exists st. simpl in *. repeat split; [left; reflexivity|exact Hr|lia|exact Hb].
  - rewrite Hr. simpl. rewrite N.eqb_refl.
    eexists. split; [left; reflexivity|]. simpl. repeat split. lia.
  - rewrite Hr. simpl. rewrite Hc.
    eexists. split; [left; reflexivity|]. simpl. repeat split. lia.
  - destruct (IH1 fuel st Hb) as (st1 & Hin1 & Hr1 & Hp1 & Hb1);
      [rewrite Hr; apply eq_sym, app_assoc|exact Hlen|].
    destruct (IH2 fuel st1 Hb1 Hr1) as (st2 & Hin2 & Hr2 & Hp2 & Hb2).
    { rewrite Hr1. rewrite Hr in Hlen. rewrite !length_app in *. lia. }
    exists st2. split; [apply in_flat_map; exists st1; split; assumption|].
    rewrite length_app, <- lastOr_app. repeat split; [exact Hr2|lia|exact Hb2].
  - destruct (IH fuel st Hb Hr Hlen) as (st' & Hin & H').
    exists st'. split; [apply in_or_app; left; exact Hin|exact H'].
  - destruct (IH fuel st Hb Hr Hlen) as (st' & Hin & H').
    exists st'. split; [apply in_or_app; right; exact Hin|exact H'].
  - destruct (IH fuel st Hb Hr Hlen) as (st' & Hin & H').
    exists st'. split; [|exact H'].
    apply in_flat_map. exists st'. split; [exact Hin|].
    apply in_or_app. right. left. reflexivity.
  - destruct (IH1 fuel st Hb) as (st1 & Hin1 & Hr1 & Hp1 & Hb1);
      [rewrite Hr; apply eq_sym, app_assoc|exact Hlen|].
    assert (Hpos : 0 < length u1) by (destruct u1; [congruence|simpl; lia]).
    destruct fuel as [|fuel'].
    { rewrite Hr, !length_app in Hlen. lia. }
    destruct (IH2 fuel' st1 Hb1 Hr1) as (st2 & Hin2 & Hr2 & Hp2 & Hb2).
    { rewrite Hr1. rewrite Hr in Hlen. rewrite !length_app in *. lia. }
    exists st2. split.
    + apply in_flat_map. exists st1. split; [exact Hin1|].
      apply in_or_app. left.
      assert (Hlt : (pos st <? pos st1) = true) by (apply Nat.ltb_lt; lia).
      rewrite Hlt. exact Hin2.
    + rewrite length_app, <- lastOr_app. repeat split; [exact Hr2|lia|exact Hb2].
  - destruct (IH fuel st Hb Hr Hlen) as (st' & Hin & Hr' & Hp' & Hb').
    eexists. split; [apply in_map_iff; exists st'; split; [reflexivity|exact Hin]|].
    simpl. repeat split; assumption.
  - rewrite Hb. exists st. simpl in *.
    repeat split; [left; reflexivity|exact Hr|lia|exact Hb].
  - simpl in Hr. rewrite Hr. exists st. simpl.
    repeat split; [left; reflexivity|exact Hr|lia|exact Hb].
  - simpl in Hr. rewrite Hb, Hr, Hx. exists st. simpl.
    repeat split; [left; reflexivity|exact Hr|lia|exact Hb].
Qed.

(** *** Reading a match off a pattern *)

Lemma matches_eps p u t : matches Eps p u t <-> u = [].
Proof.
  split; [inversion 1; reflexivity|intros ->; constructor].
Qed.

Lemma matches_chr c p u t : matches (Chr c) p u t <-> u = [c].
Proof.
  split; [inversion 1; reflexivity|intros ->; constructor].
Qed.

Lemma matches_class cc p u t :
  matches (Class cc) p u t <-> exists c, u = [c] /\ classMatches cc c = true.
Proof.
  split.
  - inversion 1; subst. eexists. split; [reflexivity|assumption].
  - intros (c & -> & Hc). constructor. exact Hc.
Qed.

Lemma matches_seq r1 r2 p u t :
  matches (Seq r1 r2) p u t
  <-> exists u1 u2,
        u = u1 ++ u2
        /\ matches r1 p u1 (u2 ++ t)
        /\ matches r2 (lastOr p u1) u2 t.
Proof.
  split.
  - inversion 1; subst. eexists _, _. repeat apply conj; [reflexivity| |];
      assumption.
  - intros (u1 & u2 & -> & H1 & H2). constructor; assumption.
Qed.

Lemma matches_alt r1 r2 p u t :
  matches (Alt r1 r2) p u t <-> matches r1 p u t \/ matches r2 p u t.
Proof.
  split.
  - inversion 1; subst; [left|right]; assumption.
  - intros [H|H]; [apply m_alt_l|apply m_alt_r]; exact H.
Qed.

Lemma matches_group n r p u t : matches (Group n r) p u t <-> matches r p u t.
Proof.
  split; [inversion 1; assumption|apply m_group].
Qed.

Lemma matches_bol p u t : matches Bol p u t <-> p = None /\ u = [].
Proof.
  split; [inversion 1; split; reflexivity|intros [-> ->]; constructor].
Qed.

Lemma matches_eol p u t : matches Eol p u t <-> u = [] /\ t = [].
Proof.
  split; [inversion 1; split; reflexivity|intros [-> ->]; constructor].
Qed.

(** *** [exec] and [test] find a match exactly when there is one *)

Lemma matchAt_is_Some r prev s i :
  (exists m, matchAt r prev s i = Some m)
  <-> exists u t, s = u ++ t /\ matches r prev u t.
Proof.
  unfold matchAt. split.
  - intros (m & Hm).
    destruct (run (S (length s)) r _) as [|st' sts] eqn:Hrun; [discriminate|].
    assert (Hin : In st' (run (S (length s)) r
                            {| before := prev; rest := s; pos := i; caps := [] |}))
      by (rewrite Hrun; left; reflexivity).
    apply run_sound in Hin as (u & Hr & _ & _ & Hmatch). simpl in Hr, Hmatch.
    exists u, (rest st'). split; assumption.
  - intros (u & t & -> & Hmatch).
    destruct (run_complete r prev u t Hmatch (S (length (u ++ t)))
                {| before := prev; rest := u ++ t; pos := i; caps := [] |})
      as (st' & Hin & _); [reflexivity|reflexivity|simpl; lia|].
    destruct (run _ r _) as [|st0 sts]; [destruct Hin|].
    eexists. reflexivity.
Qed.

Lemma search_is_Some r s : forall prev i,
  (exists m, search r prev s i = Some m)
  <-> exists pre u t, s = pre ++ u ++ t /\ matches r (lastOr prev pre) u t.
Proof.
  induction s as [|c s IH]; intros prev i; cbn [search].
  - split.
    + intros (m & Hm).
      destruct (matchAt r prev [] i) as [m'|] eqn:Hat; [|discriminate].
      destruct (proj1 (matchAt_is_Some r prev [] i)) as (u & t & Hs & Hmatch);
        [eexists; exact Hat|].
      exists [], u, t. split; assumption.
    + intros (pre & u & t & Hs & Hmatch).
      symmetry in Hs. apply app_eq_nil in Hs as [-> Hs].
      destruct (proj2 (matchAt_is_Some r prev [] i)) as (m & Hm);
        [exists u, t; split; [symmetry; exact Hs|exact Hmatch]|].
      rewrite Hm. eexists. reflexivity.
  - split.
    + intros (m & Hm).
      destruct (matchAt r prev (c :: s) i) as [m'|] eqn:Hat.
      * destruct (proj1 (matchAt_is_Some r prev (c :: s) i))
          as (u & t & Hs & Hmatch); [eexists; exact Hat|].
        exists [], u, t. split; assumption.
      * destruct (proj1 (IH (Some c) (S i))) as (pre & u & t & Hs & Hmatch);
          [eexists; exact Hm|].
        exists (c :: pre), u, t. split; [simpl; rewrite Hs; reflexivity|].
        change (c :: pre) with ([c] ++ pre).
        rewrite <- (lastOr_app prev [c] pre). exact Hmatch.
    + intros (pre & u & t & Hs & Hmatch).
      destruct (matchAt r prev (c :: s) i) as [m'|] eqn:Hat;
        [eexists; reflexivity|].
      destruct pre as [|c' pre].
      * destruct (proj2 (matchAt_is_Some r prev (c :: s) i)) as (m & Hm);
          [exists u, t; split; assumption|].
        congruence.
      * simpl in Hs. inversion Hs; subst c' s.
        apply (IH (Some c) (S i)). exists pre, u, t. split; [reflexivity|].
        change (c :: pre) with ([c] ++ pre) in Hmatch.
        rewrite <- (lastOr_app prev [c] pre) in Hmatch. exact Hmatch.
Qed.

(** A pattern that begins with [^] is tested at the start only. *)
Lemma test_anchored r s :
  test (Seq Bol r) s = true <-> exists u t, s = u ++ t /\ matches r None u t.
Proof.
  unfold test. split.
  - intros H.
    destruct (search (Seq Bol r) None s 0) as [m|] eqn:Hsearch; [|discriminate].
    destruct (proj1 (search_is_Some (Seq Bol r) s None 0))
      as (pre & u & t & Hs & Hmatch); [eexists; exact Hsearch|].
    apply matches_seq in Hmatch as (u1 & u2 & -> & H1 & H2).
    apply matches_bol in H1 as [Hnone ->].
    assert (pre = []) as ->.
    { destruct pre as [|c pre] using rev_ind; [reflexivity|].
      unfold lastOr in Hnone. rewrite last_snoc in Hnone. discriminate. }
    exists u2, t. split; [exact Hs|]. rewrite Hnone in H2. exact H2.
  - intros (u & t & Hs & Hmatch).
    destruct (proj2 (search_is_Some (Seq Bol r) s None 0)) as (m & Hm).
    + exists [], u, t. split; [exact Hs|].
      apply matches_seq. exists [], u. repeat apply conj; [reflexivity| |].
      * apply matches_bol. split; reflexivity.
      * exact Hmatch.
    + rewrite Hm. reflexivity.
Qed.

End Matcher.

(** ** Domain validation *)

Section DomainValidation.

Lemma in_range lo hi c : In c (range lo hi) <-> (lo <= c <= hi)%N.
Proof.
  unfold range. rewrite in_map_iff. split.
  - intros (k & <- & Hk). apply in_seq in Hk. lia.
  - intros Hc. exists (N.to_nat (c - lo)). split; [lia|]. apply in_seq. lia.
Qed.

Lemma in_alpha c : In c DomainPattern.alpha <-> isAlpha c = true.
Proof.
  unfold DomainPattern.alpha, isAlpha.
  rewrite in_app_iff, !in_range, orb_true_iff, !andb_true_iff, !N.leb_le.
  reflexivity.
Qed.

Lemma in_alnum c : In c DomainPattern.alnum <-> isAlnum c = true.
Proof.
  unfold DomainPattern.alnum, isAlnum, isAlpha.
  rewrite !in_app_iff, !in_range, !orb_true_iff, !andb_true_iff, !N.leb_le.
  tauto.
Qed.

Lemma in_alnumHyphen c :
  In c (DomainPattern.alnum ++ [45%N]) <-> isAlnumHyphen c = true.
Proof.
  unfold isAlnumHyphen.
  rewrite in_app_iff, in_alnum, orb_true_iff, N.eqb_eq.
  split; intros [H|H].
  - left. exact H.
  - right. destruct H as [H|[]]. symmetry. exact H.
  - left. exact H.
  - right. left. symmetry. exact H.
Qed.

Lemma matches_oneOf cs p u t :
  matches (oneOf cs) p u t <-> exists c, u = [c] /\ In c cs.
Proof.
  induction cs as [|c0 cs IH]; cbn [oneOf foldr].
  - split.
    + intros H. apply matches_class in H as (c & _ & Hc). discriminate.
    + intros (c & _ & []).
  - fold (oneOf cs). rewrite matches_alt, matches_chr, IH. split.
    + intros [->|(c & -> & Hc)]; eexists; (split; [reflexivity|]);
        [left; reflexivity|right; exact Hc].
    + intros (c & -> & [->|Hc]); [left; reflexivity|right].
      exists c. split; [reflexivity|exact Hc].
Qed.

Lemma matches_upTo cs n : forall p u t,
  matches (upTo n (oneOf cs)) p u t
  <-> length u <= n /\ Forall (fun c => In c cs) u.
Proof.
  induction n as [|n IH]; intros p u t; cbn [upTo].
  - rewrite matches_eps. split.
    + intros ->. split; [simpl; lia|constructor].
    + intros [Hlen _]. destruct u; [reflexivity|simpl in Hlen; lia].
  - rewrite matches_alt, matches_seq, matches_eps. split.
    + intros [(u1 & u2 & -> & H1 & H2)| ->].
      * apply matches_oneOf in H1 as (c & -> & Hc).
        apply IH in H2 as [Hlen Hall].
        split; [simpl; lia|constructor; assumption].
      * split; [simpl; lia|constructor].
    + intros [Hlen Hall]. destruct u as [|c u]; [right; reflexivity|left].
      apply Forall_cons in Hall as [Hc Hall].
      exists [c], u. repeat apply conj; [reflexivity| |].
      * apply matches_oneOf. exists c. split; [reflexivity|exact Hc].
      * apply IH. split; [simpl in Hlen; lia|exact Hall].
Qed.

Lemma matches_plus_oneOf cs p u t :
  matches (Plus (oneOf cs)) p u t
  <-> u <> [] /\ Forall (fun c => In c cs) u.
Proof.
  split.
  - intros H. remember (Plus (oneOf cs)) as r eqn:Hr.
    induction H as [| | | | | |r0 p u t H _|r0 p u1 u2 t H1 _ Hne _ IH| | | |];
      try discriminate; inversion Hr; subst r0.
    + apply matches_oneOf in H as (c & -> & Hc).
      split; [discriminate|constructor; [exact Hc|constructor]].
    + apply matches_oneOf in H1 as (c & -> & Hc).
      destruct (IH eq_refl) as [_ Hall].
      split; [discriminate|constructor; assumption].
  - intros [Hne Hall]. revert p.
    induction u as [|c u IH]; intros p; [congruence|].
    apply Forall_cons in Hall as [Hc Hall].
    assert (Hone : forall q t', matches (oneOf cs) q [c] t')
      by (intros; apply matches_oneOf; exists c; split; [reflexivity|exact Hc]).
    destruct u as [|c' u'].
    + apply m_plus_one, Hone.
    + change (c :: c' :: u') with ([c] ++ c' :: u').
      apply m_plus_more; [apply Hone|discriminate|].
      apply IH; [discriminate|exact Hall].
Qed.

Lemma matches_atLeast cs m : forall p u t,
  matches (atLeast m (oneOf cs)) p u t
  <-> m <= length u /\ Forall (fun c => In c cs) u.
Proof.
  induction m as [|m IH]; intros p u t; cbn [atLeast].
  - unfold star. rewrite matches_alt, matches_plus_oneOf, matches_eps. split.
    + intros [[_ Hall]| ->]; (split; [lia|]); [exact Hall|constructor].
    + intros [_ Hall]. destruct u; [right; reflexivity|left].
      split; [discriminate|exact Hall].
  - rewrite matches_seq. split.
    + intros (u1 & u2 & -> & H1 & H2).
      apply matches_oneOf in H1 as (c & -> & Hc).
      apply IH in H2 as [Hlen Hall].
      split; [simpl; lia|constructor; assumption].
    + intros [Hlen Hall]. destruct u as [|c u]; [simpl in Hlen; lia|].
      apply Forall_cons in Hall as [Hc Hall].
      exists [c], u. repeat apply conj; [reflexivity| |].
      * apply matches_oneOf. exists c. split; [reflexivity|exact Hc].
      * apply IH. split; [simpl in Hlen; lia|exact Hall].
Qed.

Lemma alnum_alnumHyphen c : isAlnum c = true -> isAlnumHyphen c = true.
Proof. unfold isAlnumHyphen. intros ->. reflexivity. Qed.

(** The label group matches a valid label and its dot. *)
Lemma matches_label p u t :
  matches DomainPattern.label p u t
  <-> exists l, u = l ++ [46%N] /\ validLabel l.
Proof.
  unfold DomainPattern.label, opt.
  rewrite matches_group, matches_seq. split.
  - intros (u1 & u2 & -> & H1 & H2).
    apply matches_oneOf in H1 as (c & -> & Hc). apply in_alnum in Hc.
    apply matches_seq in H2 as (u3 & u4 & -> & H3 & H4).
    apply matches_chr in H4 as ->.
    apply matches_alt in H3 as [H3|H3].
    + apply matches_group, matches_seq in H3 as (m & e & -> & Hm & He).
      apply matches_upTo in Hm as [Hlen Hall].
      apply matches_oneOf in He as (c' & -> & Hc'). apply in_alnum in Hc'.
      exists (c :: m ++ [c']). split; [simpl; rewrite <- app_assoc; reflexivity|].
      unfold validLabel. repeat apply conj.
      * simpl. lia.
      * simpl. rewrite length_app. simpl. lia.
      * constructor; [apply alnum_alnumHyphen, Hc|].
        apply Forall_app. split.
        -- eapply Forall_impl; [exact Hall|]. intros x Hx.
           apply in_alnumHyphen, Hx.
        -- constructor; [apply alnum_alnumHyphen, Hc'|constructor].
      * intros x Hx. inversion Hx. subst. exact Hc.
      * intros x Hx. change (c :: m ++ [c']) with ((c :: m) ++ [c']) in Hx.
        rewrite last_snoc in Hx. inversion Hx. subst. exact Hc'.
    + apply matches_eps in H3 as ->.
      exists [c]. split; [reflexivity|].
      unfold validLabel. repeat apply conj.
      * simpl. lia.
      * simpl. lia.
      * constructor; [apply alnum_alnumHyphen, Hc|constructor].
      * intros x Hx. inversion Hx. subst. exact Hc.
      * intros x Hx. inversion Hx. subst. exact Hc.
  - intros (l & -> & (Hlen1 & Hlen2) & Hall & Hhead & Hlast).
    destruct l as [|c o]; [simpl in Hlen1; lia|].
    assert (Hc : isAlnum c = true) by (apply Hhead; reflexivity).
    exists [c], (o ++ [46%N]). repeat apply conj; [reflexivity| |].
    + apply matches_oneOf. exists c. split; [reflexivity|apply in_alnum, Hc].
    + apply matches_seq. exists o, [46%N]. repeat apply conj; [reflexivity| |].
      * apply matches_alt.
        destruct o as [|c' m] using rev_ind; [right; apply matches_eps; reflexivity|].
        clear IHm. left. apply matches_group, matches_seq.
        exists m, [c']. repeat apply conj; [reflexivity| |].
        -- apply matches_upTo. split.
           ++ simpl in Hlen2. rewrite length_app in Hlen2. simpl in Hlen2. lia.
           ++ apply Forall_cons in Hall as [_ Hall].
              apply Forall_app in Hall as [Hall _].
              eapply Forall_impl; [exact Hall|]. intros x Hx.
              apply in_alnumHyphen, Hx.
        -- apply matches_oneOf. exists c'. split; [reflexivity|].
           apply in_alnum, Hlast.
           change (c :: m ++ [c']) with ((c :: m) ++ [c']).
           apply last_snoc.
      * apply matches_chr. reflexivity.
Qed.

Lemma matches_labels p u t :
  matches (Plus DomainPattern.label) p u t
  <-> exists labels,
        labels <> []
        /\ u = concat (map (fun l => l ++ [46%N]) labels)
        /\ Forall validLabel labels.
Proof.
  split.
  - intros H. remember (Plus DomainPattern.label) as r eqn:Hr.
    induction H as [| | | | | |r0 p u t H _|r0 p u1 u2 t H1 _ Hne _ IH| | | |];
      try discriminate; inversion Hr; subst r0.
    + apply matches_label in H as (l & -> & Hl).
      exists [l]. repeat apply conj;
        [discriminate|simpl; rewrite app_nil_r; reflexivity
        |constructor; [exact Hl|constructor]].
    + apply matches_label in H1 as (l & -> & Hl).
      destruct (IH eq_refl) as (labels & _ & -> & Hall).
      exists (l :: labels). repeat apply conj;
        [discriminate|reflexivity|constructor; assumption].
  - intros (labels & Hne & -> & Hall). revert p.
    induction labels as [|l labels IH]; intros p; [congruence|].
    apply Forall_cons in Hall as [Hl Hall].
    assert (Hone : forall q t', matches DomainPattern.label q (l ++ [46%N]) t')
      by (intros; apply matches_label; exists l; split; [reflexivity|exact Hl]).
    destruct labels as [|l' labels'].
    + simpl. rewrite app_nil_r. apply m_plus_one, Hone.
    + cbn [map concat]. apply m_plus_more.
      * apply Hone.
      * destruct l; discriminate.
      * apply IH; [discriminate|exact Hall].
Qed.

Lemma test_domainRegex d :
  test DomainPattern.domainRegex d = true <-> validDomain d.
Proof.
  unfold DomainPattern.domainRegex. rewrite test_anchored. split.
  - intros (u & t & -> & H).
    apply matches_seq in H as (u1 & u2 & -> & H1 & H2).
    apply matches_labels in H1 as (labels & Hne & -> & Hall).
    apply matches_seq in H2 as (u3 & u4 & -> & H3 & H4).
    apply matches_atLeast in H3 as [Hlen Halpha].
    apply matches_eol in H4 as [-> ->].
    exists labels, u3. rewrite !app_nil_r. repeat apply conj;
      [reflexivity|exact Hne|exact Hall|exact Hlen|].
    eapply Forall_impl; [exact Halpha|]. intros c Hc. apply in_alpha, Hc.
  - intros (labels & tld & -> & Hne & Hall & Hlen & Halpha).
    exists (concat (map (fun l => l ++ [46%N]) labels) ++ tld), [].
    split; [rewrite app_nil_r; reflexivity|].
    apply matches_seq. eexists _, tld. repeat apply conj; [reflexivity| |].
    + apply matches_labels. exists labels. repeat apply conj;
        [exact Hne|reflexivity|exact Hall].
    + apply matches_seq. exists tld, []. repeat apply conj.
      * rewrite app_nil_r. reflexivity.
      * apply matches_atLeast. split; [exact Hlen|].
        eapply Forall_impl; [exact Halpha|]. intros c Hc. apply in_alpha, Hc.
      * apply matches_eol. split; reflexivity.
Qed.

Lemma validDomain_long d : validDomain d -> 4 <= length d.
Proof.
  intros (labels & tld & -> & Hne & Hall & Hlen & _).
  destruct labels as [|l labels]; [congruence|].
  apply Forall_cons in Hall as [((Hl & _) & _) _].
  cbn [map concat]. rewrite !length_app. simpl. lia.
Qed.

Lemma validateDomain_iff d : validateDomain d = true <-> validDomain d.
Proof.
  unfold validateDomain. destruct d as [|c d].
  - split; [discriminate|]. intros H. apply validDomain_long in H.
    simpl in H. lia.
  - apply test_domainRegex.
Qed.

(** [validateDomain] accepts exactly the texts made of one or more labels,
    each of 1 to 63 letters, digits and hyphens without a hyphen at either
    end and each followed by a dot, and then of two or more letters. *)
Theorem validateDomain_accepts_valid_domains d :
  validateDomain d = true <-> validDomain d.
Proof. exact (validateDomain_iff d). Qed.

(** The guard of [validateDomain] against the empty text changes nothing:
    the copy of the checker without it refuses the empty text as well, and
    the two agree on every text. *)
Theorem validateDomain_guard_redundant d :
  Sibling.validateDomain d = validateDomain d.
Proof.
  unfold Sibling.validateDomain, validateDomain.
  destruct d as [|c d]; [|reflexivity]. vm_compute. reflexivity.
Qed.

Lemma validDomain_characters d :
  validDomain d -> Forall (fun c => isAlnumHyphen c = true \/ c = 46%N) d.
Proof.
  intros (labels & tld & -> & _ & Hall & _ & Halpha).
  apply Forall_app. split.
  - clear Halpha. induction Hall as [|l labels Hl _ IH]; [constructor|].
    cbn [map concat]. apply Forall_app. split; [|exact IH].
    apply Forall_app. split.
    + destruct Hl as (_ & Hchars & _).
      eapply Forall_impl; [exact Hchars|]. intros c Hc. left. exact Hc.
    + constructor; [right; reflexivity|constructor].
  - eapply Forall_impl; [exact Halpha|]. intros c Hc. left.
    unfold isAlnumHyphen, isAlnum. rewrite Hc. reflexivity.
Qed.

(** A text that [validateDomain] accepts holds letters, digits, hyphens and
    dots only: no white space, no underscore, nothing that is not ASCII. *)
Theorem validateDomain_characters d :
  validateDomain d = true ->
  Forall (fun c => isAlnumHyphen c = true \/ c = 46%N) d.
Proof.
  intros H. apply validDomain_characters, validateDomain_iff, H.
Qed.

(** A text that [validateDomain] accepts ends with a dot and two or more
    letters after it: a name of one label, a name whose last label has a
    digit or a hyphen, and an IPv4 address are refused. *)
Theorem validateDomain_alphabetic_tld d :
  validateDomain d = true ->
  exists front tld,
    d = front ++ [46%N] ++ tld
    /\ front <> []
    /\ 2 <= length tld
    /\ Forall (fun c => isAlpha c = true) tld.
Proof.
  intros H. apply validateDomain_iff in H
    as (labels & tld & -> & Hne & Hall & Hlen & Halpha).
  destruct labels as [|l labels] using rev_ind; [congruence|]. clear IHlabels.
  exists (concat (map (fun l0 => l0 ++ [46%N]) labels) ++ l), tld.
  repeat apply conj; [|  |exact Hlen|exact Halpha].
  - rewrite map_app, concat_app. simpl. rewrite app_nil_r, <- !app_assoc.
    reflexivity.
  - apply Forall_app in Hall as [_ Hl]. apply Forall_cons in Hl as [((Hl & _) & _) _].
    intros Heq. apply (f_equal length) in Heq. rewrite length_app in Heq.
    simpl in Heq. lia.
Qed.

End DomainValidation.

(** ** Escaping *)

Section Escaping.

Local Arguments run : simpl never.

Lemma run_oneOf cs fuel st :
  hd_error (run fuel (oneOf cs) st)
  = match rest st with
    | c :: t => if inb c cs then Some (advance st c t) else None
    | [] => None
    end.
Proof.
  induction cs as [|c0 cs IH]; cbn [oneOf foldr].
  - unfold none. rewrite run_eq. destruct (rest st); reflexivity.
  - fold (oneOf cs). rewrite run_eq, (run_eq _ (Chr c0)).
    destruct (rest st) as [|c t] eqn:Hrest; [exact IH|].
    cbn [inb existsb]. destruct (N.eqb c0 c) eqn:Hc; [reflexivity|].
    exact IH.
Qed.

Lemma matchAt_oneOf cs prev s i :
  matchAt (oneOf cs) prev s i
  = match s with
    | c :: _ =>
        if inb c cs
        then Some {| index := i; matched := [c]; groups := []; endIndex := S i |}
        else None
    | [] => None
    end.
Proof.
  unfold matchAt.
  pose proof (run_oneOf cs (S (length s))
                {| before := prev; rest := s; pos := i; caps := [] |}) as H.
  cbn [rest] in H.
  destruct (run _ (oneOf cs) _) as [|st' sts]; cbn [hd_error] in H.
  - destruct s as [|c t]; [reflexivity|]. destruct (inb c cs); [discriminate|reflexivity].
  - destruct s as [|c t]; [discriminate|].
    destruct (inb c cs); [|discriminate]. inversion H. subst st'.
    cbn [advance pos caps]. replace (S i - i) with 1 by lia. reflexivity.
Qed.

Lemma search_oneOf cs t : forall prev i,
  match search (oneOf cs) prev t i with
  | Some m =>
      exists pre c post,
        t = pre ++ c :: post
        /\ Forall (fun x => inb x cs = false) pre
        /\ inb c cs = true
        /\ m = {| index := i + length pre; matched := [c]; groups := [];
                  endIndex := S (i + length pre) |}
  | None => Forall (fun x => inb x cs = false) t
  end.
Proof.
  induction t as [|c t IH]; intros prev i; cbn [search]; rewrite matchAt_oneOf.
  - constructor.
  - destruct (inb c cs) eqn:Hc.
    + exists [], c, t. repeat apply conj;
        [reflexivity|constructor|exact Hc|simpl; rewrite Nat.add_0_r; reflexivity].
    + specialize (IH (Some c) (S i)).
      destruct (search (oneOf cs) (Some c) t (S i)) as [m|].
      * destruct IH as (pre & c' & post & -> & Hpre & Hc' & ->).
        exists (c :: pre), c', post. repeat apply conj;
          [reflexivity|constructor; assumption|exact Hc'|].
        simpl. f_equal; lia.
      * constructor; assumption.
Qed.

Lemma flat_map_skip cs (h : N -> jsstring) pre :
  Forall (fun x => inb x cs = false) pre ->
  flat_map (fun c => if inb c cs then h c else [c]) pre = pre.
Proof.
  induction 1 as [|x pre Hx _ IH]; [reflexivity|].
  cbn [flat_map]. rewrite Hx, IH. reflexivity.
Qed.

(** Replacing every code unit of a bracket expression: each one is
    rewritten on its own and the others stay. *)
Lemma replaceWith_oneOf cs (h : jsstring -> jsstring) s :
  replaceWith (oneOf cs) (fun m => h (matched m)) s
  = flat_map (fun c => if inb c cs then h [c] else [c]) s.
Proof.
  unfold replaceWith, matchAll.
  set (g := fun c => if inb c cs then h [c] else [c]).
  assert (Hgen : forall fuel li,
             li <= length s -> length s - li < fuel ->
             spliceWith (matchLoop fuel (oneOf cs) s li) s li
                        (fun m => h (matched m))
             = flat_map g (drop li s)).
  { induction fuel as [|fuel IH]; intros li Hli Hfuel; [lia|].
    cbn [matchLoop]. unfold exec.
    assert (Hnot : (length s <? li) = false) by (apply Nat.ltb_ge; lia).
    rewrite Hnot.
    pose proof (search_oneOf cs (drop li s) (last (take li s)) li) as Hsearch.
    destruct (search (oneOf cs) _ (drop li s) li) as [m|].
    - destruct Hsearch as (pre & c & post & Hdrop & Hpre & Hc & ->).
      cbn [matched endIndex index spliceWith].
      assert (Hlen : li + length pre < length s).
      { apply (f_equal length) in Hdrop.
        rewrite length_drop, length_app in Hdrop. simpl in Hdrop. lia. }
      rewrite IH by lia.
      replace (li + length pre - li) with (length pre) by lia.
      assert (Hpost : drop (S (li + length pre)) s = post).
      { replace (S (li + length pre)) with (li + S (length pre)) by lia.
        rewrite <- drop_drop, Hdrop.
        change (c :: post) with ([c] ++ post). rewrite app_assoc.
        replace (S (length pre)) with (length (pre ++ [c]))
          by (rewrite length_app; simpl; lia).
        apply drop_app_length. }
      rewrite Hpost, Hdrop, take_app_length, flat_map_app.
      cbn [flat_map]. unfold g at 2 3. rewrite Hc.
      rewrite (flat_map_skip cs (fun x => h [x]) pre Hpre).
      reflexivity.
    - cbn [spliceWith]. symmetry.
      apply (flat_map_skip cs (fun x => h [x]) _ Hsearch). }
  rewrite (Hgen (2 + length s) 0) by lia. reflexivity.
Qed.

Lemma escapeHtml_flat_map text : escapeHtml text = flat_map escapeChar text.
Proof.
  unfold escapeHtml.
  rewrite (replaceWith_oneOf [38; 60; 62; 34; 39]%N
             (fun k => default (js "undefined") (ownProperty escapeHtmlMap k))).
  apply flat_map_ext. intros c. unfold escapeChar, inb. cbn [existsb].
  rewrite !(N.eqb_sym _ c).
  destruct (c =? 38)%N eqn:H1; [apply N.eqb_eq in H1; subst; reflexivity|].
  destruct (c =? 60)%N eqn:H2; [apply N.eqb_eq in H2; subst; reflexivity|].
  destruct (c =? 62)%N eqn:H3; [apply N.eqb_eq in H3; subst; reflexivity|].
  destruct (c =? 34)%N eqn:H4; [apply N.eqb_eq in H4; subst; reflexivity|].
  destruct (c =? 39)%N eqn:H5; [apply N.eqb_eq in H5; subst; reflexivity|].
  reflexivity.
Qed.

Lemma escapeChar_plain c : isHtmlSpecial c = false -> escapeChar c = [c].
Proof.
  unfold isHtmlSpecial, inb, escapeChar. cbn [existsb].
  rewrite !(N.eqb_sym _ c).
  destruct (c =? 38)%N; [discriminate|].
  destruct (c =? 60)%N; [discriminate|].
  destruct (c =? 62)%N; [discriminate|].
  destruct (c =? 34)%N; [discriminate|].
  destruct (c =? 39)%N; [discriminate|]. reflexivity.
Qed.

Lemma escapeChar_special c :
  isHtmlSpecial c = true ->
  exists e, escapeChar c = 38%N :: e /\ 3 <= length e
            /\ Forall (fun x => isHtmlSpecial x = false) e.
Proof.
  unfold isHtmlSpecial, inb, escapeChar. cbn [existsb].
  rewrite !(N.eqb_sym _ c). intros H.
  destruct (c =? 38)%N;
    [eexists; repeat apply conj;
     [reflexivity|simpl; lia|repeat constructor]|].
  destruct (c =? 60)%N;
    [eexists; repeat apply conj;
     [reflexivity|simpl; lia|repeat constructor]|].
  destruct (c =? 62)%N;
    [eexists; repeat apply conj;
     [reflexivity|simpl; lia|repeat constructor]|].
  destruct (c =? 34)%N;
    [eexists; repeat apply conj;
     [reflexivity|simpl; lia|repeat constructor]|].
  destruct (c =? 39)%N;
    [eexists; repeat apply conj;
     [reflexivity|simpl; lia|repeat constructor]|].
  discriminate.
Qed.

Lemma escapeChar_length c : 1 <= length (escapeChar c).
Proof.
  destruct (isHtmlSpecial c) eqn:H.
  - destruct (escapeChar_special c H) as (e & -> & Hlen & _). simpl. lia.
  - rewrite (escapeChar_plain c H). simpl. lia.
Qed.

Lemma escape_length t : length t <= length (flat_map escapeChar t).
Proof.
  induction t as [|c t IH]; [reflexivity|].
  cbn [flat_map]. rewrite length_app. pose proof (escapeChar_length c).
  simpl. lia.
Qed.

(** No entity is the beginning of another one or of a code unit that is
    kept, so the escaped text can be read back in one way only. *)
Lemma escapeChar_prefix_free c d x y :
  escapeChar c ++ x = escapeChar d ++ y -> c = d /\ x = y.
Proof.
  unfold escapeChar. intros H.
  destruct (N.eqb_spec c 38); destruct (N.eqb_spec d 38);
  destruct (N.eqb_spec c 60); destruct (N.eqb_spec d 60);
  destruct (N.eqb_spec c 62); destruct (N.eqb_spec d 62);
  destruct (N.eqb_spec c 34); destruct (N.eqb_spec d 34);
  destruct (N.eqb_spec c 39); destruct (N.eqb_spec d 39);
  subst; try discriminate; cbv in H; inversion H; subst;
  try contradiction; split; reflexivity.
Qed.

(** [escapeHtml] rewrites every code unit on its own: the ampersand, the
    angle brackets and the two quotes become their entities, every other
    code unit stays, and nothing is looked up that the map does not have. *)
Theorem escapeHtml_per_character text :
  escapeHtml text = flat_map escapeChar text.
Proof. exact (escapeHtml_flat_map text). Qed.

(** The text that [escapeHtml] returns has no angle bracket and no quote,
    whatever the text it is given. *)
Theorem escapeHtml_no_markup text :
  Forall (fun c => c <> 60%N /\ c <> 62%N /\ c <> 34%N /\ c <> 39%N)
         (escapeHtml text).
Proof.
  rewrite escapeHtml_flat_map.
  induction text as [|c text IH]; [constructor|].
  cbn [flat_map]. apply Forall_app. split; [|exact IH].
  assert (Hweaken : forall e, Forall (fun x => isHtmlSpecial x = false) e ->
            Forall (fun c => c <> 60%N /\ c <> 62%N /\ c <> 34%N /\ c <> 39%N) e).
  { intros e He. eapply Forall_impl; [exact He|].
    intros x Hx. repeat apply conj; intros ->; discriminate Hx. }
  destruct (isHtmlSpecial c) eqn:Hc.
  - destruct (escapeChar_special c Hc) as (e & -> & _ & He).
    constructor; [repeat apply conj; discriminate|]. apply Hweaken, He.
  - rewrite (escapeChar_plain c Hc). apply Hweaken. constructor; [exact Hc|constructor].
Qed.

(** [escapeHtml] loses nothing: two texts with the same escaped text are
    the same text. *)
Theorem escapeHtml_injective a b : escapeHtml a = escapeHtml b -> a = b.
Proof.
  rewrite !escapeHtml_flat_map. revert b.
  induction a as [|c a IH]; intros [|d b] H.
  - reflexivity.
  - exfalso. apply (f_equal length) in H. cbn [flat_map] in H.
    rewrite length_app in H. pose proof (escapeChar_length d). simpl in H. lia.
  - exfalso. apply (f_equal length) in H. cbn [flat_map] in H.
    rewrite length_app in H. pose proof (escapeChar_length c). simpl in H. lia.
  - cbn [flat_map] in H. apply escapeChar_prefix_free in H as [-> H].
    f_equal. apply IH, H.
Qed.

Lemma escapeHtml_fixed_iff text :
  escapeHtml text = text <-> Forall (fun c => isHtmlSpecial c = false) text.
Proof.
  rewrite escapeHtml_flat_map. split.
  - induction text as [|c text IH]; [constructor|].
    cbn [flat_map]. intros H. destruct (isHtmlSpecial c) eqn:Hc.
    + exfalso. destruct (escapeChar_special c Hc) as (e & He & Hlen & _).
      rewrite He in H. apply (f_equal length) in H.
      pose proof (escape_length text).
      simpl in H. rewrite length_app in H. lia.
    + rewrite (escapeChar_plain c Hc) in H. inversion H as [H'].
      constructor; [exact Hc|]. rewrite H'. apply IH, H'.
  - induction 1 as [|c text Hc _ IH]; [reflexivity|].
    cbn [flat_map]. rewrite (escapeChar_plain c Hc), IH. reflexivity.
Qed.

(** An escaped text without special code units comes from a text without
    them: every entity begins with an ampersand. *)
Lemma escaped_plain text :
  Forall (fun c => isHtmlSpecial c = false) (flat_map escapeChar text) ->
  Forall (fun c => isHtmlSpecial c = false) text.
Proof.
  induction text as [|c text IH]; [constructor|].
  cbn [flat_map]. intros H. apply Forall_app in H as [Hc Htext].
  constructor; [|apply IH, Htext].
  destruct (isHtmlSpecial c) eqn:Hsp; [|reflexivity].
  destruct (escapeChar_special c Hsp) as (e & He & _).
  rewrite He in Hc. apply Forall_cons in Hc as [Hamp _]. discriminate Hamp.
Qed.

(** [escapeHtml] returns its text unchanged exactly when the text has none
    of the five special code units; and escaping a text a second time
    changes it again as soon as the first time changed it, since the
    entities bring ampersands. *)
Theorem escapeHtml_unchanged_iff text :
  (escapeHtml text = text <-> Forall (fun c => isHtmlSpecial c = false) text)
  /\ (escapeHtml text <> text ->
      escapeHtml (escapeHtml text) <> escapeHtml text).
Proof.
  split; [apply escapeHtml_fixed_iff|].
  intros Hchanged Hsame. apply Hchanged.
  apply escapeHtml_fixed_iff, escaped_plain.
  rewrite <- escapeHtml_flat_map. apply escapeHtml_fixed_iff, Hsame.
Qed.

End Escaping.

(** ** One check *)

Section OneCheck.

Variable fetch : jsstring -> FetchOutcome.
Variable toLowerCase : jsstring -> jsstring.
Variable displayResults : jsstring -> list jsstring -> Page -> Completion unit * Page.

Lemma checkSPF_invalid p :
  validateDomain (normalised toLowerCase p) = false ->
  exists message details,
    checkSPF fetch toLowerCase displayResults p
    = (Normal tt,
       {| world := world p; inputValue := normalised toLowerCase p;
          buttonDisabled := buttonDisabled p;
          shown := ErrorBox message details |}).
Proof.
  unfold checkSPF, normalised. intros H.
  destruct (toLowerCase (trim (inputValue p))) as [|c d] eqn:Hd.
  - eexists _, _. reflexivity.
  - rewrite H. eexists _, _. reflexivity.
Qed.

(** The page on which the request of the domain is made. *)
Lemma checkSPF_valid p :
  validateDomain (normalised toLowerCase p) = true ->
  checkSPF fetch toLowerCase displayResults p
  = let domain := normalised toLowerCase p in
    let w := {| visited := visited (world p);
                requests := requests (world p) ++ [domain] |} in
    let p' := {| world := w; inputValue := domain; buttonDisabled := true;
                 shown := LoadingBox |} in
    match resolve fetch domain with
    | Normal [] =>
        (Normal tt,
         setDisabled false
           (showError (js "No SPF record found for " ++ domain)
              (Some (js "This domain does not have an SPF record configured."))
              p'))
    | Normal spfRecords =>
        match displayResults domain spfRecords p' with
        | (Throw error, p'') =>
            (Normal tt,
             setDisabled false
               (showError (js "Error checking SPF: " ++ message error)
                  (Some (js "Please verify the domain name is correct and try again."))
                  p''))
        | (Diverge, p'') => (Diverge, p'')
        | (Normal u, p'') => (Normal u, setDisabled false p'')
        end
    | Throw error =>
        (Normal tt,
         setDisabled false
           (showError (js "Error checking SPF: " ++ message error)
              (Some (js "Please verify the domain name is correct and try again."))
              p'))
    | Diverge => (Diverge, p')
    end.
Proof.
  unfold checkSPF, normalised. intros H.
  destruct (toLowerCase (trim (inputValue p))) as [|c d] eqn:Hd;
    [discriminate H|].
  rewrite H. cbn [negb]. rewrite fetchSPFRecords_run.
  cbn [showLoading setDisabled setShown setWorld world inputValue
       buttonDisabled shown visited requests].
  destruct (resolve fetch (c :: d)) as [[|r rs]|e|]; try reflexivity.
  destruct (displayResults _ _ _) as [[u|e|] p'']; reflexivity.
Qed.

(** [checkSPF] makes no request and leaves the button alone when the
    trimmed, lower-cased input is not a valid domain, the empty input
    included: it returns with an error shown and the input box rewritten. *)
Theorem checkSPF_rejects_invalid_input p :
  ~ validDomain (normalised toLowerCase p) ->
  exists message details,
    checkSPF fetch toLowerCase displayResults p
    = (Normal tt,
       {| world := world p; inputValue := normalised toLowerCase p;
          buttonDisabled := buttonDisabled p;
          shown := ErrorBox message details |}).
Proof.
  intros H. apply checkSPF_invalid.
  destruct (validateDomain _) eqn:Hv; [|reflexivity].
  exfalso. apply H, validateDomain_iff, Hv.
Qed.

(** No error leaves [checkSPF]: what [fetchSPFRecords] or [displayResults]
    throws is caught and shown, as the error box whose message is
    [Error checking SPF: ] and the message of the error, and the button is
    enabled again. *)
Theorem checkSPF_never_throws p :
  let domain := normalised toLowerCase p in
  let loading :=
    {| world := {| visited := visited (world p);
                   requests := requests (world p) ++ [domain] |};
       inputValue := domain; buttonDisabled := true; shown := LoadingBox |} in
  let caught error p' :=
    (Normal tt,
     {| world := world p'; inputValue := inputValue p'; buttonDisabled := false;
        shown := ErrorBox (js "Error checking SPF: " ++ message error)
                   (Some (js "Please verify the domain name is correct and try again."))
     |}) in
  (forall e, fst (checkSPF fetch toLowerCase displayResults p) <> Throw e)
  /\ (forall error,
        validDomain domain ->
        resolve fetch domain = Throw error ->
        checkSPF fetch toLowerCase displayResults p = caught error loading)
  /\ (forall record0 records error p',
        validDomain domain ->
        resolve fetch domain = Normal (record0 :: records) ->
        displayResults domain (record0 :: records) loading = (Throw error, p') ->
        checkSPF fetch toLowerCase displayResults p = caught error p').
Proof.
  cbv zeta. repeat apply conj.
  - intros e. destruct (validateDomain (normalised toLowerCase p)) eqn:Hv.
    + rewrite (checkSPF_valid p Hv). cbv zeta.
      destruct (resolve fetch _) as [[|r rs]|e'|]; try discriminate.
      destruct (displayResults _ _ _) as [[u|e'|] p'']; discriminate.
    + destruct (checkSPF_invalid p Hv) as (m & d & ->). discriminate.
  - intros error Hd Hres. apply validateDomain_iff in Hd.
    rewrite (checkSPF_valid p Hd). cbv zeta. rewrite Hres. reflexivity.
  - intros record0 records error p' Hd Hres Hdisplay.
    apply validateDomain_iff in Hd.
    rewrite (checkSPF_valid p Hd). cbv zeta. rewrite Hres, Hdisplay.
    reflexivity.
Qed.

(** When [checkSPF] returns, the button is enabled if it was enabled
    before; and it is enabled in any case when the input was a valid
    domain, whatever [displayResults] did to it. *)
Theorem checkSPF_reenables_button p :
  fst (checkSPF fetch toLowerCase displayResults p) = Normal tt ->
  buttonDisabled p = false \/ validDomain (normalised toLowerCase p) ->
  buttonDisabled (snd (checkSPF fetch toLowerCase displayResults p)) = false.
Proof.
  destruct (validateDomain (normalised toLowerCase p)) eqn:Hv.
  - rewrite (checkSPF_valid p Hv). cbv zeta. intros Hret _. revert Hret.
    destruct (resolve fetch _) as [[|r rs]|e'|]; try reflexivity;
      try discriminate.
    destruct (displayResults _ _ _) as [[u|e'|] p'']; try reflexivity.
    discriminate.
  - destruct (checkSPF_invalid p Hv) as (m & d & ->). intros _ [Hb|Hd].
    + exact Hb.
    + apply validateDomain_iff in Hd. congruence.
Qed.

(** For a valid domain that has no SPF record or whose lookup fails,
    [checkSPF] makes the one request of the domain, shows an error and
    returns with the button enabled; [displayResults] is not called. *)
Theorem checkSPF_shows_lookup_failure p :
  validDomain (normalised toLowerCase p) ->
  firstRecord (resolve fetch (normalised toLowerCase p)) = None ->
  exists message details,
    checkSPF fetch toLowerCase displayResults p
    = (Normal tt,
       {| world := {| visited := visited (world p);
                      requests := requests (world p) ++ [normalised toLowerCase p] |};
          inputValue := normalised toLowerCase p;
          buttonDisabled := false;
          shown := ErrorBox message details |}).
Proof.
  intros Hd Hnone. apply validateDomain_iff in Hd.
  rewrite (checkSPF_valid p Hd). cbv zeta.
  pose proof (resolve_not_diverge fetch (normalised toLowerCase p)) as Hdiv.
  destruct (resolve fetch _) as [[|r rs]|e'|].
  - eexists _, _. reflexivity.
  - discriminate Hnone.
  - eexists _, _. reflexivity.
  - contradiction.
Qed.

(** For a valid domain with SPF records, [displayResults] gets the
    normalised domain, which has letters, digits, hyphens and dots only,
    and the records, on a page where the one request of the domain was
    made, the loading box is shown and the button is disabled; [checkSPF]
    makes no request after it. *)
Theorem checkSPF_displays_valid_domain p record0 :
  validDomain (normalised toLowerCase p) ->
  firstRecord (resolve fetch (normalised toLowerCase p)) = Some record0 ->
  exists spfRecords,
    resolve fetch (normalised toLowerCase p) = Normal (record0 :: spfRecords)
    /\ Forall (fun c => isAlnumHyphen c = true \/ c = 46%N)
              (normalised toLowerCase p)
    /\ world (snd (checkSPF fetch toLowerCase displayResults p))
       = world (snd (displayResults (normalised toLowerCase p)
                       (record0 :: spfRecords)
                       {| world := {| visited := visited (world p);
                                      requests := requests (world p)
                                                  ++ [normalised toLowerCase p] |};
                          inputValue := normalised toLowerCase p;
                          buttonDisabled := true;
                          shown := LoadingBox |})).
Proof.
  intros Hd Hsome.
  pose proof Hd as Hv. apply validateDomain_iff in Hv.
  destruct (resolve fetch (normalised toLowerCase p)) as [[|r rs]|e'|] eqn:Hres;
    try discriminate Hsome.
  injection Hsome as ->. exists rs. repeat apply conj.
  - reflexivity.
  - apply validDomain_characters, Hd.
  - rewrite (checkSPF_valid p Hv). cbv zeta. rewrite Hres.
    destruct (displayResults _ _ _) as [[u|e'|] p'']; reflexivity.
Qed.

End OneCheck.

(** ** Trimming *)

Section Trimming.

Lemma trimStart_suffix s : exists pre, s = pre ++ trimStart s.
Proof.
  induction s as [|c s [pre IH]]; [exists []; reflexivity|].
  cbn [trimStart]. destruct (isWhiteSpace c).
  - exists (c :: pre). simpl. f_equal. exact IH.
  - exists []. reflexivity.
Qed.

Lemma trimStart_tight s : startsTight (trimStart s).
Proof.
  induction s as [|c s IH]; [intros c H; discriminate H|].
  cbn [trimStart]. destruct (isWhiteSpace c) eqn:Hc; [exact IH|].
  intros c' H. injection H as <-. exact Hc.
Qed.

Lemma trimStart_id s : startsTight s -> trimStart s = s.
Proof.
  destruct s as [|c s]; [reflexivity|]. intros H.
  cbn [trimStart]. rewrite (H c eq_refl). reflexivity.
Qed.

Lemma trim_tight s : startsTight (trim s) /\ startsTight (reverse (trim s)).
Proof.
  unfold trim. rewrite reverse_involutive. split; [|apply trimStart_tight].
  destruct (trimStart_suffix (reverse (trimStart s))) as [pre Hpre].
  apply (f_equal reverse) in Hpre.
  rewrite reverse_involutive, reverse_app in Hpre.
  pose proof (trimStart_tight s) as Htight. rewrite Hpre in Htight.
  destruct (reverse (trimStart (reverse (trimStart s)))) as [|c u];
    [intros c H; discriminate H|].
  intros c' H. injection H as <-. apply Htight. reflexivity.
Qed.

Lemma trim_id s : startsTight s -> startsTight (reverse s) -> trim s = s.
Proof.
  intros H1 H2. unfold trim.
  rewrite (trimStart_id s H1), (trimStart_id _ H2). apply reverse_involutive.
Qed.

Lemma trim_trim s : trim (trim s) = trim s.
Proof. apply trim_id; apply trim_tight. Qed.

(** [trim] leaves no white space at either end and takes nothing else
    away: the text is the trimmed text between two runs of white space. *)
Lemma trim_strips_both_ends s :
  exists front back,
    s = front ++ trim s ++ back
    /\ Forall (fun c => isWhiteSpace c = true) front
    /\ Forall (fun c => isWhiteSpace c = true) back
    /\ startsTight (trim s) /\ startsTight (reverse (trim s)).
Proof.
  assert (Hrun : forall t, exists pre,
             t = pre ++ trimStart t /\ Forall (fun c => isWhiteSpace c = true) pre).
  { induction t as [|c t (pre & IH & Hpre)]; [exists []; split; [reflexivity|constructor]|].
    cbn [trimStart]. destruct (isWhiteSpace c) eqn:Hc.
    - exists (c :: pre). split; [simpl; f_equal; exact IH|constructor; assumption].
    - exists []. split; [reflexivity|constructor]. }
  destruct (Hrun s) as (front & Hfront & Hf).
  destruct (Hrun (reverse (trimStart s))) as (kcab & Hback & Hb).
  exists front, (reverse kcab). repeat apply conj.
  - unfold trim. rewrite <- reverse_app, <- Hback, reverse_involutive.
    exact Hfront.
  - exact Hf.
  - apply Forall_reverse, Hb.
  - apply trim_tight.
  - apply trim_tight.
Qed.

Variable fetch : jsstring -> FetchOutcome.
Variable toLowerCase : jsstring -> jsstring.
Variable displayResults : jsstring -> list jsstring -> Page -> Completion unit * Page.

(** A check after the input lost the focus does what a check before it
    would have done: the [blur] handler trims the input, and trimming twice
    is trimming once. *)
Theorem checkSPF_after_blur p :
  checkSPF fetch toLowerCase displayResults (onBlur p)
  = checkSPF fetch toLowerCase displayResults p.
Proof.
  unfold checkSPF, onBlur.
  cbn [setInputValue inputValue world buttonDisabled shown].
  rewrite trim_trim. reflexivity.
Qed.

End Trimming.

(** ** Domains that were visited before *)

Section Revisits.

Variable fetch : jsstring -> FetchOutcome.

Local Arguments countDNSLookups : simpl never.

Lemma forOf_all_seen recur ds : forall c w,
  (forall d, d ∈ ds -> d ∈ visited w) ->
  forOf ds c (visitInclude fetch recur) w = (Normal c, w).
Proof.
  induction ds as [|d ds IH]; intros c w Hall; [reflexivity|].
  cbn [forOf]. unfold bind.
  rewrite visitInclude_seen by (apply Hall, list_elem_of_here).
  apply IH. intros d' Hd'. apply Hall, list_elem_of_further, Hd'.
Qed.

(** A record whose include domains are all in [visited] already costs its
    own tokens only: no request is made and [visited] stays as it is,
    whatever the records of these domains hold. *)
Theorem countDNSLookups_visited_includes_skipped fuel spfRecord depth w :
  depth <= 10 ->
  (forall d, d ∈ includeDomains spfRecord -> d ∈ visited w) ->
  countDNSLookups fetch (S fuel) spfRecord depth w
  = (Normal (directCost spfRecord), w).
Proof.
  intros Hdepth Hall. rewrite countDNSLookups_unfold by exact Hdepth.
  apply forOf_all_seen, Hall.
Qed.

(** After [countDNSLookups] has returned, every include domain of its
    record is in [visited]; so a second call on the same [visited] set
    requests nothing and returns the direct cost of the record alone. *)
Theorem countDNSLookups_twice fuel spfRecord depth w :
  depth <= 10 -> 11 - depth < fuel ->
  let w' := snd (countDNSLookups fetch fuel spfRecord depth w) in
  (forall d, d ∈ includeDomains spfRecord -> d ∈ visited w')
  /\ countDNSLookups fetch fuel spfRecord depth w'
     = (Normal (directCost spfRecord), w').
Proof.
  intros Hdepth Hfuel w'. split.
  - apply countDNSLookups_marks_includes; assumption.
  - destruct fuel as [|fuel]; [lia|].
    rewrite (countDNSLookups_unfold fetch fuel spfRecord depth w') by exact Hdepth.
    apply forOf_all_seen. subst w'.
    apply countDNSLookups_marks_includes; [exact Hdepth|lia].
Qed.

Lemma forOf_counts recur ds : forall c w n w',
  (forall record0 w0,
      exists k w1, recur record0 w0 = (Normal k, w1)
                   /\ length (requests w1) <= length (requests w0) + k) ->
  forOf ds c (visitInclude fetch recur) w = (Normal n, w') ->
  length (requests w') + c <= length (requests w) + n + length ds.
Proof.
  induction ds as [|d ds IH]; intros c w n w' Hrec; cbn [forOf].
  - intros H. injection H as <- <-. simpl. lia.
  - unfold bind. destruct (decide (d ∈ visited w)) as [Hin|Hout].
    + rewrite visitInclude_seen by exact Hin. intros H.
      apply IH in H; [|exact Hrec]. simpl. lia.
    + rewrite visitInclude_new by exact Hout.
      assert (Hmark : length (requests (mark d w)) = S (length (requests w)))
        by (cbn [mark requests]; rewrite length_app; simpl; lia).
      destruct (resolve fetch d) as [[|record0 records]|e|].
      * intros H. apply IH in H; [|exact Hrec]. simpl. lia.
      * destruct (Hrec record0 (mark d w)) as (k & w1 & -> & Hk).
        intros H. apply IH in H; [|exact Hrec]. simpl. lia.
      * intros H. apply IH in H; [|exact Hrec]. simpl. lia.
      * discriminate.
Qed.

Lemma countDNSLookups_counts fuel : forall spfRecord depth w,
  11 - depth < fuel ->
  exists n w',
    countDNSLookups fetch fuel spfRecord depth w = (Normal n, w')
    /\ length (requests w') <= length (requests w) + n.
Proof.
  induction fuel as [|fuel IH]; intros spfRecord depth w Hfuel; [lia|].
  destruct (decide (10 < depth)) as [Hdeep|Hshallow].
  - rewrite countDNSLookups_deep by exact Hdeep.
    eexists _, _. split; [reflexivity|lia].
  - rewrite countDNSLookups_unfold by lia.
    assert (Hrec : forall record0 w0,
               exists k w1,
                 countDNSLookups fetch fuel record0 (depth + 1) w0 = (Normal k, w1)
                 /\ length (requests w1) <= length (requests w0) + k)
      by (intros record0 w0; apply IH; lia).
    destruct (forOf_returns fetch
                (fun record0 => countDNSLookups fetch fuel record0 (depth + 1))
                (includeDomains spfRecord) (directCost spfRecord) w)
      as (n & w' & Heq & _).
    { intros record0 w0. destruct (Hrec record0 w0) as (k & w1 & Hk & _).
      exists k, w1. exact Hk. }
    exists n, w'. split; [exact Heq|].
    apply forOf_counts in Heq; [|exact Hrec].
    assert (Hlen : length (includeDomains spfRecord) <= directCost spfRecord).
    { unfold includeDomains, directCost. rewrite length_map. lia. }
    lia.
Qed.

(** [countDNSLookups] counts every lookup it makes: the number it returns
    is at least the number of requests of the traversal, since each
    requested domain is named by an [include:] token that was counted. *)
Theorem countDNSLookups_counts_every_request fuel spfRecord depth w :
  11 - depth < fuel ->
  exists n new w',
    countDNSLookups fetch fuel spfRecord depth w = (Normal n, w')
    /\ requests w' = requests w ++ new
    /\ length new <= n.
Proof.
  intros Hfuel.
  destruct (countDNSLookups_counts fuel spfRecord depth w Hfuel)
    as (n & w' & Heq & Hlen).
  destruct (countDNSLookups_extends fetch fuel spfRecord depth w)
    as (new & (Hreq & _) & _).
  rewrite Heq in Hreq. cbn [snd] in Hreq.
  exists n, new, w'. repeat apply conj; [exact Heq|exact Hreq|].
  rewrite Hreq, length_app in Hlen. lia.
Qed.

End Revisits.

(** ** Matches and their captures *)

Section Captures.

Local Arguments run : simpl never.

(** Every state that [run] returns is reached by a match that makes the
    captures that the state has more. *)
Lemma run_captures fuel : forall r st st',
  In st' (run fuel r st) ->
  exists u cs,
    rest st = u ++ rest st'
    /\ pos st' = pos st + length u
    /\ before st' = lastOr (before st) u
    /\ caps st' = cs ++ caps st
    /\ matchesC r (before st) u (rest st') cs.
Proof.
  induction fuel as [fuel IHf] using lt_wf_ind.
  induction r as [|c|cc|r1 IH1 r2 IH2|r1 IH1 r2 IH2|r1 IH1|n r1 IH1| | |];
    intros st st' Hin; rewrite run_eq in Hin.
  - destruct Hin as [<-|[]]. exists [], [].
    repeat apply conj; [reflexivity|simpl; lia|reflexivity|reflexivity|constructor].
  - destruct (rest st) as [|c' t] eqn:Hrest; [destruct Hin|].
    destruct (N.eqb c c') eqn:Hc; [|destruct Hin].
    apply N.eqb_eq in Hc. subst c'. destruct Hin as [<-|[]].
    exists [c], [].
    repeat apply conj; [reflexivity|simpl; lia|reflexivity|reflexivity|constructor].
  - destruct (rest st) as [|c' t] eqn:Hrest; [destruct Hin|].
    destruct (classMatches cc c') eqn:Hc; [|destruct Hin].
    destruct Hin as [<-|[]].
    exists [c'], [].
    repeat apply conj;
      [reflexivity|simpl; lia|reflexivity|reflexivity|constructor; exact Hc].
  - apply in_flat_map in Hin as (st1 & H1 & H2).
    apply IH1 in H1 as (u1 & cs1 & Hr1 & Hp1 & Hb1 & Hc1 & Hm1).
    apply IH2 in H2 as (u2 & cs2 & Hr2 & Hp2 & Hb2 & Hc2 & Hm2).
    exists (u1 ++ u2), (cs2 ++ cs1). repeat apply conj.
    + rewrite Hr1, Hr2. apply app_assoc.
    + rewrite Hp2, Hp1, length_app. lia.
    + rewrite Hb2, Hb1. apply lastOr_app.
    + rewrite Hc2, Hc1. apply app_assoc.
    + constructor; [rewrite <- Hr2; exact Hm1|rewrite <- Hb1; exact Hm2].
  - apply in_app_or in Hin as [Hin|Hin].
    + apply IH1 in Hin as (u & cs & Hr & Hp & Hb & Hc & Hm).
      exists u, cs. repeat apply conj; try assumption. apply c_alt_l, Hm.
    + apply IH2 in Hin as (u & cs & Hr & Hp & Hb & Hc & Hm).
      exists u, cs. repeat apply conj; try assumption. apply c_alt_r, Hm.
  - apply in_flat_map in Hin as (st1 & H1 & H2).
    apply IH1 in H1 as (u1 & cs1 & Hr1 & Hp1 & Hb1 & Hc1 & Hm1).
    apply in_app_or in H2 as [H2|[<-|[]]].
    + destruct fuel as [|fuel']; [destruct H2|].
      destruct (pos st <? pos st1) eqn:Hlt; [|destruct H2].
      apply Nat.ltb_lt in Hlt.
      apply (IHf fuel') in H2 as (u2 & cs2 & Hr2 & Hp2 & Hb2 & Hc2 & Hm2); [|lia].
      exists (u1 ++ u2), (cs2 ++ cs1). repeat apply conj.
      * rewrite Hr1, Hr2. apply app_assoc.
      * rewrite Hp2, Hp1, length_app. lia.
      * rewrite Hb2, Hb1. apply lastOr_app.
      * rewrite Hc2, Hc1. apply app_assoc.
      * apply c_plus_more.
        -- rewrite <- Hr2. exact Hm1.
        -- intros ->. simpl in Hp1. lia.
        -- rewrite <- Hb1. exact Hm2.
    + exists u1, cs1. repeat apply conj; try assumption. apply c_plus_one, Hm1.
  - apply in_map_iff in Hin as (st1 & <- & H1).
    apply IH1 in H1 as (u & cs & Hr & Hp & Hb & Hc & Hm).
    exists u, ((n, u) :: cs). cbn [setCapture rest pos before caps].
    repeat apply conj; try assumption.
    + rewrite Hc, Hr, Hp.
      replace (pos st + length u - pos st) with (length u) by lia.
      rewrite take_app_length. reflexivity.
    + constructor. exact Hm.
  - destruct (before st) eqn:Hb; [destruct Hin|]. destruct Hin as [<-|[]].
    exists [], []. rewrite Hb.
    repeat apply conj; [reflexivity|simpl; lia|reflexivity|reflexivity|constructor].
  - destruct (rest st) eqn:Hr; [|destruct Hin]. destruct Hin as [<-|[]].
    exists [], []. rewrite Hr.
    repeat apply conj; [reflexivity|simpl; lia|reflexivity|reflexivity|constructor].
  - destruct (xorb _ _) eqn:Hx; [|destruct Hin]. destruct Hin as [<-|[]].
    exists [], [].
    repeat apply conj;
      [reflexivity|simpl; lia|reflexivity|reflexivity|constructor; exact Hx].
Qed.

Lemma matchAt_captured r prev s i m :
  matchAt r prev s i = Some m ->
  index m = i
  /\ endIndex m = i + length (matched m)
  /\ s = matched m ++ drop (length (matched m)) s
  /\ captured r m.
Proof.
  unfold matchAt.
  destruct (run _ r _) as [|st' sts] eqn:Hrun; [discriminate|].
  intros H. injection H as <-.
  destruct (run_captures (S (length s)) r
              {| before := prev; rest := s; pos := i; caps := [] |} st')
    as (u & cs & Hr & Hp & _ & Hc & Hm); [rewrite Hrun; left; reflexivity|].
  cbn [rest pos before caps] in Hr, Hp, Hc, Hm.
  cbn [index endIndex matched groups].
  assert (Htake : take (pos st' - i) s = u).
  { rewrite Hp. replace (i + length u - i) with (length u) by lia.
    rewrite Hr at 1. apply take_app_length. }
  rewrite Htake. repeat apply conj.
  - reflexivity.
  - exact Hp.
  - rewrite Hr at 2. rewrite drop_app_length. exact Hr.
  - exists prev, (rest st'). cbn [matched groups]. rewrite Hc, app_nil_r.
    exact Hm.
Qed.

Lemma search_captured r s : forall prev i m,
  search r prev s i = Some m ->
  exists k,
    index m = i + k
    /\ endIndex m = index m + length (matched m)
    /\ drop k s = matched m ++ drop (k + length (matched m)) s
    /\ captured r m.
Proof.
  induction s as [|c s IH]; intros prev i m; cbn [search].
  - destruct (matchAt r prev [] i) as [m'|] eqn:Hat; [|discriminate].
    intros H. injection H as ->.
    apply matchAt_captured in Hat as (Hi & He & Hs & Hc).
    exists 0. rewrite Nat.add_0_r. repeat apply conj; try assumption.
    rewrite He, Hi. reflexivity.
  - destruct (matchAt r prev (c :: s) i) as [m'|] eqn:Hat.
    + intros H. injection H as ->.
      apply matchAt_captured in Hat as (Hi & He & Hs & Hc).
      exists 0. rewrite Nat.add_0_r. repeat apply conj; try assumption.
      rewrite He, Hi. reflexivity.
    + intros H. apply IH in H as (k & Hi & He & Hs & Hc).
      exists (S k). repeat apply conj; [lia|exact He|exact Hs|exact Hc].
Qed.

Lemma exec_captured r str lastIndex m lastIndex' :
  exec r str lastIndex = (Some m, lastIndex') ->
  lastIndex <= index m
  /\ lastIndex' = endIndex m
  /\ endIndex m = index m + length (matched m)
  /\ drop (index m) str = matched m ++ drop (endIndex m) str
  /\ captured r m.
Proof.
  unfold exec. destruct (length str <? lastIndex); [discriminate|].
  destruct (search r _ (drop lastIndex str) lastIndex) as [m'|] eqn:Hs;
    [|discriminate].
  intros H. injection H as -> <-.
  apply search_captured in Hs as (k & Hi & He & Hs & Hc).
  rewrite !drop_drop in Hs.
  repeat apply conj; [lia|reflexivity|exact He| |exact Hc].
  rewrite He, Hi. rewrite Hs. f_equal. f_equal. lia.
Qed.

Lemma matchLoop_captured r str fuel : forall lastIndex,
  Forall (captured r) (matchLoop fuel r str lastIndex).
Proof.
  induction fuel as [|fuel IH]; intros lastIndex; [constructor|].
  cbn [matchLoop].
  destruct (exec r str lastIndex) as [[m|] li] eqn:Hexec; [|constructor].
  constructor; [|apply IH].
  apply exec_captured in Hexec as (_ & _ & _ & _ & Hc). exact Hc.
Qed.

(** A replacer that keeps the text of each match keeps the whole text:
    what [replace] returns has the text it was given as a subsequence. *)
Lemma replaceWith_sublist r f str :
  (forall m, captured r m -> sublist (matched m) (f m)) ->
  sublist str (replaceWith r f str).
Proof.
  intros Hf. unfold replaceWith, matchAll.
  assert (Hgen : forall fuel lastIndex cur,
             cur <= lastIndex ->
             sublist (drop cur str)
                     (spliceWith (matchLoop fuel r str lastIndex) str cur f)).
  { induction fuel as [|fuel IH]; intros lastIndex cur Hcur; [reflexivity|].
    cbn [matchLoop].
    destruct (exec r str lastIndex) as [[m|] li] eqn:Hexec; [|reflexivity].
    apply exec_captured in Hexec as (Hle & -> & He & Hdrop & Hc).
    cbn [spliceWith].
    assert (Hsplit : drop cur str
                     = take (index m - cur) (drop cur str)
                       ++ matched m ++ drop (endIndex m) str).
    { rewrite <- Hdrop.
      rewrite <- (take_drop (index m - cur) (drop cur str)) at 1.
      rewrite drop_drop. f_equal. f_equal. lia. }
    rewrite Hsplit at 1.
    apply sublist_app; [reflexivity|].
    apply sublist_app; [apply Hf, Hc|].
    apply IH. destruct (matched m); lia. }
  apply (Hgen _ 0 0). lia.
Qed.

(** Replacers that agree on the matches give the same text. *)
Lemma replaceWith_ext r f g str :
  (forall m, captured r m -> f m = g m) ->
  replaceWith r f str = replaceWith r g str.
Proof.
  intros Hfg. unfold replaceWith, matchAll.
  assert (Hgen : forall ms, Forall (captured r) ms ->
                 forall cur, spliceWith ms str cur f = spliceWith ms str cur g).
  { induction 1 as [|m ms Hm _ IH]; intros cur; [reflexivity|].
    cbn [spliceWith]. rewrite (Hfg m Hm), IH. reflexivity. }
  apply Hgen, matchLoop_captured.
Qed.

(** *** Reading a match back *)

Lemma matchesC_eps p u t cs : matchesC Eps p u t cs -> u = [] /\ cs = [].
Proof. inversion 1. split; reflexivity. Qed.

Lemma matchesC_chr c p u t cs : matchesC (Chr c) p u t cs -> u = [c] /\ cs = [].
Proof. inversion 1. split; reflexivity. Qed.

Lemma matchesC_class cc p u t cs :
  matchesC (Class cc) p u t cs ->
  exists c, u = [c] /\ cs = [] /\ classMatches cc c = true.
Proof. inversion 1; subst. eexists. repeat apply conj; [reflexivity|reflexivity|assumption]. Qed.

Lemma matchesC_seq r1 r2 p u t cs :
  matchesC (Seq r1 r2) p u t cs ->
  exists u1 u2 cs1 cs2,
    u = u1 ++ u2 /\ cs = cs2 ++ cs1
    /\ matchesC r1 p u1 (u2 ++ t) cs1
    /\ matchesC r2 (lastOr p u1) u2 t cs2.
Proof.
  inversion 1; subst. eexists _, _, _, _.
  repeat apply conj; [reflexivity|reflexivity|eassumption|eassumption].
Qed.

Lemma matchesC_alt r1 r2 p u t cs :
  matchesC (Alt r1 r2) p u t cs -> matchesC r1 p u t cs \/ matchesC r2 p u t cs.
Proof. inversion 1; subst; [left|right]; assumption. Qed.

Lemma matchesC_group n r p u t cs :
  matchesC (Group n r) p u t cs ->
  exists cs', cs = (n, u) :: cs' /\ matchesC r p u t cs'.
Proof. inversion 1; subst. eexists. split; [reflexivity|assumption]. Qed.

Lemma matchesC_eol p u t cs : matchesC Eol p u t cs -> u = [] /\ cs = [].
Proof. inversion 1. split; reflexivity. Qed.

Lemma matchesC_wordb p u t cs : matchesC WordB p u t cs -> u = [] /\ cs = [].
Proof. inversion 1. split; reflexivity. Qed.

Lemma matchesC_lit s : forall p u t cs,
  matchesC (lit s) p u t cs -> u = s /\ cs = [].
Proof.
  induction s as [|c s IH]; intros p u t cs H; cbn [lit foldr] in H.
  - apply matchesC_eps in H. exact H.
  - apply matchesC_seq in H as (u1 & u2 & cs1 & cs2 & -> & -> & H1 & H2).
    apply matchesC_chr in H1 as [-> ->].
    apply IH in H2 as [-> ->]. split; reflexivity.
Qed.

Lemma matchesC_oneOf l : forall p u t cs,
  matchesC (oneOf l) p u t cs -> exists c, In c l /\ u = [c] /\ cs = [].
Proof.
  induction l as [|c0 l IH]; intros p u t cs H; cbn [oneOf foldr] in H.
  - unfold none in H. apply matchesC_class in H as (c & _ & _ & Hc).
    discriminate Hc.
  - apply matchesC_alt in H as [H|H].
    + apply matchesC_chr in H as [-> ->]. exists c0.
      repeat apply conj; [left; reflexivity|reflexivity|reflexivity].
    + apply IH in H as (c & Hc & -> & ->). exists c.
      repeat apply conj; [right; exact Hc|reflexivity|reflexivity].
Qed.

Lemma matchesC_plus_class cc p u t cs :
  matchesC (Plus (Class cc)) p u t cs -> u <> [] /\ cs = [].
Proof.
  remember (Plus (Class cc)) as r eqn:Hr. intros H. revert Hr.
  induction H; intros Hr; try discriminate Hr; injection Hr as ->.
  - apply matchesC_class in H as (c & -> & -> & _). split; [discriminate|reflexivity].
  - apply matchesC_class in H as (c & -> & -> & _).
    destruct (IHmatchesC2 eq_refl) as [_ ->]. split; [discriminate|reflexivity].
Qed.

Lemma captured_token p0 cc m :
  captured (Seq (lit p0) (Group 1 (Plus (Class cc)))) m ->
  matched m = p0 ++ group m 1 /\ group m 1 <> [].
Proof.
  intros (p & t & H). unfold group.
  apply matchesC_seq in H as (u1 & u2 & cs1 & cs2 & -> & -> & H1 & H2).
  apply matchesC_lit in H1 as [-> ->].
  apply matchesC_group in H2 as (cs' & -> & H2).
  apply matchesC_plus_class in H2 as [Hne ->].
  cbn [app assoc Nat.eqb default]. split; [reflexivity|exact Hne].
Qed.

Lemma captured_ip m :
  captured HighlightPattern.ip m ->
  (group m 1 = js "4" \/ group m 1 = js "6")
  /\ group m 2 <> []
  /\ matched m = js "ip" ++ group m 1 ++ js ":" ++ group m 2.
Proof.
  intros (p & t & H). unfold group, HighlightPattern.ip in *.
  apply matchesC_seq in H as (u1 & u2 & cs1 & cs2 & -> & -> & H1 & H2).
  apply matchesC_lit in H1 as [-> ->].
  apply matchesC_seq in H2 as (v1 & v2 & ds1 & ds2 & -> & -> & H2 & H3).
  apply matchesC_group in H2 as (ds' & -> & H2).
  apply matchesC_oneOf in H2 as (c & Hc & -> & ->).
  apply matchesC_seq in H3 as (w1 & w2 & es1 & es2 & -> & -> & H3 & H4).
  apply matchesC_chr in H3 as [-> ->].
  apply matchesC_group in H4 as (es' & -> & H4).
  apply matchesC_plus_class in H4 as [Hne ->].
  cbn [app assoc Nat.eqb default]. repeat apply conj.
  - destruct Hc as [<-|[<-|[]]]; [left|right]; reflexivity.
  - exact Hne.
  - reflexivity.
Qed.

Lemma captured_all m :
  captured HighlightPattern.all m ->
  In (matched m) [js "all"; js "~all"; js "-all"; js "?all"; js "+all"].
Proof.
  intros (p & t & H). unfold HighlightPattern.all in H.
  apply matchesC_group in H as (cs' & _ & H).
  apply matchesC_seq in H as (u1 & u2 & cs1 & cs2 & -> & _ & H1 & H2).
  apply matchesC_lit in H2 as [-> _].
  unfold opt in H1. apply matchesC_alt in H1 as [H1|H1].
  - apply matchesC_oneOf in H1 as (c & Hc & -> & _).
    destruct Hc as [<-|[<-|[<-|[<-|[]]]]]; cbn; auto 10.
  - apply matchesC_eps in H1 as [-> _]. left. reflexivity.
Qed.

Lemma captured_mechanism m :
  captured HighlightPattern.mechanism m ->
  In (group m 1) [js "a"; js "mx"; js "ptr"; js "exists"]
  /\ matched m = group m 1 ++ group m 2.
Proof.
  intros (p & t & H). unfold group, HighlightPattern.mechanism in *.
  apply matchesC_seq in H as (u1 & u2 & cs1 & cs2 & -> & -> & H1 & H2).
  apply matchesC_wordb in H1 as [-> ->].
  apply matchesC_seq in H2 as (v1 & v2 & ds1 & ds2 & -> & -> & H2 & H3).
  apply matchesC_group in H2 as (ds' & -> & H2).
  apply matchesC_group in H3 as (es' & -> & H3).
  assert (Hes : es' = []).
  { apply matchesC_alt in H3 as [H3|H3];
      [apply matchesC_chr in H3 as [_ ->]; reflexivity|].
    apply matchesC_alt in H3 as [H3|H3];
      [apply matchesC_class in H3 as (c & _ & -> & _); reflexivity|].
    apply matchesC_eol in H3 as [_ ->]. reflexivity. }
  subst es'.
  assert (Hds : In v1 [js "a"; js "mx"; js "ptr"; js "exists"] /\ ds' = []).
  { apply matchesC_alt in H2 as [H2|H2];
      [apply matchesC_lit in H2 as [-> ->]; split; [cbn; auto|reflexivity]|].
    apply matchesC_alt in H2 as [H2|H2];
      [apply matchesC_lit in H2 as [-> ->]; split; [cbn; auto|reflexivity]|].
    apply matchesC_alt in H2 as [H2|H2];
      apply matchesC_lit in H2 as [-> ->]; split; try reflexivity; cbn; auto. }
  destruct Hds as [Hv1 ->].
  cbn [app assoc Nat.eqb default]. split; [exact Hv1|reflexivity].
Qed.

End Captures.

(** ** Highlighting *)

Section Highlighting.

Lemma mechanismSpan_body cls attrs title body tip :
  sublist body (mechanismSpan cls attrs title body tip).
Proof.
  unfold mechanismSpan.
  do 10 apply sublist_inserts_l. apply sublist_inserts_r. reflexivity.
Qed.

(** [highlightMechanisms] takes nothing away from the record and moves
    nothing: the record is a subsequence of the markup it returns, with
    its angle brackets, ampersands and quotes as they were. *)
Theorem highlightMechanisms_keeps_record spfRecord :
  sublist spfRecord (highlightMechanisms spfRecord).
Proof.
  unfold highlightMechanisms, highlightWith. cbv zeta.
  set (explain := getMechanismExplanation).
  assert (S1 : forall s, sublist s (replaceWith Pattern.includeRegex
                                      (highlightInclude explain) s)).
  { intros s. apply replaceWith_sublist. intros m Hm.
    apply captured_token in Hm as [-> _].
    unfold highlightInclude, highlightRedirect. cbv zeta. apply mechanismSpan_body. }
  assert (S2 : forall s, sublist s (replaceWith Pattern.redirectRegex
                                      (highlightRedirect explain) s)).
  { intros s. apply replaceWith_sublist. intros m Hm.
    apply captured_token in Hm as [-> _].
    unfold highlightInclude, highlightRedirect. cbv zeta. apply mechanismSpan_body. }
  assert (S3 : forall s, sublist s (replaceWith HighlightPattern.ip
                                      (highlightIp explain) s)).
  { intros s. apply replaceWith_sublist. intros m Hm.
    apply captured_ip in Hm as (_ & _ & ->).
    unfold highlightIp. cbv zeta. apply mechanismSpan_body. }
  assert (S4 : forall s, sublist s (replaceWith HighlightPattern.all
                                      (highlightAll explain) s)).
  { intros s. apply replaceWith_sublist. intros m _.
    unfold highlightAll. cbv zeta. apply mechanismSpan_body. }
  assert (S5 : forall s, sublist s (replaceWith HighlightPattern.mechanism
                                      (highlightMechanism explain) s)).
  { intros s. apply replaceWith_sublist. intros m Hm.
    apply captured_mechanism in Hm as [_ ->].
    unfold highlightMechanism. cbv zeta. apply mechanismSpan_body. }
  etransitivity; [apply S1|]. etransitivity; [apply S2|].
  etransitivity; [apply S3|]. etransitivity; [apply S4|]. apply S5.
Qed.

(** The explanations that [highlightMechanisms] asks for are those of
    [include:], [redirect=], [ip4:], [ip6:], [a], [mx], [ptr], [exists]
    and of [all] with or without one of its four qualifiers, whatever the
    record: any [getMechanismExplanation] that explains these thirteen
    in the same way gives the same markup. *)
Theorem highlightMechanisms_explains_thirteen explain spfRecord :
  (forall k, In k highlightedMechanisms -> explain k = getMechanismExplanation k) ->
  highlightWith explain spfRecord = highlightMechanisms spfRecord.
Proof.
  intros He. unfold highlightMechanisms, highlightWith. cbv zeta.
  set (e1 := explain) in *. set (e2 := getMechanismExplanation) in *.
  assert (H1 : forall s, replaceWith Pattern.includeRegex (highlightInclude e1) s
                         = replaceWith Pattern.includeRegex (highlightInclude e2) s).
  { intros s. apply replaceWith_ext. intros m _. unfold highlightInclude.
    rewrite (He (js "include:")) by (cbn; auto 20). reflexivity. }
  assert (H2 : forall s, replaceWith Pattern.redirectRegex (highlightRedirect e1) s
                         = replaceWith Pattern.redirectRegex (highlightRedirect e2) s).
  { intros s. apply replaceWith_ext. intros m _. unfold highlightRedirect.
    rewrite (He (js "redirect=")) by (cbn; auto 20). reflexivity. }
  assert (H3 : forall s, replaceWith HighlightPattern.ip (highlightIp e1) s
                         = replaceWith HighlightPattern.ip (highlightIp e2) s).
  { intros s. apply replaceWith_ext. intros m Hm. unfold highlightIp.
    apply captured_ip in Hm as ([Hv|Hv] & _ & _); rewrite Hv;
      rewrite (He _) by (cbn; auto 20); reflexivity. }
  assert (H4 : forall s, replaceWith HighlightPattern.all (highlightAll e1) s
                         = replaceWith HighlightPattern.all (highlightAll e2) s).
  { intros s. apply replaceWith_ext. intros m Hm. unfold highlightAll.
    apply captured_all in Hm. rewrite (He (matched m)); [reflexivity|].
    cbn in Hm |- *. tauto. }
  assert (H5 : forall s, replaceWith HighlightPattern.mechanism (highlightMechanism e1) s
                         = replaceWith HighlightPattern.mechanism (highlightMechanism e2) s).
  { intros s. apply replaceWith_ext. intros m Hm. unfold highlightMechanism.
    apply captured_mechanism in Hm as [Hm _]. rewrite (He (group m 1)); [reflexivity|].
    cbn in Hm |- *. tauto. }
  rewrite H1, H2, H3, H4, H5. reflexivity.
Qed.

End Highlighting.

(** ** More theorems at concrete inputs *)

Lemma validateDomain_characters_witness :
  Forall (fun c => isAlnumHyphen c = true \/ c = 46%N) (js "my-site.example.org").
Proof.
  apply (validateDomain_characters (js "my-site.example.org")). by_evaluation.
Defined.

Lemma validateDomain_alphabetic_tld_witness :
  exists front tld,
    js "my-site.example.org" = front ++ [46%N] ++ tld
    /\ front <> []
    /\ 2 <= length tld
    /\ Forall (fun c => isAlpha c = true) tld.
Proof.
  apply (validateDomain_alphabetic_tld (js "my-site.example.org")). by_evaluation.
Defined.

Lemma checkSPF_rejects_invalid_input_witness :
  exists message details,
    checkSPF Examples.leafMx PageExamples.asciiLower PageExamples.plain
      (PageExamples.typed (js " 192.168.0.1 "))
    = (Normal tt,
       {| world := freshWorld; inputValue := js "192.168.0.1";
          buttonDisabled := false;
          shown := ErrorBox message details |}).
Proof.
  apply (checkSPF_rejects_invalid_input Examples.leafMx PageExamples.asciiLower
           PageExamples.plain (PageExamples.typed (js " 192.168.0.1 "))).
  intros H. apply validateDomain_iff in H. vm_compute in H. discriminate H.
Defined.

Lemma checkSPF_reenables_button_witness :
  buttonDisabled
    (snd (checkSPF Examples.leafMx PageExamples.asciiLower PageExamples.plain
            (PageExamples.typed (js " X.org "))))
  = false.
Proof.
  apply (checkSPF_reenables_button Examples.leafMx PageExamples.asciiLower
           PageExamples.plain (PageExamples.typed (js " X.org "))).
  - by_evaluation.
  - left. reflexivity.
Defined.

Lemma checkSPF_shows_lookup_failure_witness :
  exists message details,
    checkSPF Examples.offline PageExamples.asciiLower PageExamples.plain
      (PageExamples.typed (js " X.org "))
    = (Normal tt,
       {| world := {| visited := visited freshWorld;
                      requests := requests freshWorld ++ [js "x.org"] |};
          inputValue := js "x.org";
          buttonDisabled := false;
          shown := ErrorBox message details |}).
Proof.
  apply (checkSPF_shows_lookup_failure Examples.offline PageExamples.asciiLower
           PageExamples.plain (PageExamples.typed (js " X.org "))).
  - apply validateDomain_iff. by_evaluation.
  - by_evaluation.
Defined.

Lemma checkSPF_displays_valid_domain_witness :
  exists spfRecords,
    resolve Examples.leafMx
      (normalised PageExamples.asciiLower (PageExamples.typed (js " X.org ")))
    = Normal (js "v=spf1 mx -all" :: spfRecords)
    /\ Forall (fun c => isAlnumHyphen c = true \/ c = 46%N)
         (normalised PageExamples.asciiLower (PageExamples.typed (js " X.org ")))
    /\ world (snd (checkSPF Examples.leafMx PageExamples.asciiLower
                     PageExamples.plain (PageExamples.typed (js " X.org "))))
       = world (snd (PageExamples.plain
                       (normalised PageExamples.asciiLower
                          (PageExamples.typed (js " X.org ")))
                       (js "v=spf1 mx -all" :: spfRecords)
                       {| world :=
                            {| visited := visited (world (PageExamples.typed (js " X.org ")));
                               requests :=
                                 requests (world (PageExamples.typed (js " X.org ")))
                                 ++ [normalised PageExamples.asciiLower
                                       (PageExamples.typed (js " X.org "))] |};
                          inputValue :=
                            normalised PageExamples.asciiLower
                              (PageExamples.typed (js " X.org "));
                          buttonDisabled := true;
                          shown := LoadingBox |})).
Proof.
  apply (checkSPF_displays_valid_domain Examples.leafMx PageExamples.asciiLower
           PageExamples.plain (PageExamples.typed (js " X.org "))
           (js "v=spf1 mx -all")).
  - apply validateDomain_iff. by_evaluation.
  - by_evaluation.
Defined.

Lemma countDNSLookups_visited_includes_skipped_witness :
  countDNSLookups Examples.cycle 1 Examples.recOne 3
    {| visited := {[js "two.org"]}; requests := [] |}
  = (Normal (directCost Examples.recOne),
     {| visited := {[js "two.org"]}; requests := [] |}).
Proof.
  apply (countDNSLookups_visited_includes_skipped Examples.cycle 0
           Examples.recOne 3).
  - lia.
  - assert (H : includeDomains Examples.recOne = [js "two.org"]) by by_evaluation.
    rewrite H. intros d Hd. apply list_elem_of_singleton in Hd. subst d.
    cbn [visited]. apply elem_of_singleton. reflexivity.
Defined.

Lemma countDNSLookups_twice_witness :
  let w' := snd (countDNSLookups Examples.cycle 12 Examples.recOne 0 freshWorld) in
  (forall d, d ∈ includeDomains Examples.recOne -> d ∈ visited w')
  /\ countDNSLookups Examples.cycle 12 Examples.recOne 0 w'
     = (Normal (directCost Examples.recOne), w').
Proof.
  apply (countDNSLookups_twice Examples.cycle 12 Examples.recOne 0 freshWorld);
    lia.
Defined.

Lemma highlightMechanisms_explains_thirteen_witness :
  highlightWith thirteenOnly (js "v=spf1 include:_spf.example.com ip4:1.2.3.4 mx ~all")
  = highlightMechanisms (js "v=spf1 include:_spf.example.com ip4:1.2.3.4 mx ~all").
Proof.
  apply (highlightMechanisms_explains_thirteen thirteenOnly
           (js "v=spf1 include:_spf.example.com ip4:1.2.3.4 mx ~all")).
  intros k Hk. unfold highlightedMechanisms in Hk.
  repeat (destruct Hk as [<-|Hk]; [vm_compute; reflexivity|]).
  destruct Hk.
Defined.

Lemma countDNSLookups_counts_every_request_witness :
  exists n new w',
    countDNSLookups Examples.chainZone 12 (Examples.chainRecord 0) 0 freshWorld
    = (Normal n, w')
    /\ requests w' = requests freshWorld ++ new
    /\ length new <= n.
Proof.
  apply (countDNSLookups_counts_every_request Examples.chainZone 12
           (Examples.chainRecord 0) 0 freshWorld).
  lia.
Defined.

Lemma escapeHtml_injective_witness : js "a<b" = js "a<b".
Proof.
  apply (escapeHtml_injective (js "a<b") (js "a<b")). reflexivity.
Defined.

Lemma escapeHtml_unchanged_iff_witness :
  escapeHtml (escapeHtml (js "a<b")) <> escapeHtml (js "a<b").
Proof.
  apply (proj2 (escapeHtml_unchanged_iff (js "a<b"))).
  vm_compute. discriminate.
Defined.

Lemma checkSPF_never_throws_witness :
  checkSPF Examples.offline PageExamples.asciiLower PageExamples.plain
    (PageExamples.typed (js " X.org "))
  = (Normal tt,
     {| world := {| visited := ∅; requests := [js "x.org"] |};
        inputValue := js "x.org"; buttonDisabled := false;
        shown := ErrorBox (js "Error checking SPF: Failed to fetch")
                   (Some (js "Please verify the domain name is correct and try again."))
     |})
  /\ checkSPF Examples.leafMx PageExamples.asciiLower PageExamples.failing
       (PageExamples.typed (js " X.org "))
     = (Normal tt,
        {| world := {| visited := ∅; requests := [js "x.org"] |};
           inputValue := js "x.org"; buttonDisabled := false;
           shown := ErrorBox (js "Error checking SPF: boom")
                      (Some (js "Please verify the domain name is correct and try again."))
        |}).
Proof.
  split.
  - apply (proj1 (proj2 (checkSPF_never_throws Examples.offline
                           PageExamples.asciiLower PageExamples.plain
                           (PageExamples.typed (js " X.org "))))
             (Error (js "Failed to fetch"))).
    + apply validateDomain_iff. by_evaluation.
    + by_evaluation.
  - apply (proj2 (proj2 (checkSPF_never_throws Examples.leafMx
                           PageExamples.asciiLower PageExamples.failing
                           (PageExamples.typed (js " X.org "))))
             (js "v=spf1 mx -all") [] (Error (js "boom"))
             {| world := {| visited := ∅; requests := [js "x.org"] |};
                inputValue := js "x.org"; buttonDisabled := true;
                shown := Html (js "partial") |}).
    + apply validateDomain_iff. by_evaluation.
    + by_evaluation.
    + by_evaluation.
Defined.
